(** * DatabaseFrame: connection pool, thread transactions and maintenance facade

    A shallow embedding of [ConnectionPool] and of the transaction,
    statistics and maintenance parts of [BaseDatabaseManager]
    (src/Base/BaseDatabaseManager.h, src/Base/BaseDatabaseManager.cpp),
    followed by the properties proved about them.

    Conventions.
    - [QString] is [string]; the null and the empty [QString] are both [""]
      (Qt's [isEmpty] and [==] do not tell them apart).
    - [QSet<QString>] is [gset string], [QHash<QString, V>] is
      [gmap string V], [QQueue<QString>] is [list string] with the head of
      the queue first.
    - The Qt SQL layer is outside the repository.  Every call into it is
      appended to a trace of [Event]s, and what it answers is read from a
      [Native] oracle that sees the trace so far, so that the same call can
      succeed at one time and fail at another.
    - A thread is named by the string [currentTid()] gives for it: the
      decimal rendering of the address of its [QThread] object. *)

From Stdlib Require Import ZArith QArith Lia Ascii.
From stdpp Require Import gmap strings list fin_maps pretty.

Local Open Scope Z_scope.

(** ** The native layer *)

Inductive Signal :=
| transactionBegin
| transactionCommitted
| transactionRolledBack.

Inductive Event :=
| EvAddDatabase (name : string)        (* QSqlDatabase::addDatabase("QSQLITE", name) *)
| EvConfigure (name : string)          (* configureDatabase(db) *)
| EvRemoveDatabase (name : string)     (* QSqlDatabase::removeDatabase(name) *)
| EvTransaction (name : string)        (* db.transaction() *)
| EvCommit (name : string)             (* db.commit() *)
| EvRollback (name : string)           (* db.rollback() *)
| EvExec (name sql : string)           (* QSqlQuery(db).exec(sql) *)
| EvEmit (sig : Signal).               (* emit sig() *)

Abbreviation World := (list Event).

Record Native := mkNative {
  nat_open : World -> string -> bool;          (* db.open() of a new connection *)
  nat_isOpen : World -> string -> bool;        (* db.isOpen() *)
  nat_transaction : World -> string -> bool;   (* db.transaction() *)
  nat_commit : World -> string -> bool;        (* db.commit() *)
  nat_rollback : World -> string -> bool;      (* db.rollback() *)
  nat_exec : World -> string -> string -> bool;(* query.exec(sql) on a connection *)
  nat_elapsed : World -> Z                     (* QElapsedTimer::elapsed(), ms *)
}.

(** The part of [DatabaseConfig] the embedded code reads. *)
Record DatabaseConfig := mkConfig {
  connectionName : string;
  maxConnections : Z;
  enableWAL : bool
}.

(** [int] arithmetic of [++m_connectionCounter], wrap-around written out. *)
Definition wrap32 (z : Z) : Z := (z + 2 ^ 31) mod 2 ^ 32 - 2 ^ 31.

(** [qint64] arithmetic of the statistics counters. *)
Definition wrap64 (z : Z) : Z := (z + 2 ^ 63) mod 2 ^ 64 - 2 ^ 63.

(** ** ConnectionPool *)

(** A [QPointer<QThread>] as [isNull()] sees it: it is live from the moment
    it is stored and turns null when the [QThread] object it points to is
    destroyed. *)
Inductive ThreadRef := RefLive | RefNull.

Global Instance ThreadRef_eq_dec : EqDecision ThreadRef.
Proof. solve_decision. Defined.

Record Pool := mkPool {
  m_config : DatabaseConfig;
  m_usedConnections : gset string;
  m_connectionCounter : Z;
  m_availableByThread : gmap string (list string);   (* threadId -> idle queue *)
  m_connOwner : gmap string string;                  (* connName -> threadId *)
  m_activeTxByThread : gmap string string;           (* threadId -> connName *)
  m_threadRefs : gmap string ThreadRef
}.

Definition set_used (u : gset string) (p : Pool) : Pool :=
  mkPool (m_config p) u (m_connectionCounter p) (m_availableByThread p)
         (m_connOwner p) (m_activeTxByThread p) (m_threadRefs p).

Definition set_counter (c : Z) (p : Pool) : Pool :=
  mkPool (m_config p) (m_usedConnections p) c (m_availableByThread p)
         (m_connOwner p) (m_activeTxByThread p) (m_threadRefs p).

Definition set_available (a : gmap string (list string)) (p : Pool) : Pool :=
  mkPool (m_config p) (m_usedConnections p) (m_connectionCounter p) a
         (m_connOwner p) (m_activeTxByThread p) (m_threadRefs p).

Definition set_owner (o : gmap string string) (p : Pool) : Pool :=
  mkPool (m_config p) (m_usedConnections p) (m_connectionCounter p)
         (m_availableByThread p) o (m_activeTxByThread p) (m_threadRefs p).

Definition set_activeTx (t : gmap string string) (p : Pool) : Pool :=
  mkPool (m_config p) (m_usedConnections p) (m_connectionCounter p)
         (m_availableByThread p) (m_connOwner p) t (m_threadRefs p).

Definition set_threadRefs (r : gmap string ThreadRef) (p : Pool) : Pool :=
  mkPool (m_config p) (m_usedConnections p) (m_connectionCounter p)
         (m_availableByThread p) (m_connOwner p) (m_activeTxByThread p) r.

(** [ConnectionPool::ConnectionPool(config)]: every container empty. *)
Definition newPool (config : DatabaseConfig) : Pool :=
  mkPool config ∅ 0 ∅ ∅ ∅ ∅.

(** [QHash::operator[]]: the queue stored under [tid], after a
    default-constructed (empty) one has been inserted if there was none. *)
Definition queueOf (tid : string) (a : gmap string (list string)) : list string :=
  default [] (a !! tid).

Definition subscript (tid : string) (a : gmap string (list string))
  : gmap string (list string) :=
  <[tid := queueOf tid a]> a.

(** [totalConnectionsUnsafe()]: [n = m_usedConnections.size()], then
    [n += q.size()] for every queue. *)
Definition totalConnectionsUnsafe (p : Pool) : Z :=
  map_fold (fun _ q n => n + Z.of_nat (length q))
           (Z.of_nat (size (m_usedConnections p)))
           (m_availableByThread p).

(** [availableCount()]: [total += it.value().size()] over all queues. *)
Definition queueSum (a : gmap string (list string)) : Z :=
  map_fold (fun _ q total => total + Z.of_nat (length q)) 0 a.

Definition availableCount (p : Pool) : Z := queueSum (m_availableByThread p).

Definition usedCount (p : Pool) : Z :=
  Z.of_nat (size (m_usedConnections p)).

(** The names held in the idle queues, queue by queue. *)
Definition idleNames (a : gmap string (list string)) : list string :=
  concat (map snd (map_to_list a)).

(** The keys of [m_threadRefs] whose pointer [isNull()]. *)
Definition staleThreads (p : Pool) : list string :=
  (filter (fun kv => snd kv = RefNull) (map_to_list (m_threadRefs p))).*1.

(** The environment destroys the [QThread] object a thread id stands for:
    a stored live reference to it becomes null. *)
Definition threadFinished (tid : string) (p : Pool) : Pool :=
  match m_threadRefs p !! tid with
  | Some RefLive => set_threadRefs (<[tid := RefNull]> (m_threadRefs p)) p
  | _ => p
  end.

(** Body of the second loop of [cleanupFinishedThreads], for one stale
    thread id: drain and close its queue, then drop its three entries. *)
Definition cleanupThread (s : Pool * World) (tid : string) : Pool * World :=
  let '(p, w) := s in
  let q := queueOf tid (m_availableByThread p) in
  (set_threadRefs (delete tid (m_threadRefs p))
     (set_activeTx (delete tid (m_activeTxByThread p))
        (set_available (delete tid (m_availableByThread p)) p)),
   w ++ map EvRemoveDatabase q).

Definition cleanupFinishedThreads (s : Pool * World) : Pool * World :=
  fold_left cleanupThread (staleThreads (fst s)) s.

(** [QString("%1_%2_%3").arg(connectionName).arg(threadId).arg(counter)],
    for arguments that carry no place marker of their own.  Each [arg]
    replaces the lowest-numbered marker of the string it is called on, so a
    configured connection name that itself holds a marker (a percent sign
    and a number) would take the thread id or the counter in that place;
    such a name is outside what is modelled. *)
Definition connectionNameOf (config : DatabaseConfig) (tid : string) (counter : Z)
  : string :=
  connectionName config +:+ "_" +:+ tid +:+ "_" +:+ pretty counter.

Section PoolOperations.

Context (env : Native).

(** [createConnectionInCurrentThread()] *)
Definition createConnectionInCurrentThread (tid : string) (s : Pool * World)
  : string * (Pool * World) :=
  let '(p, w) := s in
  let counter := wrap32 (m_connectionCounter p + 1) in
  let name := connectionNameOf (m_config p) tid counter in
  let p := set_counter counter p in
  let w := w ++ [EvAddDatabase name] in
  if nat_open env w name
  then (name, (p, w ++ [EvConfigure name]))
  else ("", (p, w ++ [EvRemoveDatabase name])).

(** Lines 58-73 of [acquireConnection] and 194-206 of
    [beginThreadTransaction]: take the head of the caller's idle queue, or
    create a connection when the cap allows it.  The result is empty when
    nothing could be obtained. *)
Definition takeOrCreate (tid : string) (s : Pool * World)
  : string * (Pool * World) :=
  let '(p, w) := s in
  let p := set_available (subscript tid (m_availableByThread p)) p in
  match queueOf tid (m_availableByThread p) with
  | name :: rest =>
      (name,
       (set_used ({[name]} ∪ m_usedConnections p)
          (set_available (<[tid := rest]> (m_availableByThread p)) p), w))
  | [] =>
      if bool_decide (maxConnections (m_config p) <= totalConnectionsUnsafe p)
      then ("", (p, w))
      else
        let '(name, (p, w)) := createConnectionInCurrentThread tid (p, w) in
        if bool_decide (name = "")
        then (name, (p, w))
        else (name,
              (set_used ({[name]} ∪ m_usedConnections p)
                 (set_owner (<[name := tid]> (m_connOwner p)) p), w))
  end.

Definition acquireConnection (tid : string) (s : Pool * World)
  : string * (Pool * World) :=
  let '(p, w) := cleanupFinishedThreads s in
  let p := set_threadRefs (<[tid := RefLive]> (m_threadRefs p)) p in
  match m_activeTxByThread p !! tid with
  | Some name => (name, (p, w))
  | None => takeOrCreate tid (p, w)
  end.

Definition releaseConnection (tid name : string) (s : Pool * World)
  : Pool * World :=
  let '(p, w) := cleanupFinishedThreads s in
  if bool_decide (name ∈ m_usedConnections p) then
    let ownerTid := default tid (m_connOwner p !! name) in
    if bool_decide (default "" (m_activeTxByThread p !! ownerTid) = name)
    then (p, w)
    else
      (set_available
         (<[ownerTid := queueOf ownerTid (m_availableByThread p) ++ [name]]>
            (m_availableByThread p))
         (set_used (m_usedConnections p ∖ {[name]}) p), w)
  else (p, w).

Definition forceCloseIdleConnections (s : Pool * World) : Z * (Pool * World) :=
  let '(p, w) := s in
  let closing := idleNames (m_availableByThread p) in
  (Z.of_nat (length closing),
   (set_available ((fun _ => []) <$> m_availableByThread p) p,
    w ++ map EvRemoveDatabase closing)).

(** [!db.isOpen() || !db.transaction()], negated; [transaction()] is only
    called on an open connection. *)
Definition nativeBegin (name : string) (w : World) : bool * World :=
  if nat_isOpen env w name
  then (nat_transaction env w name, w ++ [EvTransaction name])
  else (false, w).

(** [beginThreadTransaction()] holds the mutex in two stretches, with the
    native begin in between.  What the first stretch (up to
    [locker.unlock()]) decides: *)
Inductive BeginStage :=
| BeginReturn (result : string)   (* the call returns this at once *)
| BeginNative (name : string).    (* the native begin is to run on [name] *)

Definition beginThreadTransaction_locked (tid : string) (s : Pool * World)
  : BeginStage * (Pool * World) :=
  match m_activeTxByThread (fst s) !! tid with
  | Some name => (BeginReturn name, s)
  | None =>
      let '(name, s) := takeOrCreate tid s in
      if bool_decide (name = "") then (BeginReturn "", s)
      else (BeginNative name, s)
  end.

(** The second stretch (after [locker.relock()]), given what the native
    begin answered. *)
Definition beginThreadTransaction_relocked
    (tid name : string) (ok : bool) (s : Pool * World) : string * (Pool * World) :=
  let '(p, w) := s in
  if ok
  then (name, (set_activeTx (<[tid := name]> (m_activeTxByThread p)) p, w))
  else ("",
        (set_available
           (<[tid := queueOf tid (m_availableByThread p) ++ [name]]>
              (m_availableByThread p))
           (set_used (m_usedConnections p ∖ {[name]}) p), w)).

(** The whole call, run without another operation in between. *)
Definition beginThreadTransaction (tid : string) (s : Pool * World)
  : string * (Pool * World) :=
  match beginThreadTransaction_locked tid s with
  | (BeginReturn result, s) => (result, s)
  | (BeginNative name, (p, w)) =>
      let '(ok, w) := nativeBegin name w in
      beginThreadTransaction_relocked tid name ok (p, w)
  end.

Definition commitThreadTransaction (tid : string) (s : Pool * World)
  : bool * (Pool * World) :=
  let '(p, w) := s in
  let name := default "" (m_activeTxByThread p !! tid) in          (* take(tid) *)
  let p := set_activeTx (delete tid (m_activeTxByThread p)) p in
  if bool_decide (name = "") then (false, (p, w))
  else
    let ok := nat_commit env w name in
    (ok, releaseConnection tid name (p, w ++ [EvCommit name])).

Definition rollbackThreadTransaction (tid : string) (s : Pool * World)
  : bool * (Pool * World) :=
  let '(p, w) := s in
  let name := default "" (m_activeTxByThread p !! tid) in          (* take(tid) *)
  let p := set_activeTx (delete tid (m_activeTxByThread p)) p in
  if bool_decide (name = "") then (false, (p, w))
  else
    let ok := nat_rollback env w name in
    (ok, releaseConnection tid name (p, w ++ [EvRollback name])).

(** *** Sequences of pool operations

    One constructor per public operation, tagged with the thread that
    issues it, and one for the environment destroying a thread object. *)
Inductive Op :=
| OpAcquire (tid : string)
| OpRelease (tid name : string)
| OpBegin (tid : string)
| OpCommit (tid : string)
| OpRollback (tid : string)
| OpForceClose
| OpThreadFinished (tid : string).

Definition step (s : Pool * World) (o : Op) : Pool * World :=
  match o with
  | OpAcquire tid => snd (acquireConnection tid s)
  | OpRelease tid name => releaseConnection tid name s
  | OpBegin tid => snd (beginThreadTransaction tid s)
  | OpCommit tid => snd (commitThreadTransaction tid s)
  | OpRollback tid => snd (rollbackThreadTransaction tid s)
  | OpForceClose => snd (forceCloseIdleConnections s)
  | OpThreadFinished tid => (threadFinished tid (fst s), snd s)
  end.

Definition run (ops : list Op) (s : Pool * World) : Pool * World :=
  fold_left step ops s.

End PoolOperations.

(** The cap of the first global invariant: in-use connections plus idle
    connections of all threads, against [maxConnections]. *)
Definition withinCap (p : Pool) : Prop :=
  usedCount p + availableCount p <= maxConnections (m_config p).

(** No stored thread reference has expired. *)
Definition noStaleThread (p : Pool) : Prop :=
  forall tid, m_threadRefs p !! tid <> Some RefNull.

(** An operation that leaves a thread's transaction open: anything but
    that thread committing, rolling back or being destroyed. *)
Definition endsTransaction (tid : string) (o : Op) : bool :=
  match o with
  | OpCommit t | OpRollback t | OpThreadFinished t => bool_decide (t = tid)
  | _ => false
  end.

(** The states the pool can be in: those a sequence of operations leads to
    from a newly constructed pool, the sequence being short enough for the
    [int] connection counter not to have overflowed. *)
Definition reachable (env : Native) (s : Pool * World) : Prop :=
  exists config ops,
    Z.of_nat (length ops) < 2 ^ 31 /\ s = run env ops (newPool config, []).

(** The character [c] does not occur in [s]. *)
Fixpoint noChar (c : ascii) (s : string) : Prop :=
  match s with
  | EmptyString => True
  | String a s' => a <> c /\ noChar c s'
  end.

(** How the maps of a pool hang together: every owned name was made for its
    owner with a counter value already passed; in-use names are owned; a
    queue holds, once each, names owned by its thread that are not in use; a
    binding is to a name owned by the bound thread and in use. *)
Definition consistent (p : Pool) : Prop :=
  0 <= m_connectionCounter p
  /\ (forall n t, m_connOwner p !! n = Some t ->
        exists c, n = connectionNameOf (m_config p) t c
                  /\ 1 <= c <= m_connectionCounter p)
  /\ (forall n, n ∈ m_usedConnections p -> is_Some (m_connOwner p !! n))
  /\ (forall t q, m_availableByThread p !! t = Some q ->
        NoDup q
        /\ forall n, n ∈ q ->
             m_connOwner p !! n = Some t /\ n ∉ m_usedConnections p)
  /\ (forall t n, m_activeTxByThread p !! t = Some n ->
        m_connOwner p !! n = Some t /\ n ∈ m_usedConnections p).

(** No binding, no in-use entry and no queue holds the empty name. *)
Definition namesNonEmpty (p : Pool) : Prop :=
  (forall t n, m_activeTxByThread p !! t = Some n -> n <> "")
  /\ (forall n, n ∈ m_usedConnections p -> n <> "")
  /\ (forall t q n, m_availableByThread p !! t = Some q -> n ∈ q -> n <> "").

(** Thread [tid] has [name] as its active-transaction slot and its stored
    liveness reference, if any, has not expired. *)
Definition holdsTransaction (tid name : string) (p : Pool) : Prop :=
  m_activeTxByThread p !! tid = Some name
  /\ m_threadRefs p !! tid <> Some RefNull.

(** The sweep runs at the top of an operation: the operation cannot tell a
    state from the swept one, and what it leaves holds no expired
    reference. *)
Definition sweepsFirst {A : Type} (op : Pool * World -> A * (Pool * World)) : Prop :=
  forall s,
    op s = op (cleanupFinishedThreads s)
    /\ noStaleThread (fst (snd (op s))).

(** ** BaseDatabaseManager *)

(** [DatabaseStats] without [lastQueryTime] (a wall-clock stamp).  The
    [double] average is carried as an exact rational. *)
Record DatabaseStats := mkStats {
  totalQueries : Z;
  successfulQueries : Z;
  failedQueries : Z;
  avgQueryTime : Q
}.

(** [DatabaseStats{}] *)
Definition emptyStats : DatabaseStats := mkStats 0 0 0 0%Q.

Definition recordQueryStats (success : bool) (queryTime : Q) (st : DatabaseStats)
  : DatabaseStats :=
  let total := wrap64 (totalQueries st + 1) in
  mkStats total
    (if success then wrap64 (successfulQueries st + 1) else successfulQueries st)
    (if success then failedQueries st else wrap64 (failedQueries st + 1))
    ((avgQueryTime st * inject_Z (wrap64 (total - 1)) + queryTime) / inject_Z total)%Q.

(** The manager: its configuration, the pool it may own
    ([std::unique_ptr<ConnectionPool>]) and its statistics.  Its main
    connection [m_database] lives in the native layer under the name
    [connectionName]. *)
Record Manager := mkManager {
  mgr_config : DatabaseConfig;
  m_connectionPool : option Pool;
  m_stats : DatabaseStats
}.

Definition set_pool (p : option Pool) (m : Manager) : Manager :=
  mkManager (mgr_config m) p (m_stats m).

Definition set_stats (st : DatabaseStats) (m : Manager) : Manager :=
  mkManager (mgr_config m) (m_connectionPool m) st.

Definition resetStatistics (m : Manager) : Manager := set_stats emptyStats m.

(** [BaseDatabaseManager(dbType, config)] *)
Definition newManager (config : DatabaseConfig) : Manager :=
  mkManager config (Some (newPool config)) emptyStats.

(** What a callable handed to [executeInTransaction] does when invoked. *)
Inductive Outcome (E T : Type) :=
| Returned (result : T)
| Threw (e : E).
Arguments Returned {E T} result.
Arguments Threw {E T} e.

(** The three cases [if constexpr] tells apart on [ReturnType], each with
    what [ReturnType{}] is. *)
Inductive ReturnKind : Type -> Type :=
| BoolResult : ReturnKind bool
| SuccessField {T : Type} (success : T -> bool) (dflt : T) : ReturnKind T
| PlainResult {T : Type} (dflt : T) : ReturnKind T.

Definition valueInit {T : Type} (k : ReturnKind T) : T :=
  match k in ReturnKind T return T with
  | BoolResult => false
  | SuccessField _ dflt => dflt
  | PlainResult dflt => dflt
  end.

(** The condition of the [?:] that picks commit over rollback; a result
    without a signal always commits. *)
Definition wantsCommit {T : Type} (k : ReturnKind T) : T -> bool :=
  match k in ReturnKind T return T -> bool with
  | BoolResult => fun result => result
  | SuccessField success _ => success
  | PlainResult _ => fun _ => true
  end.

Section ManagerOperations.

Context (env : Native).

Definition beginTransaction (tid : string) (s : Manager * World)
  : bool * (Manager * World) :=
  let '(m, w) := s in
  match m_connectionPool m with
  | Some p =>
      let '(name, (p, w)) := beginThreadTransaction env tid (p, w) in
      if bool_decide (name = "")
      then (false, (set_pool (Some p) m, w))
      else (true, (set_pool (Some p) m, w ++ [EvEmit transactionBegin]))
  | None =>
      let main := connectionName (mgr_config m) in
      if nat_isOpen env w main then
        let ok := nat_transaction env w main in
        (ok, (m, w ++ [EvTransaction main]
                   ++ (if ok then [EvEmit transactionBegin] else [])))
      else (false, (m, w))
  end.

Definition commitTransaction (tid : string) (s : Manager * World)
  : bool * (Manager * World) :=
  let '(m, w) := s in
  match m_connectionPool m with
  | Some p =>
      let '(ok, (p, w)) := commitThreadTransaction env tid (p, w) in
      if ok
      then (true, (set_pool (Some p) m, w ++ [EvEmit transactionCommitted]))
      else (false, (set_pool (Some p) m, w))
  | None =>
      let main := connectionName (mgr_config m) in
      if nat_isOpen env w main then
        let ok := nat_commit env w main in
        (ok, (m, w ++ [EvCommit main]
                   ++ (if ok then [EvEmit transactionCommitted] else [])))
      else (false, (m, w))
  end.

Definition rollbackTransaction (tid : string) (s : Manager * World)
  : bool * (Manager * World) :=
  let '(m, w) := s in
  match m_connectionPool m with
  | Some p =>
      let '(ok, (p, w)) := rollbackThreadTransaction env tid (p, w) in
      if ok
      then (true, (set_pool (Some p) m, w ++ [EvEmit transactionRolledBack]))
      else (false, (set_pool (Some p) m, w))
  | None =>
      let main := connectionName (mgr_config m) in
      if nat_isOpen env w main then
        let ok := nat_rollback env w main in
        (ok, (m, w ++ [EvRollback main]
                   ++ (if ok then [EvEmit transactionRolledBack] else [])))
      else (false, (m, w))
  end.

(** [executeInTransaction(operation)], called on thread [tid].  The
    callable runs on the state the successful begin left and may change it. *)
Definition executeInTransaction {E T : Type} (k : ReturnKind T) (tid : string)
    (operation : Manager * World -> Outcome E T * (Manager * World))
    (s : Manager * World) : Outcome E T * (Manager * World) :=
  let '(began, s) := beginTransaction tid s in
  if negb began then (Returned (valueInit k), s)
  else
    let '(o, s) := operation s in
    match o with
    | Returned result =>
        (Returned result,
         if wantsCommit k result
         then snd (commitTransaction tid s)
         else snd (rollbackTransaction tid s))
    | Threw e => (Threw e, snd (rollbackTransaction tid s))
    end.

(** One timed [query.exec(sql)] on the main connection followed by
    [recordQueryStats(ok, t.elapsed())]. *)
Definition timedExec (sql : string) (s : Manager * World)
  : bool * (Manager * World) :=
  let '(m, w) := s in
  let main := connectionName (mgr_config m) in
  let ok := nat_exec env w main sql in
  let w := w ++ [EvExec main sql] in
  (ok, (set_stats (recordQueryStats ok (inject_Z (nat_elapsed env w)) (m_stats m)) m, w)).

Definition optimizeDatabase (s : Manager * World) : bool * (Manager * World) :=
  let '(m, w) := s in
  if negb (nat_isOpen env w (connectionName (mgr_config m))) then (false, (m, w))
  else
    let '(active, (m, w)) :=
      match m_connectionPool m with
      | Some p =>
          let '(_, (p, w)) := forceCloseIdleConnections (p, w) in
          (bool_decide (0 < usedCount p), (set_pool (Some p) m, w))
      | None => (false, (m, w))
      end in
    if active then (false, (m, w))
    else
      let s :=
        if enableWAL (mgr_config m)
        then snd (timedExec "PRAGMA wal_checkpoint(TRUNCATE)" (m, w))
        else (m, w) in
      let '(vacuumOk, s) := timedExec "VACUUM" s in
      let '(analyzeOk, s) := timedExec "ANALYZE" s in
      (vacuumOk && analyzeOk, s).

End ManagerOperations.

(** A run of [recordQueryStats] calls, oldest first, each with its success
    flag and its timing. *)
Definition recordAll (calls : list (bool * Q)) (st : DatabaseStats) : DatabaseStats :=
  fold_left (fun st c => recordQueryStats (fst c) (snd c) st) calls st.

Definition Qsum (ts : list Q) : Q := fold_right Qplus 0%Q ts.

(** The arithmetic mean [(t1 + ... + tN) / N]. *)
Definition mean (ts : list Q) : Q := (Qsum ts / inject_Z (Z.of_nat (length ts)))%Q.

(** Native commits and rollbacks, and the signals announcing them. *)
Definition isEndEvent (ev : Event) : bool :=
  match ev with
  | EvCommit _ | EvRollback _ => true
  | EvEmit transactionCommitted | EvEmit transactionRolledBack => true
  | _ => false
  end.

(** ** Further parts of the code

    The rest of [ConnectionPool] (its destructor, and the view of the native
    layer its calls leave behind), the health check and the sequences of
    calls of [BaseDatabaseManager], the table objects of
    src/FrameWork/DatabaseFramework.h and .cpp, and the camera table and
    statistics of src/Functions/DeviceDatabaseManager.

    Further conventions.
    - A [QString] holds UTF-16 code units; the [string] that stands for it
      holds the UTF-8 bytes of the same text, which is how a string literal
      of this file is read.  [QString::length()] and the [QChar]s a loop
      visits are those of [utf16], the code units these bytes encode.
    - [int] arithmetic is written with [wrap32]; a division that has no
      value in C++ gives [None].
    - Logging ([qDebug], [qWarning], [logOperation]) is left out: it reads
      the state and changes nothing of what is modelled.
    - The mutexes of the manager and of the table objects are left out:
      the calls modelled below run one after the other, each from its first
      line to its return. *)


(** What one native call does to the set of connection names Qt's
    connection registry holds: [addDatabase] enters the name,
    [removeDatabase] drops it. *)
Definition openAfter (o : gset string) (ev : Event) : gset string :=
  match ev with
  | EvAddDatabase n => {[n]} ∪ o
  | EvRemoveDatabase n => o ∖ {[n]}
  | _ => o
  end.

(** The connections open in the native layer after a trace. *)
Definition openConnections (w : World) : gset string :=
  fold_left openAfter w ∅.

(** The connections a pool keeps track of: in use, or idle in a queue. *)
Definition tracked (p : Pool) : gset string :=
  m_usedConnections p ∪ list_to_set (idleNames (m_availableByThread p)).

Section ManagerMaintenance.

Context (env : Native).

(** [BaseDatabaseManager::healthCheck()] *)
Definition healthCheck (s : Manager * World) : bool * (Manager * World) :=
  let '(m, w) := s in
  if negb (nat_isOpen env w (connectionName (mgr_config m))) then (false, (m, w))
  else timedExec env "SELECT 1" (m, w).

(** [BaseDatabaseManager::getStatistics()] *)
Definition getStatistics (m : Manager) : DatabaseStats := m_stats m.

(** *** Sequences of manager calls *)
Inductive ManagerOp :=
| MgrBegin (tid : string)
| MgrCommit (tid : string)
| MgrRollback (tid : string)
| MgrHealthCheck
| MgrOptimize
| MgrResetStatistics.

Definition managerStep (s : Manager * World) (o : ManagerOp) : Manager * World :=
  match o with
  | MgrBegin tid => snd (beginTransaction env tid s)
  | MgrCommit tid => snd (commitTransaction env tid s)
  | MgrRollback tid => snd (rollbackTransaction env tid s)
  | MgrHealthCheck => snd (healthCheck s)
  | MgrOptimize => snd (optimizeDatabase env s)
  | MgrResetStatistics => (resetStatistics (fst s), snd s)
  end.

Definition managerRun (ops : list ManagerOp) (s : Manager * World) : Manager * World :=
  fold_left managerStep ops s.

End ManagerMaintenance.

(** The counters of a [DatabaseStats] add up and have not overflowed. *)
Definition countersAddUp (st : DatabaseStats) : Prop :=
  totalQueries st = successfulQueries st + failedQueries st
  /\ 0 <= successfulQueries st
  /\ 0 <= failedQueries st.

(** The manager still owns a pool, made for [config] and within its cap. *)
Definition poolKept (config : DatabaseConfig) (m : Manager) : Prop :=
  exists p, m_connectionPool m = Some p /\ m_config p = config /\ withinCap p.

(** ** BaseTableOperations (src/FrameWork/DatabaseFramework.cpp)

    A table object holds a handle of the manager's main connection and a
    pointer to the manager's pool, which may be null.  The state its methods
    run on is therefore the pool the pointer refers to ([None] for a null
    pointer) and the native trace. *)
Record BaseTableOperations := mkTableOperations {
  m_database : string;      (* the connection [*m_database] is a handle of *)
  m_tableName : string
}.

(** [BaseTableOperations::ScopedDb] *)
Record ScopedDb := mkScopedDb {
  sd_name : string;         (* [name]: the pooled connection; empty for the main one *)
  sd_db : string;           (* the connection [db] is a handle of *)
  sd_pool : bool            (* [pool != nullptr] *)
}.

Section TableOperations.

Context (env : Native).

(** [BaseTableOperations::acquireDb()], called on thread [tid]. *)
Definition acquireDb (t : BaseTableOperations) (tid : string)
    (s : option Pool * World) : ScopedDb * (option Pool * World) :=
  match fst s with
  | Some p =>
      let '(name, (p, w)) := acquireConnection env tid (p, snd s) in
      (mkScopedDb name name true, (Some p, w))
  | None => (mkScopedDb "" (m_database t) false, s)
  end.

(** [ScopedDb::~ScopedDb()] *)
Definition releaseDb (tid : string) (c : ScopedDb) (s : option Pool * World)
  : option Pool * World :=
  match fst s with
  | Some p =>
      if sd_pool c && negb (bool_decide (sd_name c = ""))
      then let '(p, w) := releaseConnection tid (sd_name c) (p, snd s) in (Some p, w)
      else s
  | None => s
  end.

(** The scope of an [auto c = acquireDb();] local: the connection is
    obtained, the body runs on it, and the destructor of [c] runs when the
    method returns, whichever [return] it takes. *)
Definition scoped {A : Type} (t : BaseTableOperations) (tid : string)
    (body : ScopedDb -> World -> A * World) (s : option Pool * World)
  : A * (option Pool * World) :=
  let '(c, (pool, w)) := acquireDb t tid s in
  let '(result, w) := body c w in
  (result, releaseDb tid c (pool, w)).

(** The body shared by [dropTable] and [truncateTable]: nothing is executed
    on a connection that is not open. *)
Definition execIfOpen (sql : string) (c : ScopedDb) (w : World) : bool * World :=
  if negb (nat_isOpen env w (sd_db c)) then (false, w)
  else (nat_exec env w (sd_db c) sql, w ++ [EvExec (sd_db c) sql]).

(** [BaseTableOperations::dropTable()] *)
Definition dropTable (t : BaseTableOperations) (tid : string)
    (s : option Pool * World) : bool * (option Pool * World) :=
  scoped t tid (execIfOpen ("DROP TABLE IF EXISTS " +:+ m_tableName t)) s.

(** [BaseTableOperations::truncateTable()] *)
Definition truncateTable (t : BaseTableOperations) (tid : string)
    (s : option Pool * World) : bool * (option Pool * World) :=
  scoped t tid (execIfOpen ("DELETE FROM " +:+ m_tableName t)) s.

End TableOperations.

(** ** CameraInfoTableOperations
    (src/Functions/DeviceDatabaseManager/CameraInfoTable.cpp) *)

Definition CREATE_TABLE_SQL : string := "
  CREATE TABLE IF NOT EXISTS camera_info (
    id INTEGER PRIMARY KEY AUTOINCREMENT,
    name TEXT NOT NULL,
    version TEXT,
    connection_type TEXT,
    serial_number TEXT UNIQUE NOT NULL,
    manufacturer TEXT,
    created_at DATETIME DEFAULT CURRENT_TIMESTAMP,
    updated_at DATETIME DEFAULT CURRENT_TIMESTAMP,
    CHECK(length(name) > 0),
    CHECK(length(serial_number) > 0)
  )
".

Definition TRG_SQL : string := "
      CREATE TRIGGER IF NOT EXISTS trg_camera_info_updated_at
      AFTER UPDATE ON camera_info
      FOR EACH ROW BEGIN
        UPDATE camera_info SET updated_at = CURRENT_TIMESTAMP WHERE id = NEW.id;
      END;
    ".

(** [CameraInfoTableOperations(db, pool)]: the table is "camera_info". *)
Definition CameraInfoTableOperations (db : string) : BaseTableOperations :=
  mkTableOperations db "camera_info".

Section CameraInfoTableOperations.

Context (env : Native).

(** [CameraInfoTableOperations::createTable()]: only a failure of the
    CREATE TABLE statement makes it return [false]; what the trigger and the
    two indexes answer is logged and dropped. *)
Definition createTable (t : BaseTableOperations) (tid : string)
    (s : option Pool * World) : bool * (option Pool * World) :=
  scoped env t tid
    (fun c w =>
       if negb (nat_isOpen env w (sd_db c)) then (false, w)
       else
         let ok := nat_exec env w (sd_db c) CREATE_TABLE_SQL in
         let w := w ++ [EvExec (sd_db c) CREATE_TABLE_SQL] in
         if negb ok then (false, w)
         else
           (true,
            w ++ [EvExec (sd_db c) TRG_SQL;
                  EvExec (sd_db c)
                    "CREATE INDEX IF NOT EXISTS idx_camera_info_mfr ON camera_info(manufacturer)";
                  EvExec (sd_db c)
                    "CREATE INDEX IF NOT EXISTS idx_camera_info_conn ON camera_info(connection_type)"]))
    s.

End CameraInfoTableOperations.

(** ** Paging (src/FrameWork/DatabaseFramework.h) *)

Module PageParams.

Record t := mk {
  pageIndex : Z;
  pageSize : Z;
  orderBy : string;
  ascending : bool
}.

(** [int offset() const { return (pageIndex - 1) * pageSize; }] *)
Definition offset (params : t) : Z :=
  wrap32 (wrap32 (pageIndex params - 1) * pageSize params).

End PageParams.

Module PageResult.

Record t (T : Type) := mk {
  data : list T;
  totalCount : Z;
  totalPages : Z;
  currentPage : Z;
  pageSize : Z
}.

Arguments mk {T} data totalCount totalPages currentPage pageSize.
Arguments data {T} _.
Arguments totalCount {T} _.
Arguments totalPages {T} _.
Arguments currentPage {T} _.
Arguments pageSize {T} _.

End PageResult.

(** [int / int]: the quotient rounded toward zero.  A zero divisor and
    [INT_MIN / -1] have no value (the program is stopped). *)
Definition div32 (a b : Z) : option Z :=
  if bool_decide (b = 0) then None
  else if bool_decide (a = - 2 ^ 31 /\ b = -1) then None
  else Some (Z.quot a b).

(** [PageResult(list, total, params)]:
    [totalPages = (totalCount + pageSize - 1) / pageSize]. *)
Definition newPageResult {T : Type} (list : list T) (total : Z) (params : PageParams.t)
  : option (PageResult.t T) :=
  let size := PageParams.pageSize params in
  match div32 (wrap32 (wrap32 (total + size) - 1)) size with
  | Some pages => Some (PageResult.mk list total pages (PageParams.pageIndex params) size)
  | None => None
  end.

(** ** The ORDER BY column of CameraInfoTable::selectByPage
    (src/Functions/DeviceDatabaseManager/CameraInfoTable.h, .cpp) *)

(** The [static const QSet<QString> k] of [sanitizeOrderBy]. *)
Definition orderByColumns : gset string :=
  {[ "id"; "name"; "version"; "connection_type"; "serial_number"; "manufacturer";
     "created_at"; "updated_at" ]}.

Definition sanitizeOrderBy (col : string) : string :=
  if bool_decide (col ∈ orderByColumns) then col else "name".

(** The statement [selectByPage] executes: the text the four chained [arg]
    calls make of the format, none of the four arguments holding a place
    marker of its own (a checked column name, a keyword, two numbers). *)
Definition selectByPage_sql (params : PageParams.t) : string :=
  let orderBy :=
    if bool_decide (PageParams.orderBy params = "") then "name"
    else sanitizeOrderBy (PageParams.orderBy params) in
  "SELECT id,name,version,connection_type,serial_number,manufacturer,created_at,updated_at FROM camera_info ORDER BY "
  +:+ orderBy +:+ " " +:+ (if PageParams.ascending params then "ASC" else "DESC")
  +:+ " LIMIT " +:+ pretty (PageParams.pageSize params)
  +:+ " OFFSET " +:+ pretty (PageParams.offset params).

(** ** Results and entities (src/FrameWork/DatabaseFramework.h,
    src/Functions/DeviceDatabaseManager/DeviceDataBaseStruct.h) *)

(** [T()]: the value-initialised object of a result's payload type. *)
Class DefaultConstructible (T : Type) := defaultValue : T.

Global Instance bool_DefaultConstructible : DefaultConstructible bool := false.
Global Instance Z_DefaultConstructible : DefaultConstructible Z := 0.
Global Instance list_DefaultConstructible {A : Type} : DefaultConstructible (list A) := [].

Module DbResult.

Record t (T : Type) := mk {
  success : bool;
  errorMessage : string;
  data : T
}.

Arguments mk {T} success errorMessage data.
Arguments success {T} _.
Arguments errorMessage {T} _.
Arguments data {T} _.

(** [DbResult::Success(data)] *)
Definition Success {T : Type} (data : T) : t T := mk true "" data.

(** [DbResult::Error(msg)] *)
Definition Error {T : Type} `{DefaultConstructible T} (msg : string) : t T :=
  mk false msg defaultValue.

End DbResult.

Module CameraInfo.

(** The two [QDateTime] stamps are carried as milliseconds since the epoch. *)
Record t := mk {
  id : Z;
  name : string;
  version : string;
  connectionType : string;
  serialNumber : string;
  manufacturer : string;
  createdAt : Z;
  updatedAt : Z
}.

(** [bool isValid() const] *)
Definition isValid (camera : t) : bool :=
  negb (bool_decide (name camera = "")) && negb (bool_decide (serialNumber camera = "")).

End CameraInfo.

(** *** The UTF-16 text of a [QString]

    The code units of one code point: itself below 2^16, a surrogate pair
    from there on. *)
Definition utf16_units (codePoint : Z) : list Z :=
  if codePoint <? 65536 then [codePoint]
  else [55296 + (codePoint - 65536) / 1024; 56320 + (codePoint - 65536) mod 1024].

(** The code units of the text a sequence of UTF-8 bytes encodes.  A lead
    byte gives the number of continuation bytes still [pending] and the high
    bits of the code point; each continuation byte adds six bits.  The bytes
    are taken to be well-formed UTF-8: no other sequence of bytes stands for
    a [QString] here. *)
Fixpoint utf16_decode (pending : nat) (codePoint : Z) (bytes : list Z) : list Z :=
  match bytes with
  | [] => []
  | b :: rest =>
      match pending with
      | O =>
          if b <? 128 then b :: utf16_decode 0 0 rest              (* 0xxxxxxx *)
          else if b <? 224 then utf16_decode 1 (b - 192) rest      (* 110xxxxx *)
          else if b <? 240 then utf16_decode 2 (b - 224) rest      (* 1110xxxx *)
          else utf16_decode 3 (b - 240) rest                       (* 11110xxx *)
      | S O => utf16_units (codePoint * 64 + (b - 128)) ++ utf16_decode 0 0 rest
      | S k => utf16_decode k (codePoint * 64 + (b - 128)) rest
      end
  end.

(** The [QChar]s of a [QString], each as the number of its code unit. *)
Definition utf16 (s : string) : list Z :=
  utf16_decode 0 0
    (map (fun a => Z.of_N (N_of_ascii a)) (String.list_ascii_of_string s)).

(** [QString::length()]: the number of UTF-16 code units. *)
Definition qlength (s : string) : Z := Z.of_nat (length (utf16 s)).

Section CameraInfoTable.

(** [QChar::isPrint()] and [QChar::isSpace()] on a code unit, which Qt
    reads from its Unicode tables. *)
Context (isPrint isSpace : Z -> bool).

(** [CameraInfoTable::validateCameraInfo(camera, isUpdate)] *)
Definition validateCameraInfo (camera : CameraInfo.t) (isUpdate : bool)
  : DbResult.t bool :=
  if bool_decide (CameraInfo.name camera = "")
  then DbResult.Error "相机名称不能为空"
  else if bool_decide (CameraInfo.serialNumber camera = "")
  then DbResult.Error "序列号不能为空"
  else if bool_decide (255 < qlength (CameraInfo.name camera))
  then DbResult.Error "相机名称长度不能超过255个字符"
  else if bool_decide (100 < qlength (CameraInfo.serialNumber camera))
  then DbResult.Error "序列号长度不能超过100个字符"
  else if negb (bool_decide (CameraInfo.version camera = ""))
          && bool_decide (50 < qlength (CameraInfo.version camera))
  then DbResult.Error "版本号长度不能超过50个字符"
  else if negb (bool_decide (CameraInfo.connectionType camera = ""))
          && bool_decide (50 < qlength (CameraInfo.connectionType camera))
  then DbResult.Error "连接类型长度不能超过50个字符"
  else if negb (bool_decide (CameraInfo.manufacturer camera = ""))
          && bool_decide (255 < qlength (CameraInfo.manufacturer camera))
  then DbResult.Error "制造商名称长度不能超过255个字符"
  else if existsb (fun ch => negb (isPrint ch) || isSpace ch)
            (utf16 (CameraInfo.serialNumber camera))
  then DbResult.Error "序列号不能包含空白字符或不可打印字符"
  else DbResult.Success true.

(** A camera that [validateCameraInfo(camera)] lets through, as the first
    loop of [batchInsert] asks ([isUpdate] is left at its default). *)
Definition passesValidation (cam : CameraInfo.t) : Prop :=
  DbResult.success (validateCameraInfo cam false) = true.

(** The locals of the first loop of [CameraInfoTable::batchInsert]. *)
Record BatchScan := mkBatchScan {
  deduped : list CameraInfo.t;
  seenSerials : gset string;
  errors : list string
}.

(** One round of that loop (lines 452-470). *)
Definition batchScanStep (scan : BatchScan) (cam : CameraInfo.t) : BatchScan :=
  let validation := validateCameraInfo cam false in
  if negb (DbResult.success validation)
  then mkBatchScan (deduped scan) (seenSerials scan)
         (errors scan
            ++ ["相机 '" +:+ CameraInfo.name cam +:+ "': "
                +:+ DbResult.errorMessage validation])
  else
    let sn := CameraInfo.serialNumber cam in
    if bool_decide (sn ∈ seenSerials scan)
    then mkBatchScan (deduped scan) (seenSerials scan)
           (errors scan ++ ["序列号 '" +:+ sn +:+ "' 在同一批次内重复，已忽略后续重复项"])
    else mkBatchScan (deduped scan ++ [cam]) ({[sn]} ∪ seenSerials scan) (errors scan).

(** The loop over the whole batch. *)
Definition batchScan (cameras : list CameraInfo.t) : BatchScan :=
  fold_left batchScanStep cameras (mkBatchScan [] ∅ []).

End CameraInfoTable.

(** ** DeviceDatabaseManager::getCameraStatistics
    (src/Functions/DeviceDatabaseManager/DeviceDatabaseManager.cpp) *)

(** The key a camera is counted under: its manufacturer, or a fixed word
    when it has none. *)
Definition statisticsKey (camera : CameraInfo.t) : string :=
  if bool_decide (CameraInfo.manufacturer camera = "") then "未知"
  else CameraInfo.manufacturer camera.

(** The loop over [allCameras.data] (lines 134-138): [statistics[key]++] on a
    [QMap<QString, int>], whose [operator[]] enters 0 for a new key. *)
Definition countByManufacturer (cameras : list CameraInfo.t) : gmap string Z :=
  fold_left
    (fun statistics camera =>
       <[statisticsKey camera :=
           wrap32 (default 0 (statistics !! statisticsKey camera) + 1)]> statistics)
    cameras ∅.

(** ** Sample inputs *)

(** A native layer where every call succeeds and every timer reads 5 ms. *)
Definition nativeOk : Native :=
  mkNative (fun _ _ => true) (fun _ _ => true) (fun _ _ => true)
           (fun _ _ => true) (fun _ _ => true) (fun _ _ _ => true) (fun _ => 5).

(** The same, except that [db.transaction()] always fails. *)
Definition nativeNoBegin : Native :=
  mkNative (fun _ _ => true) (fun _ _ => true) (fun _ _ => false)
           (fun _ _ => true) (fun _ _ => true) (fun _ _ _ => true) (fun _ => 5).

(** Every call succeeds, but the main connection (named "db") is not open. *)
Definition nativeMainClosed : Native :=
  mkNative (fun _ _ => true) (fun _ name => negb (String.eqb name "db"))
           (fun _ _ => true) (fun _ _ => true) (fun _ _ => true)
           (fun _ _ _ => true) (fun _ => 5).

Definition sampleConfig : DatabaseConfig := mkConfig "db" 2 true.

Definition freshPool : Pool * World := (newPool sampleConfig, []).

(** Thread 7 used a connection and returned it, then its thread object was
    destroyed: one idle connection under an expired reference. *)
Definition afterThreadDied : Pool * World :=
  run nativeOk [OpAcquire "7"; OpRelease "7" "db_7_1"; OpThreadFinished "7"] freshPool.

(** * Properties *)

Arguments cleanupFinishedThreads : simpl never.
Arguments createConnectionInCurrentThread : simpl never.
Arguments takeOrCreate : simpl never.
Arguments releaseConnection : simpl never.
Arguments nativeBegin : simpl never.
Arguments beginThreadTransaction : simpl never.
Arguments commitThreadTransaction : simpl never.
Arguments rollbackThreadTransaction : simpl never.

(** The two stretches of [beginThreadTransaction] put together. *)
Lemma beginThreadTransaction_unfold (env : Native) tid s :
  beginThreadTransaction env tid s
  = match m_activeTxByThread (fst s) !! tid with
    | Some name => (name, s)
    | None =>
        let '(name, (p, w)) := takeOrCreate env tid s in
        if bool_decide (name = "") then ("", (p, w))
        else
          let '(ok, w) := nativeBegin env name w in
          if ok
          then (name, (set_activeTx (<[tid := name]> (m_activeTxByThread p)) p, w))
          else ("",
                (set_available
                   (<[tid := queueOf tid (m_availableByThread p) ++ [name]]>
                      (m_availableByThread p))
                   (set_used (m_usedConnections p ∖ {[name]}) p), w))
    end.
Proof.
  unfold beginThreadTransaction, beginThreadTransaction_locked,
    beginThreadTransaction_relocked.
  destruct (m_activeTxByThread (fst s) !! tid); [reflexivity|].
  destruct (takeOrCreate env tid s) as [name [p w]].
  case_bool_decide; [reflexivity|].
  destruct (nativeBegin env name w) as [[|] w']; reflexivity.
Qed.

(** ** Counting connections *)

Lemma queueSum_empty : queueSum ∅ = 0.
Proof. apply map_fold_empty. Qed.

Lemma queueSum_insert_fresh a k q :
  a !! k = None -> queueSum (<[k := q]> a) = queueSum a + Z.of_nat (length q).
Proof.
  intros Hk. unfold queueSum.
  rewrite map_fold_insert_L; [reflexivity | | exact Hk].
  intros; lia.
Qed.

Lemma queueSum_delete a k q :
  a !! k = Some q -> queueSum a = queueSum (delete k a) + Z.of_nat (length q).
Proof.
  intros Hk. unfold queueSum.
  rewrite (map_fold_delete_L _ _ k q a); [reflexivity | | exact Hk].
  intros; lia.
Qed.

Lemma queueSum_insert a k q :
  queueSum (<[k := q]> a) = queueSum (delete k a) + Z.of_nat (length q).
Proof.
  rewrite <- insert_delete_eq. apply queueSum_insert_fresh, lookup_delete_eq.
Qed.

Lemma queueSum_nonneg a : 0 <= queueSum a.
Proof.
  induction a as [|k q a Hk IH] using map_ind.
  - rewrite queueSum_empty. lia.
  - rewrite queueSum_insert_fresh by exact Hk. lia.
Qed.

Lemma queueSum_delete_le a k : queueSum (delete k a) <= queueSum a.
Proof.
  destruct (a !! k) as [q|] eqn:Hk.
  - rewrite (queueSum_delete a k q Hk). lia.
  - rewrite delete_id by exact Hk. lia.
Qed.

Lemma queueSum_clear (a : gmap string (list string)) :
  queueSum ((fun _ : list string => @nil string) <$> a) = 0.
Proof.
  induction a as [|k q a Hk IH] using map_ind.
  - rewrite fmap_empty. apply queueSum_empty.
  - rewrite fmap_insert, queueSum_insert_fresh, IH; [reflexivity|].
    rewrite lookup_fmap, Hk. reflexivity.
Qed.

Lemma queueSum_subscript a tid : queueSum (subscript tid a) = queueSum a.
Proof.
  unfold subscript, queueOf. destruct (a !! tid) as [q|] eqn:Hk; simpl.
  - rewrite insert_id by exact Hk. reflexivity.
  - rewrite queueSum_insert_fresh by exact Hk. simpl. lia.
Qed.

(** Replacing the queue of [k] by [q']: the sum moves by the difference of
    the two lengths. *)
Lemma queueSum_replace a k q' :
  queueSum (<[k := q']> a)
  = queueSum a - Z.of_nat (length (queueOf k a)) + Z.of_nat (length q').
Proof.
  rewrite queueSum_insert. unfold queueOf.
  destruct (a !! k) as [q|] eqn:Hk; simpl.
  - rewrite (queueSum_delete a k q Hk). lia.
  - rewrite delete_id by exact Hk. lia.
Qed.

(** [totalConnectionsUnsafe] is what the two public counters add up to. *)
Lemma total_split p : totalConnectionsUnsafe p = usedCount p + availableCount p.
Proof.
  unfold totalConnectionsUnsafe, usedCount, availableCount, queueSum.
  set (c := Z.of_nat (size (m_usedConnections p))).
  replace c with ((fun y => c + y) 0) at 1 by (cbv beta; lia).
  rewrite (map_fold_comm_acc _ (fun y => c + y)); [reflexivity|].
  intros; lia.
Qed.

Lemma size_insert_le (n : string) (u : gset string) :
  (size ({[n]} ∪ u) <= S (size u))%nat.
Proof.
  destruct (decide (n ∈ u)) as [Hin|Hout].
  - rewrite (subseteq_union_1_L {[n]} u) by (apply singleton_subseteq_l, Hin). lia.
  - rewrite size_union by (apply disjoint_singleton_l, Hout).
    rewrite size_singleton. lia.
Qed.

Lemma size_remove (n : string) (u : gset string) :
  n ∈ u -> size u = S (size (u ∖ {[n]})).
Proof.
  intros Hin. rewrite size_difference by (apply singleton_subseteq_l, Hin).
  rewrite size_singleton.
  assert (size u <> 0)%nat; [|lia].
  intros H0. apply size_empty_inv in H0.
  apply (not_elem_of_empty (C := gset string) n). rewrite <- H0. exact Hin.
Qed.

(** ** The stale-thread sweep *)

Lemma staleThreads_spec p tid :
  tid ∈ staleThreads p <-> m_threadRefs p !! tid = Some RefNull.
Proof.
  unfold staleThreads. rewrite list_elem_of_fmap. split.
  - intros [[k v] [-> Hin]]. apply list_elem_of_filter in Hin as [Hv Hin].
    simpl in *. subst v. apply elem_of_map_to_list in Hin. exact Hin.
  - intros Hk. exists (tid, RefNull). split; [reflexivity|].
    apply list_elem_of_filter. split; [reflexivity|].
    apply elem_of_map_to_list. exact Hk.
Qed.

Lemma staleThreads_nil p : noStaleThread p -> staleThreads p = [].
Proof.
  intros Hno. destruct (staleThreads p) as [|tid l] eqn:Hl; [reflexivity|].
  exfalso. apply (Hno tid). apply staleThreads_spec. rewrite Hl. left.
Qed.

Lemma cleanupThread_fold_frame l s :
  m_config (fst (fold_left cleanupThread l s)) = m_config (fst s)
  /\ m_usedConnections (fst (fold_left cleanupThread l s)) = m_usedConnections (fst s)
  /\ m_connectionCounter (fst (fold_left cleanupThread l s)) = m_connectionCounter (fst s)
  /\ m_connOwner (fst (fold_left cleanupThread l s)) = m_connOwner (fst s).
Proof.
  revert s. induction l as [|tid l IH]; intros s; [auto|].
  simpl. destruct (IH (cleanupThread s tid)) as (H1 & H2 & H3 & H4).
  rewrite H1, H2, H3, H4. destruct s as [p w]. auto.
Qed.

(** The sweep deletes the same keys from three maps; one script proves for
    each what a lookup sees afterwards. *)
Ltac fold_delete_lookup l s k :=
  revert s; induction l as [|tid l IH]; intros s;
  [ simpl; destruct (decide (k ∈ [])) as [Hin|]; [inversion Hin|reflexivity]
  | simpl; rewrite IH; destruct s as [p w]; simpl;
    destruct (decide (k ∈ l)) as [Hl|Hl];
    [ rewrite decide_True by (right; exact Hl); reflexivity
    | destruct (decide (tid = k)) as [->|Hne];
      [ rewrite lookup_delete_eq, decide_True by left; reflexivity
      | rewrite lookup_delete_ne by exact Hne;
        rewrite decide_False; [reflexivity|];
        intros Hin; apply elem_of_cons in Hin as [->|]; congruence ] ] ].

Lemma cleanupThread_fold_refs l s k :
  m_threadRefs (fst (fold_left cleanupThread l s)) !! k
  = if decide (k ∈ l) then None else m_threadRefs (fst s) !! k.
Proof. fold_delete_lookup l s k. Qed.

Lemma cleanupThread_fold_available l s k :
  m_availableByThread (fst (fold_left cleanupThread l s)) !! k
  = if decide (k ∈ l) then None else m_availableByThread (fst s) !! k.
Proof. fold_delete_lookup l s k. Qed.

Lemma cleanupThread_fold_activeTx l s k :
  m_activeTxByThread (fst (fold_left cleanupThread l s)) !! k
  = if decide (k ∈ l) then None else m_activeTxByThread (fst s) !! k.
Proof. fold_delete_lookup l s k. Qed.

Lemma cleanupThread_fold_queueSum l s :
  queueSum (m_availableByThread (fst (fold_left cleanupThread l s)))
  <= queueSum (m_availableByThread (fst s)).
Proof.
  revert s. induction l as [|tid l IH]; intros s; [simpl; lia|].
  simpl. etransitivity; [apply IH|]. destruct s as [p w]. simpl.
  apply queueSum_delete_le.
Qed.

Ltac by_staleness s k :=
  destruct (decide (k ∈ staleThreads (fst s))) as [Hin|Hout];
  [ apply staleThreads_spec in Hin; rewrite Hin; reflexivity
  | destruct (m_threadRefs (fst s) !! k) as [[|]|] eqn:Hk; try reflexivity;
    exfalso; apply Hout, staleThreads_spec, Hk ].

(** What the sweep leaves of the three per-thread maps: exactly the entries
    of the threads whose reference has not expired. *)
Lemma cleanup_refs s k :
  m_threadRefs (fst (cleanupFinishedThreads s)) !! k
  = match m_threadRefs (fst s) !! k with
    | Some RefNull => None
    | r => r
    end.
Proof.
  unfold cleanupFinishedThreads. rewrite cleanupThread_fold_refs.
  by_staleness s k.
Qed.

Lemma cleanup_available s k :
  m_availableByThread (fst (cleanupFinishedThreads s)) !! k
  = match m_threadRefs (fst s) !! k with
    | Some RefNull => None
    | _ => m_availableByThread (fst s) !! k
    end.
Proof.
  unfold cleanupFinishedThreads. rewrite cleanupThread_fold_available.
  by_staleness s k.
Qed.

Lemma cleanup_activeTx s k :
  m_activeTxByThread (fst (cleanupFinishedThreads s)) !! k
  = match m_threadRefs (fst s) !! k with
    | Some RefNull => None
    | _ => m_activeTxByThread (fst s) !! k
    end.
Proof.
  unfold cleanupFinishedThreads. rewrite cleanupThread_fold_activeTx.
  by_staleness s k.
Qed.

Lemma cleanup_frame s :
  m_config (fst (cleanupFinishedThreads s)) = m_config (fst s)
  /\ m_usedConnections (fst (cleanupFinishedThreads s)) = m_usedConnections (fst s)
  /\ m_connectionCounter (fst (cleanupFinishedThreads s)) = m_connectionCounter (fst s)
  /\ m_connOwner (fst (cleanupFinishedThreads s)) = m_connOwner (fst s).
Proof. apply cleanupThread_fold_frame. Qed.

Lemma cleanup_noStale s : noStaleThread (fst (cleanupFinishedThreads s)).
Proof.
  intros tid. rewrite cleanup_refs.
  destruct (m_threadRefs (fst s) !! tid) as [[|]|]; discriminate.
Qed.

(** With no expired reference the sweep has nothing to do. *)
Lemma cleanup_id s : noStaleThread (fst s) -> cleanupFinishedThreads s = s.
Proof.
  intros Hno. unfold cleanupFinishedThreads.
  rewrite staleThreads_nil by exact Hno. reflexivity.
Qed.

Lemma cleanup_idempotent s :
  cleanupFinishedThreads (cleanupFinishedThreads s) = cleanupFinishedThreads s.
Proof. apply cleanup_id, cleanup_noStale. Qed.

Lemma cleanup_withinCap s :
  withinCap (fst s) -> withinCap (fst (cleanupFinishedThreads s)).
Proof.
  unfold withinCap, usedCount, availableCount. intros H.
  destruct (cleanup_frame s) as (-> & -> & _ & _).
  pose proof (cleanupThread_fold_queueSum (staleThreads (fst s)) s) as Hle.
  unfold cleanupFinishedThreads. lia.
Qed.

(** ** The cap is kept by every operation *)

Lemma queueOf_subscript tid a : queueOf tid (subscript tid a) = queueOf tid a.
Proof. unfold subscript, queueOf at 1. rewrite lookup_insert_eq. reflexivity. Qed.

(** Moving a checked-out name to the back of a queue keeps the count. *)
Lemma requeue_counts p k name :
  name ∈ m_usedConnections p ->
  let p' := set_available
              (<[k := queueOf k (m_availableByThread p) ++ [name]]>
                 (m_availableByThread p))
              (set_used (m_usedConnections p ∖ {[name]}) p) in
  usedCount p' + availableCount p' = usedCount p + availableCount p.
Proof.
  intros Hin. unfold usedCount, availableCount. simpl.
  rewrite queueSum_replace, length_app. simpl.
  rewrite (size_remove name (m_usedConnections p) Hin). lia.
Qed.

Section CapInvariant.

Context (env : Native).

Lemma createConnection_frame tid s :
  let r := createConnectionInCurrentThread env tid s in
  m_config (fst (snd r)) = m_config (fst s)
  /\ m_usedConnections (fst (snd r)) = m_usedConnections (fst s)
  /\ m_availableByThread (fst (snd r)) = m_availableByThread (fst s)
  /\ m_activeTxByThread (fst (snd r)) = m_activeTxByThread (fst s)
  /\ m_threadRefs (fst (snd r)) = m_threadRefs (fst s)
  /\ m_connOwner (fst (snd r)) = m_connOwner (fst s).
Proof.
  destruct s as [p w]. unfold createConnectionInCurrentThread. simpl.
  destruct (nat_open env _ _); simpl; auto 10.
Qed.

Lemma takeOrCreate_config tid s :
  m_config (fst (snd (takeOrCreate env tid s))) = m_config (fst s).
Proof.
  destruct s as [p w]. unfold takeOrCreate. simpl.
  rewrite queueOf_subscript.
  destruct (queueOf tid (m_availableByThread p)) as [|name rest]; [|reflexivity].
  case_bool_decide; [reflexivity|].
  match goal with |- context [createConnectionInCurrentThread env tid ?s0] =>
    pose proof (createConnection_frame tid s0) as (Hc & _);
    destruct (createConnectionInCurrentThread env tid s0) as [name [p' w']]
  end.
  simpl in *. case_bool_decide; simpl; exact Hc.
Qed.

Lemma takeOrCreate_withinCap tid s :
  withinCap (fst s) -> withinCap (fst (snd (takeOrCreate env tid s))).
Proof.
  destruct s as [p w]. unfold withinCap. intros Hcap.
  rewrite takeOrCreate_config. revert Hcap.
  unfold takeOrCreate. simpl. rewrite queueOf_subscript. intros Hcap.
  destruct (queueOf tid (m_availableByThread p)) as [|name rest] eqn:Hq.
  - case_bool_decide as Hfull.
    + unfold usedCount, availableCount in *. simpl.
      rewrite queueSum_subscript. exact Hcap.
    + match goal with |- context [createConnectionInCurrentThread env tid ?s0] =>
        pose proof (createConnection_frame tid s0) as (_ & Hu & Ha & _);
        destruct (createConnectionInCurrentThread env tid s0) as [name [p' w']]
      end.
      rewrite total_split in Hfull.
      unfold usedCount, availableCount in *. simpl in *.
      rewrite queueSum_subscript in Hfull.
      case_bool_decide; simpl; rewrite ?Hu, Ha, queueSum_subscript.
      * lia.
      * pose proof (size_insert_le name (m_usedConnections p)). lia.
  - unfold usedCount, availableCount in *. simpl.
    rewrite queueSum_replace, queueOf_subscript, Hq, queueSum_subscript. simpl.
    pose proof (size_insert_le name (m_usedConnections p)). lia.
Qed.

(** A name obtained by [takeOrCreate] is in the in-use set. *)
Lemma takeOrCreate_used tid s :
  fst (takeOrCreate env tid s) <> "" ->
  fst (takeOrCreate env tid s) ∈ m_usedConnections (fst (snd (takeOrCreate env tid s))).
Proof.
  destruct s as [p w]. unfold takeOrCreate. simpl. rewrite queueOf_subscript.
  destruct (queueOf tid (m_availableByThread p)) as [|name rest].
  - case_bool_decide; [simpl; congruence|].
    destruct (createConnectionInCurrentThread env tid _) as [name [p' w']].
    case_bool_decide; simpl; [congruence|]. intros _.
    apply elem_of_union_l, elem_of_singleton. reflexivity.
  - simpl. intros _. apply elem_of_union_l, elem_of_singleton. reflexivity.
Qed.


Lemma releaseConnection_withinCap tid name s :
  withinCap (fst s) -> withinCap (fst (releaseConnection tid name s)).
Proof.
  intros Hcap. apply cleanup_withinCap in Hcap. unfold releaseConnection.
  destruct (cleanupFinishedThreads s) as [p w]. simpl in *.
  case_bool_decide as Hin; [|exact Hcap].
  case_bool_decide; [exact Hcap|].
  unfold withinCap in *. simpl fst.
  rewrite requeue_counts by exact Hin. exact Hcap.
Qed.

Lemma forceCloseIdleConnections_withinCap s :
  withinCap (fst s) -> withinCap (fst (snd (forceCloseIdleConnections s))).
Proof.
  destruct s as [p w]. unfold withinCap, usedCount, availableCount. simpl.
  rewrite queueSum_clear. pose proof (queueSum_nonneg (m_availableByThread p)). lia.
Qed.

Lemma beginThreadTransaction_withinCap tid s :
  withinCap (fst s) -> withinCap (fst (snd (beginThreadTransaction env tid s))).
Proof.
  intros Hcap. rewrite beginThreadTransaction_unfold.
  destruct (m_activeTxByThread (fst s) !! tid); [exact Hcap|].
  pose proof (takeOrCreate_withinCap tid s Hcap) as Hcap'.
  pose proof (takeOrCreate_used tid s) as Hused.
  destruct (takeOrCreate env tid s) as [name [p w]]. simpl in *.
  case_bool_decide as Hname; [exact Hcap'|].
  destruct (nativeBegin env name w) as [[|] w']; simpl; [exact Hcap'|].
  unfold withinCap in *. rewrite requeue_counts by (apply Hused, Hname). exact Hcap'.
Qed.

Lemma commitThreadTransaction_withinCap tid s :
  withinCap (fst s) -> withinCap (fst (snd (commitThreadTransaction env tid s))).
Proof.
  destruct s as [p w]. intros Hcap. unfold commitThreadTransaction.
  case_bool_decide; [exact Hcap|]. simpl snd.
  apply releaseConnection_withinCap. exact Hcap.
Qed.

Lemma rollbackThreadTransaction_withinCap tid s :
  withinCap (fst s) -> withinCap (fst (snd (rollbackThreadTransaction env tid s))).
Proof.
  destruct s as [p w]. intros Hcap. unfold rollbackThreadTransaction.
  case_bool_decide; [exact Hcap|]. simpl snd.
  apply releaseConnection_withinCap. exact Hcap.
Qed.


Lemma releaseConnection_frame tid name s :
  m_config (fst (releaseConnection tid name s)) = m_config (fst s)
  /\ m_activeTxByThread (fst (releaseConnection tid name s))
     = m_activeTxByThread (fst (cleanupFinishedThreads s))
  /\ m_threadRefs (fst (releaseConnection tid name s))
     = m_threadRefs (fst (cleanupFinishedThreads s)).
Proof.
  destruct (cleanup_frame s) as (Hc & _). unfold releaseConnection.
  destruct (cleanupFinishedThreads s) as [p w]. simpl in *.
  repeat case_bool_decide; simpl; auto.
Qed.

Lemma takeOrCreate_frame tid s :
  m_activeTxByThread (fst (snd (takeOrCreate env tid s))) = m_activeTxByThread (fst s)
  /\ m_threadRefs (fst (snd (takeOrCreate env tid s))) = m_threadRefs (fst s).
Proof.
  destruct s as [p w]. unfold takeOrCreate. simpl.
  rewrite queueOf_subscript.
  destruct (queueOf tid (m_availableByThread p)) as [|name rest]; [|auto].
  case_bool_decide; [auto|].
  match goal with |- context [createConnectionInCurrentThread env tid ?s0] =>
    pose proof (createConnection_frame tid s0) as (_ & _ & _ & Ht & Hr & _);
    destruct (createConnectionInCurrentThread env tid s0) as [name [p' w']]
  end.
  simpl in *. case_bool_decide; simpl; auto.
Qed.

Lemma step_config o s : m_config (fst (step env s o)) = m_config (fst s).
Proof.
  destruct o as [tid|tid name|tid|tid|tid| |tid]; simpl.
  - unfold acquireConnection. destruct (cleanup_frame s) as (Hc & _).
    destruct (cleanupFinishedThreads s) as [p w]. simpl in *.
    destruct (m_activeTxByThread p !! tid); [exact Hc|].
    rewrite takeOrCreate_config. exact Hc.
  - apply releaseConnection_frame.
  - rewrite beginThreadTransaction_unfold.
    destruct (m_activeTxByThread (fst s) !! tid); [reflexivity|].
    pose proof (takeOrCreate_config tid s) as Hc.
    destruct (takeOrCreate env tid s) as [name [p w]]. simpl in *.
    case_bool_decide; [exact Hc|].
    destruct (nativeBegin env name w) as [[|] w']; exact Hc.
  - destruct s as [p w]. unfold commitThreadTransaction.
    case_bool_decide; [reflexivity|]. simpl snd.
    rewrite (proj1 (releaseConnection_frame _ _ _)). reflexivity.
  - destruct s as [p w]. unfold rollbackThreadTransaction.
    case_bool_decide; [reflexivity|]. simpl snd.
    rewrite (proj1 (releaseConnection_frame _ _ _)). reflexivity.
  - destruct s as [p w]. reflexivity.
  - unfold threadFinished. destruct (m_threadRefs (fst s) !! tid) as [[|]|]; reflexivity.
Qed.




End CapInvariant.

(** ** Names in reachable states *)

Lemma queueOf_elem tid (a : gmap string (list string)) n :
  n ∈ queueOf tid a -> exists q, a !! tid = Some q /\ n ∈ q.
Proof.
  unfold queueOf. destruct (a !! tid) as [q|]; simpl.
  - intros Hin. exists q. auto.
  - intros Hin. inversion Hin.
Qed.

Lemma subscript_elem tid (a : gmap string (list string)) t q n :
  subscript tid a !! t = Some q -> n ∈ q -> exists q', a !! t = Some q' /\ n ∈ q'.
Proof.
  unfold subscript. destruct (decide (tid = t)) as [->|Hne].
  - rewrite lookup_insert_eq. intros [= <-]. apply queueOf_elem.
  - rewrite lookup_insert_ne by exact Hne. intros Hq Hin. exists q. auto.
Qed.

Lemma requeue_namesNonEmpty p k name :
  namesNonEmpty p -> name <> "" ->
  namesNonEmpty
    (set_available
       (<[k := queueOf k (m_availableByThread p) ++ [name]]> (m_availableByThread p))
       (set_used (m_usedConnections p ∖ {[name]}) p)).
Proof.
  intros (Htx & Hu & Hq) Hname. split; [exact Htx|]. split; simpl.
  - intros n Hin. apply elem_of_difference in Hin as [Hin _]. apply Hu, Hin.
  - intros t q n. destruct (decide (k = t)) as [->|Hne].
    + rewrite lookup_insert_eq. intros [= <-] Hin.
      apply elem_of_app in Hin as [Hin|Hin].
      * apply queueOf_elem in Hin as (q' & Hq' & Hin). eapply Hq; eassumption.
      * apply list_elem_of_singleton in Hin. congruence.
    + rewrite lookup_insert_ne by exact Hne. apply Hq.
Qed.

Lemma cleanup_namesNonEmpty s :
  namesNonEmpty (fst s) -> namesNonEmpty (fst (cleanupFinishedThreads s)).
Proof.
  intros (Htx & Hu & Hq). split; [|split].
  - intros t n. rewrite cleanup_activeTx.
    destruct (m_threadRefs (fst s) !! t) as [[|]|]; try discriminate; apply Htx.
  - rewrite (proj1 (proj2 (cleanup_frame s))). exact Hu.
  - intros t q n. rewrite cleanup_available.
    destruct (m_threadRefs (fst s) !! t) as [[|]|]; try discriminate; apply Hq.
Qed.

Section NamesInvariant.

Context (env : Native).

Lemma takeOrCreate_namesNonEmpty tid s :
  namesNonEmpty (fst s) -> namesNonEmpty (fst (snd (takeOrCreate env tid s))).
Proof.
  destruct s as [p w]. intros (Htx & Hu & Hq). unfold takeOrCreate. simpl.
  rewrite queueOf_subscript.
  destruct (queueOf tid (m_availableByThread p)) as [|name rest] eqn:Hqueue.
  - assert (Hsub : namesNonEmpty
                     (set_available (subscript tid (m_availableByThread p)) p)).
    { split; [exact Htx|]. split; [exact Hu|]. simpl. intros t q n Hl Hin.
      destruct (subscript_elem _ _ _ _ _ Hl Hin) as (q' & Hq' & Hin').
      eapply Hq; eassumption. }
    case_bool_decide; [exact Hsub|].
    match goal with |- context [createConnectionInCurrentThread env tid ?s0] =>
      pose proof (createConnection_frame env tid s0) as (_ & Hcu & Hca & Hct & _);
      destruct (createConnectionInCurrentThread env tid s0) as [name [p' w']]
    end.
    simpl in Hcu, Hca, Hct. destruct Hsub as (Htx' & Hu' & Hq').
    case_bool_decide as Hname; simpl.
    + split; [rewrite Hct; exact Htx|]. split; [rewrite Hcu; exact Hu|].
      rewrite Hca. exact Hq'.
    + unfold namesNonEmpty. simpl. rewrite Hct, Hcu, Hca.
      split; [exact Htx|]. split; [|exact Hq'].
      intros n Hin.
      apply elem_of_union in Hin as [Hin|Hin]; [|apply Hu, Hin].
      apply elem_of_singleton in Hin. congruence.
  - assert (Hhead : forall n, n ∈ name :: rest -> n <> "").
    { intros n Hin. rewrite <- Hqueue in Hin.
      apply queueOf_elem in Hin as (q & Hl & Hin). eapply Hq; eassumption. }
    split; [exact Htx|]. split; simpl.
    + intros n Hin. apply elem_of_union in Hin as [Hin|Hin]; [|apply Hu, Hin].
      apply elem_of_singleton in Hin. subst n. apply Hhead. left.
    + intros t q n. destruct (decide (tid = t)) as [->|Hne].
      * rewrite lookup_insert_eq. intros [= <-] Hin. apply Hhead. right. exact Hin.
      * rewrite lookup_insert_ne by exact Hne. intros Hl Hin.
        destruct (subscript_elem _ _ _ _ _ Hl Hin) as (q' & Hq' & Hin').
        eapply Hq; eassumption.
Qed.

Lemma releaseConnection_namesNonEmpty tid name s :
  namesNonEmpty (fst s) -> namesNonEmpty (fst (releaseConnection tid name s)).
Proof.
  intros H. apply cleanup_namesNonEmpty in H. unfold releaseConnection.
  destruct (cleanupFinishedThreads s) as [p w]. simpl in *.
  case_bool_decide as Hin; [|exact H].
  case_bool_decide; [exact H|].
  apply requeue_namesNonEmpty; [exact H|]. apply H, Hin.
Qed.

Lemma step_namesNonEmpty o s :
  namesNonEmpty (fst s) -> namesNonEmpty (fst (step env s o)).
Proof.
  destruct o as [tid|tid name|tid|tid|tid| |tid]; simpl; intros H.
  - apply cleanup_namesNonEmpty in H. unfold acquireConnection.
    destruct (cleanupFinishedThreads s) as [p w]. simpl in *.
    destruct (m_activeTxByThread p !! tid); [exact H|].
    apply takeOrCreate_namesNonEmpty. exact H.
  - apply releaseConnection_namesNonEmpty, H.
  - rewrite beginThreadTransaction_unfold.
    destruct (m_activeTxByThread (fst s) !! tid); [exact H|].
    pose proof (takeOrCreate_namesNonEmpty tid s H) as H'.
    destruct (takeOrCreate env tid s) as [name [p w]]. simpl in H'.
    case_bool_decide as Hname; [exact H'|].
    destruct (nativeBegin env name w) as [[|] w']; simpl.
    + destruct H' as (Htx & Hu & Hq). split; [|split; assumption].
      simpl. intros t n. destruct (decide (tid = t)) as [->|Hne].
      * rewrite lookup_insert_eq. congruence.
      * rewrite lookup_insert_ne by exact Hne. apply Htx.
    + apply requeue_namesNonEmpty; assumption.
  - destruct s as [p w]. unfold commitThreadTransaction.
    assert (H' : namesNonEmpty (set_activeTx (delete tid (m_activeTxByThread p)) p)).
    { destruct H as (Htx & Hu & Hq). split; [|split; assumption].
      simpl. intros t n Hl. apply lookup_delete_Some in Hl as [_ Hl].
      eapply Htx, Hl. }
    case_bool_decide; [exact H'|]. simpl snd.
    apply releaseConnection_namesNonEmpty, H'.
  - destruct s as [p w]. unfold rollbackThreadTransaction.
    assert (H' : namesNonEmpty (set_activeTx (delete tid (m_activeTxByThread p)) p)).
    { destruct H as (Htx & Hu & Hq). split; [|split; assumption].
      simpl. intros t n Hl. apply lookup_delete_Some in Hl as [_ Hl].
      eapply Htx, Hl. }
    case_bool_decide; [exact H'|]. simpl snd.
    apply releaseConnection_namesNonEmpty, H'.
  - destruct s as [p w]. destruct H as (Htx & Hu & Hq).
    split; [exact Htx|]. split; [exact Hu|]. simpl. intros t q n Hl Hin.
    rewrite lookup_fmap in Hl. destruct (m_availableByThread p !! t); [|discriminate].
    simpl in Hl. injection Hl as <-. inversion Hin.
  - unfold threadFinished. destruct (m_threadRefs (fst s) !! tid) as [[|]|]; exact H.
Qed.

Lemma run_namesNonEmpty ops s :
  namesNonEmpty (fst s) -> namesNonEmpty (fst (run env ops s)).
Proof.
  revert s. induction ops as [|o ops IH]; intros s H; [exact H|].
  simpl. apply IH, step_namesNonEmpty, H.
Qed.

(** In every state the pool can reach, bindings, in-use entries and queued
    entries are non-empty names. *)
Lemma reachable_namesNonEmpty s : reachable env s -> namesNonEmpty (fst s).
Proof.
  intros (config & ops & _ & ->). apply run_namesNonEmpty.
  unfold namesNonEmpty.
  cbn [fst newPool m_activeTxByThread m_usedConnections m_availableByThread].
  split; [|split].
  - intros t n Hl. rewrite lookup_empty in Hl. discriminate.
  - intros n Hin. apply not_elem_of_empty in Hin. contradiction.
  - intros t q n Hl. rewrite lookup_empty in Hl. discriminate.
Qed.

End NamesInvariant.

(** ** Connection names are never reused *)

Lemma noChar_app_char c s1 s2 : ~ noChar c (s1 +:+ String c s2).
Proof.
  induction s1 as [|a s1 IH]; simpl.
  - intros [Hne _]. apply Hne. reflexivity.
  - intros [_ H]. apply IH, H.
Qed.

Lemma suffix_after_separator c t t' u u' :
  noChar c u -> noChar c u' ->
  t +:+ String c u = t' +:+ String c u' -> u = u'.
Proof.
  intros Hu Hu'. revert t'. induction t as [|a t IH]; intros [|a' t']; simpl.
  - intros [= ->]. reflexivity.
  - intros [= <- ->]. exfalso. apply (noChar_app_char _ _ _ Hu).
  - intros [= -> <-]. exfalso. apply (noChar_app_char _ _ _ Hu').
  - intros [= _ H]. apply (IH _ H).
Qed.

Lemma noChar_pretty_N_go x s :
  noChar "_" s -> noChar "_" (pretty_N_go x s).
Proof.
  revert s. induction (N.lt_wf_0 x) as [x _ IH]; intros s Hs.
  assert (x = 0 \/ 0 < x)%N as [->|Hpos] by lia.
  - rewrite pretty_N_go_0. exact Hs.
  - rewrite pretty_N_go_step by exact Hpos. apply IH.
    + apply N.div_lt; [exact Hpos|reflexivity].
    + simpl. split; [|exact Hs].
      unfold pretty_N_char. repeat case_match; discriminate.
Qed.

Lemma noChar_pretty_Z (z : Z) : noChar "_" (pretty z).
Proof.
  assert (HN : forall x : N, noChar "_" (pretty x)).
  { intros x. unfold pretty, pretty_N. case_decide.
    - simpl. split; [discriminate|exact I].
    - apply noChar_pretty_N_go. exact I. }
  destruct z as [|x|x]; unfold pretty, pretty_Z.
  - simpl. split; [discriminate|exact I].
  - apply HN.
  - simpl. split; [discriminate|]. apply HN.
Qed.

Lemma connectionNameOf_counter config t t' c c' :
  connectionNameOf config t c = connectionNameOf config t' c' -> c = c'.
Proof.
  unfold connectionNameOf. intros H.
  apply (inj (String.app (connectionName config))) in H.
  simpl in H. injection H as H.
  apply suffix_after_separator in H; try apply noChar_pretty_Z.
  apply (inj pretty), H.
Qed.

(** ** Ownership in reachable states *)

Lemma wrap32_small z : - 2 ^ 31 <= z < 2 ^ 31 -> wrap32 z = z.
Proof. intros Hz. unfold wrap32. rewrite Z.mod_small by lia. lia. Qed.

Lemma subscript_consistent p tid :
  consistent p -> consistent (set_available (subscript tid (m_availableByThread p)) p).
Proof.
  intros (Hc & Ho & Hu & Hq & Htx). split; [exact Hc|]. split; [exact Ho|].
  split; [exact Hu|]. split; [|exact Htx]. simpl. intros t q.
  unfold subscript, queueOf. destruct (decide (tid = t)) as [->|Hne].
  - rewrite lookup_insert_eq. intros [= <-].
    destruct (m_availableByThread p !! t) as [q|] eqn:Hl; simpl.
    + apply Hq, Hl.
    + split; [constructor|]. intros n Hin. inversion Hin.
  - rewrite lookup_insert_ne by exact Hne. apply Hq.
Qed.

Lemma set_counter_consistent p c :
  consistent p -> m_connectionCounter p <= c -> consistent (set_counter c p).
Proof.
  intros (Hc & Ho & Hu & Hq & Htx) Hle. split; [simpl; lia|].
  split; [|auto]. simpl. intros n t Hl.
  destruct (Ho n t Hl) as (k & Hn & Hk). exists k. split; [exact Hn|lia].
Qed.

(** Taking the head of a queue into the in-use set. *)
Lemma pop_consistent p tid name rest :
  consistent p ->
  m_availableByThread p !! tid = Some (name :: rest) ->
  consistent (set_used ({[name]} ∪ m_usedConnections p)
                (set_available (<[tid := rest]> (m_availableByThread p)) p)).
Proof.
  intros (Hc & Ho & Hu & Hq & Htx) Hl.
  destruct (Hq tid _ Hl) as [Hnd Hqueue].
  apply NoDup_cons in Hnd as [Hhead Hnd].
  destruct (Hqueue name ltac:(left)) as [Hown _].
  split; [exact Hc|]. split; [exact Ho|]. split; [|split]; simpl.
  - intros n Hin. apply elem_of_union in Hin as [Hin|Hin]; [|apply Hu, Hin].
    apply elem_of_singleton in Hin. subst n. rewrite Hown. eauto.
  - intros t q. destruct (decide (tid = t)) as [->|Hne].
    + rewrite lookup_insert_eq. intros [= <-]. split; [exact Hnd|].
      intros n Hin. destruct (Hqueue n ltac:(right; exact Hin)) as [Hn Hout].
      split; [exact Hn|]. intros Hin'.
      apply elem_of_union in Hin' as [Hin'|Hin']; [|contradiction].
      apply elem_of_singleton in Hin'. subst n. contradiction.
    + rewrite lookup_insert_ne by exact Hne. intros Hl'.
      destruct (Hq t q Hl') as [Hnd' Hqueue']. split; [exact Hnd'|].
      intros n Hin. destruct (Hqueue' n Hin) as [Hn Hout].
      split; [exact Hn|]. intros Hin'.
      apply elem_of_union in Hin' as [Hin'|Hin']; [|contradiction].
      apply elem_of_singleton in Hin'. subst n. congruence.
  - intros t n Hb. destruct (Htx t n Hb) as [Hn Hin]. split; [exact Hn|].
    apply elem_of_union_r, Hin.
Qed.

(** Putting a newly created connection into the in-use set. *)
Lemma adopt_consistent p tid name :
  consistent p ->
  name = connectionNameOf (m_config p) tid (m_connectionCounter p) ->
  1 <= m_connectionCounter p ->
  (forall n t, m_connOwner p !! n = Some t ->
     exists c, n = connectionNameOf (m_config p) t c
               /\ 1 <= c < m_connectionCounter p) ->
  consistent (set_used ({[name]} ∪ m_usedConnections p)
                (set_owner (<[name := tid]> (m_connOwner p)) p)).
Proof.
  intros (Hc & Ho & Hu & Hq & Htx) Hname Hpos Hold.
  assert (Hfresh : m_connOwner p !! name = None).
  { destruct (m_connOwner p !! name) as [t|] eqn:Hl; [|reflexivity].
    destruct (Hold name t Hl) as (c & Hn & Hk). rewrite Hname in Hn.
    apply connectionNameOf_counter in Hn. lia. }
  assert (Hother : forall n t, m_connOwner p !! n = Some t -> n <> name).
  { intros n t Hl ->. congruence. }
  split; [exact Hc|]. split; [|split; [|split]]; simpl.
  - intros n t. destruct (decide (name = n)) as [<-|Hne].
    + rewrite lookup_insert_eq. intros [= <-].
      exists (m_connectionCounter p). split; [exact Hname|lia].
    + rewrite lookup_insert_ne by exact Hne. apply Ho.
  - intros n Hin. destruct (decide (name = n)) as [<-|Hne].
    + rewrite lookup_insert_eq. eauto.
    + rewrite lookup_insert_ne by exact Hne.
      apply elem_of_union in Hin as [Hin|Hin]; [|apply Hu, Hin].
      apply elem_of_singleton in Hin. congruence.
  - intros t q Hl. destruct (Hq t q Hl) as [Hnd Hqueue]. split; [exact Hnd|].
    intros n Hin. destruct (Hqueue n Hin) as [Hn Hout].
    pose proof (Hother n t Hn) as Hne.
    rewrite lookup_insert_ne by congruence. split; [exact Hn|].
    intros Hin'. apply elem_of_union in Hin' as [Hin'|Hin']; [|contradiction].
    apply elem_of_singleton in Hin'. contradiction.
  - intros t n Hb. destruct (Htx t n Hb) as [Hn Hin].
    pose proof (Hother n t Hn) as Hne.
    rewrite lookup_insert_ne by congruence. split; [exact Hn|].
    apply elem_of_union_r, Hin.
Qed.

(** Returning a checked-out connection that nobody is bound to to the back
    of its owner's queue. *)
Lemma requeue_consistent p o name :
  consistent p ->
  name ∈ m_usedConnections p ->
  m_connOwner p !! name = Some o ->
  (forall t, m_activeTxByThread p !! t <> Some name) ->
  consistent
    (set_available
       (<[o := queueOf o (m_availableByThread p) ++ [name]]> (m_availableByThread p))
       (set_used (m_usedConnections p ∖ {[name]}) p)).
Proof.
  intros (Hc & Ho & Hu & Hq & Htx) Hin Hown Hfree.
  split; [exact Hc|]. split; [exact Ho|]. split; [|split]; simpl.
  - intros n Hn. apply elem_of_difference in Hn as [Hn _]. apply Hu, Hn.
  - intros t q. destruct (decide (o = t)) as [->|Hne].
    + rewrite lookup_insert_eq. intros [= <-].
      assert (Hold : NoDup (queueOf t (m_availableByThread p))
                     /\ forall n, n ∈ queueOf t (m_availableByThread p) ->
                          m_connOwner p !! n = Some t /\ n ∉ m_usedConnections p).
      { unfold queueOf. destruct (m_availableByThread p !! t) as [q|] eqn:Hl; simpl.
        - apply Hq, Hl.
        - split; [constructor|]. intros n Hn. inversion Hn. }
      destruct Hold as [Hnd Hqueue]. split.
      * apply NoDup_app. split; [exact Hnd|]. split; [|apply NoDup_singleton].
        intros n Hn Hn'. apply list_elem_of_singleton in Hn'. subst n.
        apply (Hqueue name Hn), Hin.
      * intros n Hn. apply elem_of_app in Hn as [Hn|Hn].
        -- destruct (Hqueue n Hn) as [Hnown Hout]. split; [exact Hnown|].
           intros Hn'. apply elem_of_difference in Hn' as [Hn' _]. contradiction.
        -- apply list_elem_of_singleton in Hn. subst n. split; [exact Hown|].
           intros Hn'. apply elem_of_difference in Hn' as [_ Hn'].
           apply Hn', elem_of_singleton. reflexivity.
    + rewrite lookup_insert_ne by exact Hne. intros Hl.
      destruct (Hq t q Hl) as [Hnd Hqueue]. split; [exact Hnd|].
      intros n Hn. destruct (Hqueue n Hn) as [Hnown Hout]. split; [exact Hnown|].
      intros Hn'. apply elem_of_difference in Hn' as [Hn' _]. contradiction.
  - intros t n Hb. destruct (Htx t n Hb) as [Hn Hnin]. split; [exact Hn|].
    apply elem_of_difference. split; [exact Hnin|].
    intros Heq. apply elem_of_singleton in Heq. subst n. apply (Hfree t Hb).
Qed.

Lemma cleanup_consistent s :
  consistent (fst s) -> consistent (fst (cleanupFinishedThreads s)).
Proof.
  intros (Hc & Ho & Hu & Hq & Htx).
  destruct (cleanup_frame s) as (Hcfg & Hused & Hcnt & Hown).
  unfold consistent. rewrite Hcfg, Hused, Hcnt, Hown.
  split; [exact Hc|]. split; [exact Ho|]. split; [exact Hu|]. split.
  - intros t q. rewrite cleanup_available.
    destruct (m_threadRefs (fst s) !! t) as [[|]|]; try discriminate; apply Hq.
  - intros t n. rewrite cleanup_activeTx.
    destruct (m_threadRefs (fst s) !! t) as [[|]|]; try discriminate; apply Htx.
Qed.

Section Ownership.

Context (env : Native).

Lemma takeOrCreate_consistent tid s :
  consistent (fst s) ->
  m_connectionCounter (fst s) + 1 < 2 ^ 31 ->
  consistent (fst (snd (takeOrCreate env tid s)))
  /\ m_connectionCounter (fst s)
     <= m_connectionCounter (fst (snd (takeOrCreate env tid s)))
     <= m_connectionCounter (fst s) + 1
  /\ (fst (takeOrCreate env tid s) <> "" ->
      m_connOwner (fst (snd (takeOrCreate env tid s))) !! fst (takeOrCreate env tid s)
        = Some tid
      /\ fst (takeOrCreate env tid s)
           ∈ m_usedConnections (fst (snd (takeOrCreate env tid s)))).
Proof.
  destruct s as [p w]. simpl fst. intros Hcons Hbound.
  pose proof (subscript_consistent p tid Hcons) as Hsub.
  unfold takeOrCreate. simpl. rewrite queueOf_subscript.
  set (p1 := set_available (subscript tid (m_availableByThread p)) p) in *.
  destruct (queueOf tid (m_availableByThread p)) as [|name rest] eqn:Hqueue.
  - case_bool_decide.
    { simpl. split; [exact Hsub|]. split; [lia|congruence]. }
    unfold createConnectionInCurrentThread.
    assert (Hwrap : wrap32 (m_connectionCounter p1 + 1) = m_connectionCounter p + 1).
    { apply wrap32_small. destruct Hcons as (Hc & _). simpl. lia. }
    rewrite Hwrap.
    set (c := m_connectionCounter p + 1).
    assert (Hcount : consistent (set_counter c p1)).
    { apply set_counter_consistent; [exact Hsub|]. simpl. lia. }
    set (name := connectionNameOf (m_config p1) tid c).
    destruct (nat_open env _ _); cbn iota beta.
    + case_bool_decide as Hname; cbn [fst snd].
      * split; [exact Hcount|]. split; [simpl; lia|]. intros Hne. contradiction.
      * split.
        { apply (adopt_consistent (set_counter c p1) tid); try assumption.
          - reflexivity.
          - destruct Hcons as (Hc & _). simpl. lia.
          - intros n t Hl. destruct Hcons as (_ & Ho & _).
            destruct (Ho n t Hl) as (k & Hn & Hk). exists k.
            split; [exact Hn|]. simpl. lia. }
        split; [simpl; lia|]. intros _. simpl. split; [apply lookup_insert_eq|].
        apply elem_of_union_l, elem_of_singleton. reflexivity.
    + rewrite bool_decide_eq_true_2 by reflexivity. cbn [fst snd].
      split; [exact Hcount|]. split; [simpl; lia|]. congruence.
  - assert (Hl : m_availableByThread p1 !! tid = Some (name :: rest)).
    { simpl. unfold subscript. rewrite lookup_insert_eq, Hqueue. reflexivity. }
    pose proof (pop_consistent p1 tid name rest Hsub Hl) as Hpop.
    simpl. split; [exact Hpop|]. split; [lia|]. intros _.
    destruct Hsub as (_ & _ & _ & Hq & _).
    destruct (Hq tid _ Hl) as [_ Hmem]. destruct (Hmem name ltac:(left)) as [Hown _].
    split; [exact Hown|]. apply elem_of_union_l, elem_of_singleton. reflexivity.
Qed.

Lemma releaseConnection_consistent tid name s :
  consistent (fst s) -> consistent (fst (releaseConnection tid name s)).
Proof.
  intros H. apply cleanup_consistent in H. unfold releaseConnection.
  destruct (cleanupFinishedThreads s) as [p w]. simpl in *.
  case_bool_decide as Hin; [|exact H].
  case_bool_decide as Hbound; [exact H|].
  pose proof H as (_ & _ & Hu & _ & Htx).
  destruct (Hu name Hin) as [o Hown]. rewrite Hown in *. simpl in *.
  apply requeue_consistent; try assumption.
  intros t Hb. destruct (Htx t name Hb) as [Hown' _].
  assert (t = o) by congruence. subst t. rewrite Hb in Hbound.
  apply Hbound. reflexivity.
Qed.

Lemma releaseConnection_counter tid name s :
  m_connectionCounter (fst (releaseConnection tid name s))
  = m_connectionCounter (fst s).
Proof.
  destruct (cleanup_frame s) as (_ & _ & Hc & _). unfold releaseConnection.
  destruct (cleanupFinishedThreads s) as [p w]. simpl in *.
  repeat case_bool_decide; simpl; exact Hc.
Qed.

Lemma unbind_consistent p tid :
  consistent p -> consistent (set_activeTx (delete tid (m_activeTxByThread p)) p).
Proof.
  intros (Hc & Ho & Hu & Hq & Htx). split; [exact Hc|]. split; [exact Ho|].
  split; [exact Hu|]. split; [exact Hq|]. simpl. intros t n Hl.
  apply lookup_delete_Some in Hl as [_ Hl]. apply Htx, Hl.
Qed.

Lemma step_consistent o s :
  consistent (fst s) ->
  m_connectionCounter (fst s) + 1 < 2 ^ 31 ->
  consistent (fst (step env s o))
  /\ m_connectionCounter (fst s)
     <= m_connectionCounter (fst (step env s o))
     <= m_connectionCounter (fst s) + 1.
Proof.
  intros Hcons Hbound.
  destruct o as [tid|tid name|tid|tid|tid| |tid]; simpl.
  - apply cleanup_consistent in Hcons. unfold acquireConnection.
    destruct (cleanup_frame s) as (_ & _ & Hcnt & _).
    destruct (cleanupFinishedThreads s) as [p w]. simpl in *. rewrite <- Hcnt.
    destruct (m_activeTxByThread p !! tid); [split; [exact Hcons|simpl; lia]|].
    destruct (takeOrCreate_consistent tid
                (set_threadRefs (<[tid := RefLive]> (m_threadRefs p)) p, w))
      as (H1 & H2 & _); [exact Hcons|simpl; lia|]. auto.
  - rewrite releaseConnection_counter.
    split; [apply releaseConnection_consistent, Hcons|lia].
  - rewrite beginThreadTransaction_unfold.
    destruct (m_activeTxByThread (fst s) !! tid) eqn:Hfree;
      [split; [exact Hcons|simpl; lia]|].
    destruct (takeOrCreate_consistent tid s Hcons Hbound) as (H1 & H2 & H3).
    pose proof (takeOrCreate_frame env tid s) as [Hframe _].
    destruct (takeOrCreate env tid s) as [name [p w]]. simpl in *.
    case_bool_decide as Hname; [auto|].
    destruct (H3 Hname) as [Hown Hin].
    assert (Hnobody : forall t, m_activeTxByThread p !! t <> Some name).
    { intros t Hb. destruct H1 as (_ & _ & _ & _ & Htx).
      destruct (Htx t name Hb) as [Hown' _].
      assert (t = tid) by congruence. subst t. congruence. }
    destruct (nativeBegin env name w) as [[|] w']; simpl.
    + split; [|exact H2]. destruct H1 as (Hc & Ho & Hu & Hq & Htx).
      split; [exact Hc|]. split; [exact Ho|]. split; [exact Hu|].
      split; [exact Hq|]. simpl. intros t n.
      destruct (decide (tid = t)) as [->|Hne].
      * rewrite lookup_insert_eq. intros [= <-]. auto.
      * rewrite lookup_insert_ne by exact Hne. apply Htx.
    + split; [|exact H2]. apply requeue_consistent; assumption.
  - destruct s as [p w]. unfold commitThreadTransaction.
    pose proof (unbind_consistent p tid Hcons) as H'.
    case_bool_decide; simpl; [split; [exact H'|lia]|].
    rewrite releaseConnection_counter. simpl.
    split; [apply releaseConnection_consistent, H'|lia].
  - destruct s as [p w]. unfold rollbackThreadTransaction.
    pose proof (unbind_consistent p tid Hcons) as H'.
    case_bool_decide; simpl; [split; [exact H'|lia]|].
    rewrite releaseConnection_counter. simpl.
    split; [apply releaseConnection_consistent, H'|lia].
  - destruct s as [p w]. simpl in *. split; [|lia].
    destruct Hcons as (Hc & Ho & Hu & Hq & Htx).
    split; [exact Hc|]. split; [exact Ho|]. split; [exact Hu|].
    split; [|exact Htx]. simpl. intros t q Hl.
    rewrite lookup_fmap in Hl.
    destruct (m_availableByThread p !! t); [|discriminate].
    simpl in Hl. injection Hl as <-. split; [constructor|].
    intros n Hin. inversion Hin.
  - unfold threadFinished.
    destruct (m_threadRefs (fst s) !! tid) as [[|]|]; simpl; split; try lia; exact Hcons.
Qed.

Lemma run_consistent ops s :
  consistent (fst s) ->
  m_connectionCounter (fst s) + Z.of_nat (length ops) < 2 ^ 31 ->
  consistent (fst (run env ops s)).
Proof.
  revert s. induction ops as [|o ops IH]; intros s Hcons Hbound; [exact Hcons|].
  simpl length in Hbound.
  destruct (step_consistent o s Hcons ltac:(lia)) as [Hcons' Hcount].
  simpl. apply IH; [exact Hcons'|lia].
Qed.

End Ownership.

(** In every reachable state the maps of the pool hang together. *)
Lemma reachable_consistent (env : Native) s : reachable env s -> consistent (fst s).
Proof.
  intros (config & ops & Hlen & ->). apply run_consistent.
  - unfold consistent.
    cbn [fst newPool m_connectionCounter m_connOwner m_usedConnections
         m_availableByThread m_activeTxByThread].
    split; [lia|]. split; [|split; [|split]].
    + intros n t Hl. rewrite lookup_empty in Hl. discriminate.
    + intros n Hin. apply not_elem_of_empty in Hin. contradiction.
    + intros t q Hl. rewrite lookup_empty in Hl. discriminate.
    + intros t n Hl. rewrite lookup_empty in Hl. discriminate.
  - cbn [fst newPool m_connectionCounter]. lia.
Qed.




(** ** Transaction affinity *)

Section TransactionAffinity.

Context (env : Native) (tid name : string).

Lemma cleanup_holdsTransaction s :
  holdsTransaction tid name (fst s) ->
  holdsTransaction tid name (fst (cleanupFinishedThreads s)).
Proof.
  intros [Htx Href]. split.
  - rewrite cleanup_activeTx. destruct (m_threadRefs (fst s) !! tid) as [[|]|]; congruence.
  - apply cleanup_noStale.
Qed.

Lemma releaseConnection_holdsTransaction t n s :
  holdsTransaction tid name (fst s) ->
  holdsTransaction tid name (fst (releaseConnection t n s)).
Proof.
  intros H. apply cleanup_holdsTransaction in H.
  destruct (releaseConnection_frame t n s) as (_ & Ht & Hr).
  unfold holdsTransaction. rewrite Ht, Hr. exact H.
Qed.

Lemma step_holdsTransaction o s :
  endsTransaction tid o = false ->
  holdsTransaction tid name (fst s) ->
  holdsTransaction tid name (fst (step env s o)).
Proof.
  destruct o as [t|t n|t|t|t| |t]; simpl; intros Hends H.
  - apply cleanup_holdsTransaction in H. unfold acquireConnection.
    destruct (cleanupFinishedThreads s) as [p w]. simpl in H.
    assert (H' : holdsTransaction tid name
                   (set_threadRefs (<[t := RefLive]> (m_threadRefs p)) p)).
    { destruct H as [Htx Href]. split; [exact Htx|]. simpl.
      destruct (decide (t = tid)) as [->|Hne].
      - rewrite lookup_insert_eq. discriminate.
      - rewrite lookup_insert_ne by exact Hne. exact Href. }
    simpl. destruct (m_activeTxByThread p !! t); [exact H'|].
    destruct (takeOrCreate_frame env t
                (set_threadRefs (<[t := RefLive]> (m_threadRefs p)) p, w)) as [Ht Hr].
    unfold holdsTransaction. rewrite Ht, Hr. exact H'.
  - apply releaseConnection_holdsTransaction, H.
  - rewrite beginThreadTransaction_unfold.
    destruct (m_activeTxByThread (fst s) !! t) as [n|] eqn:Hb; [exact H|].
    assert (Hne : t <> tid) by (intros ->; destruct H; congruence).
    destruct (takeOrCreate_frame env t s) as [Ht Hr].
    destruct (takeOrCreate env t s) as [n [p w]]. simpl in *.
    assert (H' : holdsTransaction tid name p).
    { unfold holdsTransaction. rewrite Ht, Hr. exact H. }
    case_bool_decide; [exact H'|].
    destruct (nativeBegin env n w) as [[|] w']; simpl; [|exact H'].
    destruct H' as [Htx Href]. split; [|exact Href]. simpl.
    rewrite lookup_insert_ne by exact Hne. exact Htx.
  - apply bool_decide_eq_false in Hends.
    destruct s as [p w]. unfold commitThreadTransaction.
    assert (H' : holdsTransaction tid name
                   (set_activeTx (delete t (m_activeTxByThread p)) p)).
    { destruct H as [Htx Href]. split; [|exact Href]. simpl.
      rewrite lookup_delete_ne by exact Hends. exact Htx. }
    case_bool_decide; [exact H'|]. simpl snd.
    apply releaseConnection_holdsTransaction, H'.
  - apply bool_decide_eq_false in Hends.
    destruct s as [p w]. unfold rollbackThreadTransaction.
    assert (H' : holdsTransaction tid name
                   (set_activeTx (delete t (m_activeTxByThread p)) p)).
    { destruct H as [Htx Href]. split; [|exact Href]. simpl.
      rewrite lookup_delete_ne by exact Hends. exact Htx. }
    case_bool_decide; [exact H'|]. simpl snd.
    apply releaseConnection_holdsTransaction, H'.
  - destruct s as [p w]. exact H.
  - apply bool_decide_eq_false in Hends. unfold threadFinished.
    destruct (m_threadRefs (fst s) !! t) as [[|]|] eqn:Hrt; try exact H.
    destruct H as [Htx Href]. split; [exact Htx|]. simpl.
    rewrite lookup_insert_ne by exact Hends. exact Href.
Qed.

Lemma run_holdsTransaction ops s :
  existsb (endsTransaction tid) ops = false ->
  holdsTransaction tid name (fst s) ->
  holdsTransaction tid name (fst (run env ops s)).
Proof.
  revert s. induction ops as [|o ops IH]; intros s Hops H; [exact H|].
  simpl in Hops. apply orb_false_iff in Hops as [Ho Hops].
  simpl. apply IH; [exact Hops|]. apply step_holdsTransaction; assumption.
Qed.

(** A successful [beginThreadTransaction] leaves the caller bound to the
    name it returns. *)
Lemma beginThreadTransaction_binds s0 s :
  beginThreadTransaction env tid s0 = (name, s) ->
  name <> "" ->
  m_activeTxByThread (fst s) !! tid = Some name.
Proof.
  rewrite beginThreadTransaction_unfold.
  destruct (m_activeTxByThread (fst s0) !! tid) as [n|] eqn:Hb.
  - intros [= -> ->] _. exact Hb.
  - destruct (takeOrCreate env tid s0) as [n [p w]].
    case_bool_decide; [intros [= <- _]; congruence|].
    destruct (nativeBegin env n w) as [[|] w']; [|intros [= <- _]; congruence].
    intros [= -> <-] _. simpl. apply lookup_insert_eq.
Qed.

End TransactionAffinity.

(** C2, as the code has it.  Once thread [tid] has begun a transaction on
    [name], and for as long as it neither commits nor rolls back (and its
    thread object is not destroyed, its stored liveness reference not being
    an expired one), [beginThreadTransaction] returns [name] and changes
    nothing, and [acquireConnection] returns [name], leaves the in-use set
    as it is and changes the idle queues only by the sweep: the queues of
    threads whose reference has expired are dropped, every other queue is
    kept. *)
Theorem transaction_affinity
    (env : Native) (tid name : string) (s0 s : Pool * World) (ops : list Op) :
  beginThreadTransaction env tid s0 = (name, s) ->
  name <> "" ->
  m_threadRefs (fst s) !! tid <> Some RefNull ->
  existsb (endsTransaction tid) ops = false ->
  beginThreadTransaction env tid (run env ops s) = (name, run env ops s)
  /\ fst (acquireConnection env tid (run env ops s)) = name
  /\ m_usedConnections (fst (snd (acquireConnection env tid (run env ops s))))
     = m_usedConnections (fst (run env ops s))
  /\ (forall t,
        m_availableByThread (fst (snd (acquireConnection env tid (run env ops s)))) !! t
        = match m_threadRefs (fst (run env ops s)) !! t with
          | Some RefNull => None
          | _ => m_availableByThread (fst (run env ops s)) !! t
          end).
Proof.
  intros Hbegin Hname Href Hops.
  assert (H : holdsTransaction tid name (fst (run env ops s))).
  { apply run_holdsTransaction; [exact Hops|]. split; [|exact Href].
    eapply beginThreadTransaction_binds; eassumption. }
  set (s' := run env ops s) in *.
  split.
  { rewrite beginThreadTransaction_unfold. destruct H as [-> _]. reflexivity. }
  pose proof (cleanup_holdsTransaction tid name s' H) as [Htx _].
  destruct (cleanup_frame s') as (_ & Hu & _).
  pose proof (cleanup_available s') as Ha.
  unfold acquireConnection.
  destruct (cleanupFinishedThreads s') as [p w]. simpl in *.
  rewrite Htx. simpl. auto.
Qed.

Lemma transaction_affinity_witness :
  beginThreadTransaction nativeOk "9" afterThreadDied
  = ("db_9_2", snd (beginThreadTransaction nativeOk "9" afterThreadDied))
  /\ fst (acquireConnection nativeOk "9"
            (run nativeOk [OpAcquire "8"; OpRelease "9" "db_9_2"; OpBegin "8"]
               (snd (beginThreadTransaction nativeOk "9" afterThreadDied))))
     = "db_9_2".
Proof.
  split; [vm_compute; reflexivity|].
  apply (transaction_affinity nativeOk "9" "db_9_2" afterThreadDied
           (snd (beginThreadTransaction nativeOk "9" afterThreadDied))
           [OpAcquire "8"; OpRelease "9" "db_9_2"; OpBegin "8"]).
  - vm_compute; reflexivity.
  - discriminate.
  - vm_compute; discriminate.
  - reflexivity.
Defined.

(** C2 as stated fails: thread 9 is inside a transaction, and its next
    [acquireConnection] does return the bound name, but the sweep at its top
    closes the idle connection of the dead thread 7 and drops that queue. *)
Lemma acquire_in_transaction_modifies_idle_queues :
  let s := snd (beginThreadTransaction nativeOk "9" afterThreadDied) in
  m_activeTxByThread (fst s) !! "9" = Some "db_9_2"
  /\ fst (acquireConnection nativeOk "9" s) = "db_9_2"
  /\ m_availableByThread (fst s) !! "7" = Some ["db_7_1"]
  /\ m_availableByThread (fst (snd (acquireConnection nativeOk "9" s))) !! "7" = None
  /\ m_availableByThread (fst (snd (acquireConnection nativeOk "9" s)))
     <> m_availableByThread (fst s).
Proof.
  cbv zeta. repeat split; try (vm_compute; reflexivity).
  intros Heq. apply (f_equal (fun a => a !! "7")) in Heq.
  vm_compute in Heq. discriminate.
Qed.

(** Not part of C2 as amended: a thread whose address is that of a dead
    thread and that has only called [beginThreadTransaction] still carries
    the expired reference; its next [acquireConnection] sweeps its own
    binding away and hands out another connection. *)
Lemma acquire_after_begin_at_reused_address :
  let s := snd (beginThreadTransaction nativeOk "7" afterThreadDied) in
  fst (beginThreadTransaction nativeOk "7" afterThreadDied) = "db_7_1"
  /\ m_threadRefs (fst s) !! "7" = Some RefNull
  /\ fst (acquireConnection nativeOk "7" s) = "db_7_2".
Proof. cbv zeta. repeat split; vm_compute; reflexivity. Qed.

(** ** What the sweep closes *)

Lemma staleThreads_NoDup p : NoDup (staleThreads p).
Proof.
  unfold staleThreads.
  eapply sublist_NoDup; [apply (NoDup_fst_map_to_list (m_threadRefs p))|].
  apply fmap_sublist, sublist_filter.
Qed.

Lemma cleanupThread_fold_world l s :
  NoDup l ->
  exists closed,
    snd (fold_left cleanupThread l s) = snd s ++ map EvRemoveDatabase closed
    /\ forall n, n ∈ closed <->
         exists t q, t ∈ l /\ m_availableByThread (fst s) !! t = Some q /\ n ∈ q.
Proof.
  revert s. induction l as [|a l IH]; intros [p w] Hnd.
  - exists []. simpl. split; [symmetry; apply app_nil_r|].
    intros n. split; [intros Hin; inversion Hin|].
    intros (t & q & Hin & _). inversion Hin.
  - apply NoDup_cons in Hnd as [Ha Hnd].
    destruct (IH (cleanupThread (p, w) a) Hnd) as (closed & Hw & Hclosed).
    exists (queueOf a (m_availableByThread p) ++ closed). split.
    + simpl in *. rewrite Hw, map_app, app_assoc. reflexivity.
    + intros n. rewrite elem_of_app, Hclosed. simpl. split.
      * intros [Hin|(t & q & Ht & Hq & Hin)].
        -- unfold queueOf in Hin.
           destruct (m_availableByThread p !! a) as [q|] eqn:Hq;
             [|inversion Hin].
           exists a, q. split; [left|]. auto.
        -- exists t, q. split; [right; exact Ht|].
           destruct (decide (a = t)) as [->|Hne]; [contradiction|].
           rewrite lookup_delete_ne in Hq by exact Hne. auto.
      * intros (t & q & Ht & Hq & Hin).
        apply elem_of_cons in Ht as [->|Ht].
        -- left. unfold queueOf. rewrite Hq. exact Hin.
        -- right. exists t, q. split; [exact Ht|]. split; [|exact Hin].
           rewrite lookup_delete_ne; [exact Hq|]. intros ->. contradiction.
Qed.

(** The sweep closes exactly the idle connections queued under an expired
    reference, and nothing else happens in the native layer. *)
Lemma cleanup_world s :
  exists closed,
    snd (cleanupFinishedThreads s) = snd s ++ map EvRemoveDatabase closed
    /\ forall n, n ∈ closed <->
         exists t q, m_threadRefs (fst s) !! t = Some RefNull
                     /\ m_availableByThread (fst s) !! t = Some q /\ n ∈ q.
Proof.
  destruct (cleanupThread_fold_world (staleThreads (fst s)) s
              (staleThreads_NoDup (fst s))) as (closed & Hw & Hclosed).
  exists closed. split; [exact Hw|].
  intros n. rewrite Hclosed. split; intros (t & q & Ht & H).
  - exists t, q. split; [apply staleThreads_spec, Ht|exact H].
  - exists t, q. split; [apply staleThreads_spec, Ht|exact H].
Qed.

(** ** releaseConnection *)

Lemma releaseConnection_noop tid name s :
  name ∉ m_usedConnections (fst s)
  \/ default "" (m_activeTxByThread (fst (cleanupFinishedThreads s))
                   !! default tid (m_connOwner (fst s) !! name)) = name ->
  releaseConnection tid name s = cleanupFinishedThreads s.
Proof.
  destruct (cleanup_frame s) as (_ & Hu & _ & Ho). unfold releaseConnection.
  destruct (cleanupFinishedThreads s) as [p w]. simpl in *. rewrite Hu, Ho.
  intros [Hout|Hbound].
  - rewrite bool_decide_eq_false_2 by exact Hout. reflexivity.
  - case_bool_decide; [|reflexivity].
    rewrite bool_decide_eq_true_2 by exact Hbound. reflexivity.
Qed.

Lemma releaseConnection_requeues tid name s :
  name ∈ m_usedConnections (fst s) ->
  default "" (m_activeTxByThread (fst (cleanupFinishedThreads s))
                !! default tid (m_connOwner (fst s) !! name)) <> name ->
  releaseConnection tid name s
  = (let p := fst (cleanupFinishedThreads s) in
     let ownerTid := default tid (m_connOwner (fst s) !! name) in
     set_available
       (<[ownerTid := queueOf ownerTid (m_availableByThread p) ++ [name]]>
          (m_availableByThread p))
       (set_used (m_usedConnections (fst s) ∖ {[name]}) p),
     snd (cleanupFinishedThreads s)).
Proof.
  destruct (cleanup_frame s) as (_ & Hu & _ & Ho). unfold releaseConnection.
  destruct (cleanupFinishedThreads s) as [p w]. simpl in *. rewrite Hu, Ho.
  intros Hin Hfree.
  rewrite bool_decide_eq_true_2 by exact Hin.
  rewrite bool_decide_eq_false_2 by exact Hfree. reflexivity.
Qed.

(** C4, as the code has it.  [releaseConnection] first runs the stale-thread
    sweep, which changes nothing when no reference has expired.  On the
    swept state: for a name that is not in the in-use set, or that is the
    active-transaction slot of its owning thread, nothing more happens; any
    other name leaves the in-use set and is appended to the idle queue of
    its owning thread, every other queue and the active-transaction map
    staying as swept.  The owning thread is the one recorded in
    [m_connOwner], which every in-use name has. *)
Theorem releaseConnection_effect
    (env : Native) (tid name : string) (s : Pool * World) :
  reachable env s ->
  let swept := cleanupFinishedThreads s in
  let ownerTid := default tid (m_connOwner (fst s) !! name) in
  (noStaleThread (fst s) -> swept = s)
  /\ (name ∉ m_usedConnections (fst s)
      \/ m_activeTxByThread (fst swept) !! ownerTid = Some name ->
      releaseConnection tid name s = swept)
  /\ (name ∈ m_usedConnections (fst s) ->
      m_connOwner (fst s) !! name = Some ownerTid)
  /\ (name ∈ m_usedConnections (fst s) ->
      m_activeTxByThread (fst swept) !! ownerTid <> Some name ->
      m_usedConnections (fst (releaseConnection tid name s))
        = m_usedConnections (fst s) ∖ {[name]}
      /\ m_availableByThread (fst (releaseConnection tid name s)) !! ownerTid
         = Some (queueOf ownerTid (m_availableByThread (fst swept)) ++ [name])
      /\ (forall t, t <> ownerTid ->
            m_availableByThread (fst (releaseConnection tid name s)) !! t
            = m_availableByThread (fst swept) !! t)
      /\ m_activeTxByThread (fst (releaseConnection tid name s))
         = m_activeTxByThread (fst swept)
      /\ snd (releaseConnection tid name s) = snd swept).
Proof.
  intros Hreach. cbv zeta. split; [apply cleanup_id|]. split; [|split].
  - intros [Hout|Hbound]; apply releaseConnection_noop; [left; exact Hout|].
    right. rewrite Hbound. reflexivity.
  - intros Hin.
    destruct (reachable_consistent env s Hreach) as (_ & _ & Hused & _).
    destruct (Hused name Hin) as [o ->]. reflexivity.
  - intros Hin Hfree.
    assert (Hname : name <> "").
    { apply (reachable_namesNonEmpty env s Hreach), Hin. }
    rewrite releaseConnection_requeues; [| exact Hin |].
    + simpl. split; [reflexivity|]. split; [apply lookup_insert_eq|].
      split; [|auto]. intros t Hne. apply lookup_insert_ne. congruence.
    + destruct (m_activeTxByThread (fst (cleanupFinishedThreads s))
                  !! default tid (m_connOwner (fst s) !! name)) as [n|];
        simpl; congruence.
Qed.

Lemma releaseConnection_effect_witness :
  reachable nativeOk (run nativeOk [OpAcquire "7"] freshPool)
  /\ ("db_7_1" ∈ m_usedConnections (fst (run nativeOk [OpAcquire "7"] freshPool)))
  /\ m_availableByThread
       (fst (releaseConnection "7" "db_7_1" (run nativeOk [OpAcquire "7"] freshPool)))
       !! "7" = Some ["db_7_1"].
Proof.
  assert (Hreach : reachable nativeOk (run nativeOk [OpAcquire "7"] freshPool)).
  { exists sampleConfig, [OpAcquire "7"]. split; [simpl; lia|reflexivity]. }
  split; [exact Hreach|]. split; [vm_compute; reflexivity|].
  pose proof (releaseConnection_effect nativeOk "7" "db_7_1"
                (run nativeOk [OpAcquire "7"] freshPool) Hreach) as (_ & _ & _ & H).
  destruct H as (_ & Hq & _).
  - vm_compute; reflexivity.
  - vm_compute; discriminate.
  - vm_compute in Hq. vm_compute. exact Hq.
Defined.

(** C4 as stated fails: releasing a name the pool does not track still runs
    the sweep, which here closes the idle connection of the dead thread 7
    and drops its queue. *)
Lemma release_of_untracked_name_changes_pool :
  ("db_9_9" ∉ m_usedConnections (fst afterThreadDied))
  /\ m_availableByThread (fst afterThreadDied) !! "7" = Some ["db_7_1"]
  /\ m_availableByThread (fst (releaseConnection "9" "db_9_9" afterThreadDied)) !! "7"
     = None
  /\ fst (releaseConnection "9" "db_9_9" afterThreadDied) <> fst afterThreadDied.
Proof.
  split.
  { apply (bool_decide_eq_false_1 _). vm_compute. reflexivity. }
  repeat split; try (vm_compute; reflexivity).
  intros Heq. apply (f_equal (fun p => m_availableByThread p !! "7")) in Heq.
  vm_compute in Heq. discriminate.
Qed.

(** ** Ending a thread transaction *)

Lemma set_activeTx_delete_absent p tid :
  m_activeTxByThread p !! tid = None ->
  set_activeTx (delete tid (m_activeTxByThread p)) p = p.
Proof.
  intros Hnone. rewrite delete_id by exact Hnone. destruct p. reflexivity.
Qed.

(** After the binding of [tid] has been taken, [releaseConnection] puts a
    connection of [tid] that is in use at the back of the queue of [tid]. *)
Lemma release_after_take tid name p w :
  name <> "" ->
  name ∈ m_usedConnections p ->
  m_connOwner p !! name = Some tid ->
  let cleared := (set_activeTx (delete tid (m_activeTxByThread p)) p, w) in
  (name ∉ m_usedConnections (fst (releaseConnection tid name cleared)))
  /\ m_availableByThread (fst (releaseConnection tid name cleared)) !! tid
     = Some (queueOf tid (m_availableByThread (fst (cleanupFinishedThreads cleared)))
             ++ [name]).
Proof.
  intros Hname Hin Hown. cbv zeta.
  rewrite releaseConnection_requeues.
  - simpl. rewrite Hown. simpl. split; [|apply lookup_insert_eq].
    intros Hx. apply elem_of_difference in Hx as [_ Hx].
    apply Hx, elem_of_singleton. reflexivity.
  - exact Hin.
  - simpl. rewrite Hown. simpl. rewrite cleanup_activeTx. simpl.
    rewrite lookup_delete_eq.
    destruct (m_threadRefs p !! tid) as [[|]|]; simpl; congruence.
Qed.

(** C3. [commitThreadTransaction] and [rollbackThreadTransaction] take the
    caller's binding first.  Without a binding they return [false] and the
    pool and the native layer are as before.  With one, the native commit
    (rollback) is issued on the bound connection, the connection is handed
    to [releaseConnection], and the value returned is what the native call
    answered; afterwards the binding is gone, the connection has left the
    in-use set and sits at the back of the idle queue of its owning thread,
    the caller, behind what the sweep left of that queue. *)
Theorem commit_rollback_thread_transaction
    (env : Native) (tid : string) (s : Pool * World) :
  reachable env s ->
  (m_activeTxByThread (fst s) !! tid = None ->
     commitThreadTransaction env tid s = (false, s)
     /\ rollbackThreadTransaction env tid s = (false, s))
  /\ (forall name,
        m_activeTxByThread (fst s) !! tid = Some name ->
        let cleared :=
          set_activeTx (delete tid (m_activeTxByThread (fst s))) (fst s) in
        let leftover :=
          match m_threadRefs (fst s) !! tid with
          | Some RefNull => []
          | _ => queueOf tid (m_availableByThread (fst s))
          end in
        let committed := commitThreadTransaction env tid s in
        let rolledBack := rollbackThreadTransaction env tid s in
        m_connOwner (fst s) !! name = Some tid
        /\ committed
           = (nat_commit env (snd s) name,
              releaseConnection tid name (cleared, snd s ++ [EvCommit name]))
        /\ rolledBack
           = (nat_rollback env (snd s) name,
              releaseConnection tid name (cleared, snd s ++ [EvRollback name]))
        /\ m_activeTxByThread (fst (snd committed)) !! tid = None
        /\ m_activeTxByThread (fst (snd rolledBack)) !! tid = None
        /\ (name ∉ m_usedConnections (fst (snd committed)))
        /\ (name ∉ m_usedConnections (fst (snd rolledBack)))
        /\ m_availableByThread (fst (snd committed)) !! tid
           = Some (leftover ++ [name])
        /\ m_availableByThread (fst (snd rolledBack)) !! tid
           = Some (leftover ++ [name])).
Proof.
  intros Hreach. pose proof (reachable_namesNonEmpty env s Hreach) as (Hnames & _).
  pose proof (reachable_consistent env s Hreach) as (_ & _ & _ & _ & Hbindings).
  destruct s as [p w]. simpl fst in *. simpl snd. split.
  - intros Hnone. unfold commitThreadTransaction, rollbackThreadTransaction.
    rewrite Hnone. simpl.
    rewrite set_activeTx_delete_absent by exact Hnone. auto.
  - intros name Hbound. pose proof (Hnames tid name Hbound) as Hname.
    destruct (Hbindings tid name Hbound) as [Hown Hin]. cbv zeta.
    assert (Hc : commitThreadTransaction env tid (p, w)
                 = (nat_commit env w name,
                    releaseConnection tid name
                      (set_activeTx (delete tid (m_activeTxByThread p)) p,
                       w ++ [EvCommit name]))).
    { unfold commitThreadTransaction. rewrite Hbound. simpl.
      rewrite bool_decide_eq_false_2 by exact Hname. reflexivity. }
    assert (Hr : rollbackThreadTransaction env tid (p, w)
                 = (nat_rollback env w name,
                    releaseConnection tid name
                      (set_activeTx (delete tid (m_activeTxByThread p)) p,
                       w ++ [EvRollback name]))).
    { unfold rollbackThreadTransaction. rewrite Hbound. simpl.
      rewrite bool_decide_eq_false_2 by exact Hname. reflexivity. }
    rewrite Hc, Hr. simpl snd.
    assert (Hgone : forall w',
              m_activeTxByThread
                (fst (releaseConnection tid name
                        (set_activeTx (delete tid (m_activeTxByThread p)) p, w')))
                !! tid = None).
    { intros w'. rewrite (proj1 (proj2 (releaseConnection_frame _ _ _))).
      rewrite cleanup_activeTx. simpl. rewrite lookup_delete_eq.
      destruct (m_threadRefs p !! tid) as [[|]|]; reflexivity. }
    assert (Hleft : forall w',
              queueOf tid
                (m_availableByThread
                   (fst (cleanupFinishedThreads
                           (set_activeTx (delete tid (m_activeTxByThread p)) p, w'))))
              = match m_threadRefs p !! tid with
                | Some RefNull => []
                | _ => queueOf tid (m_availableByThread p)
                end).
    { intros w'. unfold queueOf. rewrite cleanup_available. simpl.
      destruct (m_threadRefs p !! tid) as [[|]|]; reflexivity. }
    split; [exact Hown|]. split; [reflexivity|]. split; [reflexivity|].
    split; [apply Hgone|]. split; [apply Hgone|].
    split; [apply (release_after_take tid name p _ Hname Hin Hown)|].
    split; [apply (release_after_take tid name p _ Hname Hin Hown)|].
    split.
    + rewrite <- (Hleft (w ++ [EvCommit name])).
      apply (release_after_take tid name p _ Hname Hin Hown).
    + rewrite <- (Hleft (w ++ [EvRollback name])).
      apply (release_after_take tid name p _ Hname Hin Hown).
Qed.

Lemma commit_rollback_thread_transaction_witness :
  let s := run nativeOk [OpBegin "7"] freshPool in
  reachable nativeOk s
  /\ m_activeTxByThread (fst s) !! "7" = Some "db_7_1"
  /\ fst (commitThreadTransaction nativeOk "7" s) = true
  /\ m_availableByThread (fst (snd (commitThreadTransaction nativeOk "7" s))) !! "7"
     = Some ["db_7_1"].
Proof.
  cbv zeta.
  assert (Hreach : reachable nativeOk (run nativeOk [OpBegin "7"] freshPool)).
  { exists sampleConfig, [OpBegin "7"]. split; [simpl; lia|reflexivity]. }
  split; [exact Hreach|]. split; [vm_compute; reflexivity|].
  destruct (commit_rollback_thread_transaction nativeOk "7"
              (run nativeOk [OpBegin "7"] freshPool) Hreach) as [_ H].
  destruct (H "db_7_1") as (_ & Hc & _ & _ & _ & _ & _ & Hq & _);
    [vm_compute; reflexivity|].
  split; [rewrite Hc; reflexivity|]. rewrite Hq. vm_compute. reflexivity.
Defined.

(** ** beginThreadTransaction when the native begin fails *)

Lemma takeOrCreate_effect (env : Native) tid s name p w :
  takeOrCreate env tid s = (name, (p, w)) ->
  name <> "" ->
  m_usedConnections p = {[name]} ∪ m_usedConnections (fst s)
  /\ m_availableByThread p !! tid
     = Some (tail (queueOf tid (m_availableByThread (fst s))))
  /\ (forall t, t <> tid ->
        m_availableByThread p !! t = m_availableByThread (fst s) !! t).
Proof.
  destruct s as [p0 w0]. unfold takeOrCreate. simpl.
  rewrite queueOf_subscript.
  destruct (queueOf tid (m_availableByThread p0)) as [|n rest] eqn:Hq.
  - case_bool_decide; [intros [= <- _ _]; congruence|].
    match goal with |- context [createConnectionInCurrentThread env tid ?s0] =>
      pose proof (createConnection_frame env tid s0) as (_ & Hu & Ha & _);
      destruct (createConnectionInCurrentThread env tid s0) as [n [p' w']]
    end.
    simpl in Hu, Ha.
    case_bool_decide; intros [= -> <- _] Hname; [congruence|]. simpl.
    rewrite Hu, Ha. split; [reflexivity|]. unfold subscript. rewrite Hq.
    split; [apply lookup_insert_eq|].
    intros t Hne. apply lookup_insert_ne. congruence.
  - intros [= -> <- _] _. simpl. split; [reflexivity|].
    split; [apply lookup_insert_eq|].
    intros t Hne. rewrite lookup_insert_ne by congruence.
    unfold subscript. apply lookup_insert_ne. congruence.
Qed.

(** C7. When [beginThreadTransaction] has obtained a connection and the
    native begin on it fails (or the connection is not open), the call
    returns the empty string, the connection is no longer in the in-use set,
    it sits at the back of the caller's idle queue (behind what was left of
    that queue), the other queues are untouched and the active-transaction
    map is as before, so the caller has no binding. *)
Theorem beginThreadTransaction_native_failure
    (env : Native) (tid name : string) (s : Pool * World) (p : Pool) (w : World) :
  m_activeTxByThread (fst s) !! tid = None ->
  takeOrCreate env tid s = (name, (p, w)) ->
  name <> "" ->
  nat_isOpen env w name = false \/ nat_transaction env w name = false ->
  fst (beginThreadTransaction env tid s) = ""
  /\ m_usedConnections (fst (snd (beginThreadTransaction env tid s)))
     = m_usedConnections (fst s) ∖ {[name]}
  /\ m_availableByThread (fst (snd (beginThreadTransaction env tid s))) !! tid
     = Some (tail (queueOf tid (m_availableByThread (fst s))) ++ [name])
  /\ (forall t, t <> tid ->
        m_availableByThread (fst (snd (beginThreadTransaction env tid s))) !! t
        = m_availableByThread (fst s) !! t)
  /\ m_activeTxByThread (fst (snd (beginThreadTransaction env tid s)))
     = m_activeTxByThread (fst s)
  /\ m_activeTxByThread (fst (snd (beginThreadTransaction env tid s))) !! tid = None.
Proof.
  intros Hfree Htake Hname Hfail.
  destruct (takeOrCreate_effect env tid s name p w Htake Hname) as (Hu & Hq & Hother).
  pose proof (takeOrCreate_frame env tid s) as [Htx _]. rewrite Htake in Htx.
  simpl in Htx.
  assert (Hnative : fst (nativeBegin env name w) = false).
  { unfold nativeBegin. destruct Hfail as [Hclosed|Hbegin].
    - rewrite Hclosed. reflexivity.
    - destruct (nat_isOpen env w name); [exact Hbegin|reflexivity]. }
  rewrite beginThreadTransaction_unfold. rewrite Hfree, Htake.
  rewrite bool_decide_eq_false_2 by exact Hname.
  destruct (nativeBegin env name w) as [ok w']. simpl in Hnative. subst ok.
  simpl. split; [reflexivity|]. split.
  { rewrite Hu. apply set_eq. intros x.
    rewrite !elem_of_difference, elem_of_union. tauto. }
  split.
  { rewrite lookup_insert_eq. unfold queueOf at 1. rewrite Hq. reflexivity. }
  split.
  { intros t Hne. rewrite lookup_insert_ne by congruence. apply Hother, Hne. }
  split; [exact Htx|]. rewrite Htx. exact Hfree.
Qed.

Lemma beginThreadTransaction_native_failure_witness :
  m_activeTxByThread (fst freshPool) !! "7" = None
  /\ fst (beginThreadTransaction nativeNoBegin "7" freshPool) = ""
  /\ m_availableByThread (fst (snd (beginThreadTransaction nativeNoBegin "7" freshPool)))
       !! "7" = Some ["db_7_1"].
Proof.
  split; [vm_compute; reflexivity|].
  destruct (beginThreadTransaction_native_failure nativeNoBegin "7" "db_7_1" freshPool
              (fst (snd (takeOrCreate nativeNoBegin "7" freshPool)))
              (snd (snd (takeOrCreate nativeNoBegin "7" freshPool))))
    as (Hret & _ & Hq & _).
  - vm_compute; reflexivity.
  - vm_compute; reflexivity.
  - discriminate.
  - right. reflexivity.
  - split; [exact Hret|]. rewrite Hq. vm_compute; reflexivity.
Defined.

(** ** Where the sweep runs *)

Lemma acquireConnection_sweepsFirst (env : Native) tid :
  sweepsFirst (acquireConnection env tid).
Proof.
  intros s. split.
  - unfold acquireConnection. rewrite cleanup_idempotent. reflexivity.
  - pose proof (cleanup_noStale s) as Hno. unfold acquireConnection.
    destruct (cleanupFinishedThreads s) as [p w]. simpl in Hno.
    assert (Hno' : noStaleThread
                     (set_threadRefs (<[tid := RefLive]> (m_threadRefs p)) p)).
    { intros t. simpl. destruct (decide (tid = t)) as [->|Hne].
      - rewrite lookup_insert_eq. discriminate.
      - rewrite lookup_insert_ne by exact Hne. apply Hno. }
    simpl. destruct (m_activeTxByThread p !! tid); [exact Hno'|].
    intros t. rewrite (proj2 (takeOrCreate_frame env tid _)). apply Hno'.
Qed.

Lemma releaseConnection_sweepsFirst tid name :
  sweepsFirst (fun s => (tt, releaseConnection tid name s)).
Proof.
  intros s. split.
  - unfold releaseConnection. rewrite cleanup_idempotent. reflexivity.
  - intros t. simpl.
    rewrite (proj2 (proj2 (releaseConnection_frame tid name s))).
    apply cleanup_noStale.
Qed.

(** C5, as the code has it.  The stale-thread sweep drops the queue, the
    binding and the reference stored under every thread id whose reference
    has expired, closes exactly the connections of those queues, and leaves
    everything else.  It runs at the top of [acquireConnection] and of
    [releaseConnection].  [commitThreadTransaction] and
    [rollbackThreadTransaction] reach it only through their closing
    [releaseConnection], hence only when the caller had a binding; without
    one they change nothing.  [forceCloseIdleConnections] never runs it:
    references and bindings stay as they were. *)
Theorem sweep_placement (env : Native) (tid name : string) :
  (forall s t,
     m_threadRefs (fst (cleanupFinishedThreads s)) !! t
       = match m_threadRefs (fst s) !! t with Some RefNull => None | r => r end
     /\ m_availableByThread (fst (cleanupFinishedThreads s)) !! t
        = match m_threadRefs (fst s) !! t with
          | Some RefNull => None
          | _ => m_availableByThread (fst s) !! t
          end
     /\ m_activeTxByThread (fst (cleanupFinishedThreads s)) !! t
        = match m_threadRefs (fst s) !! t with
          | Some RefNull => None
          | _ => m_activeTxByThread (fst s) !! t
          end)
  /\ (forall s,
        m_usedConnections (fst (cleanupFinishedThreads s)) = m_usedConnections (fst s)
        /\ exists closed,
             snd (cleanupFinishedThreads s) = snd s ++ map EvRemoveDatabase closed
             /\ forall n, n ∈ closed <->
                  exists t q, m_threadRefs (fst s) !! t = Some RefNull
                              /\ m_availableByThread (fst s) !! t = Some q
                              /\ n ∈ q)
  /\ sweepsFirst (acquireConnection env tid)
  /\ sweepsFirst (fun s => (tt, releaseConnection tid name s))
  /\ (forall p w,
        m_activeTxByThread p !! tid = Some name ->
        name <> "" ->
        noStaleThread (fst (snd (commitThreadTransaction env tid (p, w))))
        /\ noStaleThread (fst (snd (rollbackThreadTransaction env tid (p, w)))))
  /\ (forall p w,
        m_activeTxByThread p !! tid = None ->
        snd (commitThreadTransaction env tid (p, w)) = (p, w)
        /\ snd (rollbackThreadTransaction env tid (p, w)) = (p, w))
  /\ (forall s,
        m_threadRefs (fst (snd (forceCloseIdleConnections s))) = m_threadRefs (fst s)
        /\ m_activeTxByThread (fst (snd (forceCloseIdleConnections s)))
           = m_activeTxByThread (fst s)).
Proof.
  split.
  { intros s t. split; [apply cleanup_refs|].
    split; [apply cleanup_available|apply cleanup_activeTx]. }
  split.
  { intros s. split; [apply cleanup_frame|apply cleanup_world]. }
  split; [apply acquireConnection_sweepsFirst|].
  split; [apply releaseConnection_sweepsFirst|].
  split.
  { intros p w Hbound Hname.
    unfold commitThreadTransaction, rollbackThreadTransaction.
    rewrite Hbound. simpl. rewrite bool_decide_eq_false_2 by exact Hname.
    simpl. split; intros t;
      rewrite (proj2 (proj2 (releaseConnection_frame _ _ _)));
      apply cleanup_noStale. }
  split.
  { intros p w Hnone.
    unfold commitThreadTransaction, rollbackThreadTransaction.
    rewrite Hnone. simpl. rewrite set_activeTx_delete_absent by exact Hnone. auto. }
  intros [p w]. simpl. auto.
Qed.

Lemma sweep_placement_witness :
  let s := run nativeOk [OpBegin "9"] afterThreadDied in
  m_activeTxByThread (fst s) !! "9" = Some "db_9_2"
  /\ m_threadRefs (fst s) !! "7" = Some RefNull
  /\ noStaleThread (fst (snd (commitThreadTransaction nativeOk "9" s))).
Proof.
  cbv zeta. split; [vm_compute; reflexivity|].
  split; [vm_compute; reflexivity|].
  destruct (run nativeOk [OpBegin "9"] afterThreadDied) as [p w] eqn:Hs.
  destruct (sweep_placement nativeOk "9" "db_9_2") as (_ & _ & _ & _ & H & _).
  apply H; [|discriminate].
  apply (f_equal (fun s => m_activeTxByThread (fst s) !! "9")) in Hs.
  simpl in Hs. rewrite <- Hs. vm_compute; reflexivity.
Defined.

(** C5 as stated fails: with the expired reference of thread 7 in the pool,
    [beginThreadTransaction], [commitThreadTransaction],
    [rollbackThreadTransaction] and [forceCloseIdleConnections] all return
    with that reference still stored: none of them has swept. *)
Lemma sweep_missing_from_four_operations :
  ~ sweepsFirst (beginThreadTransaction nativeOk "9")
  /\ ~ sweepsFirst (commitThreadTransaction nativeOk "9")
  /\ ~ sweepsFirst (rollbackThreadTransaction nativeOk "9")
  /\ ~ sweepsFirst forceCloseIdleConnections.
Proof.
  repeat split; intros H; destruct (H afterThreadDied) as [_ Hno];
    apply (Hno "7"); vm_compute; reflexivity.
Qed.

(** What the missing sweep lets through: a new thread that received the
    address of the dead thread 7 begins its transaction on the connection
    the dead thread had queued. *)
Lemma begin_inherits_connection_of_dead_thread :
  m_threadRefs (fst afterThreadDied) !! "7" = Some RefNull
  /\ fst (beginThreadTransaction nativeOk "7" afterThreadDied) = "db_7_1"
  /\ fst (beginThreadTransaction nativeOk "7" (cleanupFinishedThreads afterThreadDied))
     = "db_7_2".
Proof. repeat split; vm_compute; reflexivity. Qed.

(** ** Query statistics *)

Lemma wrap64_small z : - 2 ^ 63 <= z < 2 ^ 63 -> wrap64 z = z.
Proof.
  intros Hz. unfold wrap64. rewrite Z.mod_small by lia. lia.
Qed.

(** One step of the incremental average, on the running product
    [average * count]. *)
Lemma recordQueryStats_average st k t ok total :
  totalQueries st = k -> 0 <= k -> k + 1 < 2 ^ 63 ->
  (avgQueryTime st * inject_Z k == total)%Q ->
  totalQueries (recordQueryStats ok t st) = k + 1
  /\ (avgQueryTime (recordQueryStats ok t st) * inject_Z (k + 1) == total + t)%Q.
Proof.
  intros Hk H0 Hbound Havg. unfold recordQueryStats. simpl.
  rewrite Hk. rewrite (wrap64_small (k + 1)) by lia.
  replace (k + 1 - 1) with k by lia. rewrite (wrap64_small k) by lia.
  split; [reflexivity|].
  rewrite Havg.
  assert (Hnz : ~ (inject_Z (k + 1) == 0)%Q).
  { unfold Qeq. simpl. lia. }
  field. exact Hnz.
Qed.

Lemma recordAll_average calls : forall st k total,
  totalQueries st = k -> 0 <= k -> k + Z.of_nat (length calls) < 2 ^ 63 ->
  (avgQueryTime st * inject_Z k == total)%Q ->
  totalQueries (recordAll calls st) = k + Z.of_nat (length calls)
  /\ (avgQueryTime (recordAll calls st) * inject_Z (k + Z.of_nat (length calls))
      == total + Qsum (map snd calls))%Q.
Proof.
  induction calls as [|[ok t] calls IH]; intros st k total Hk H0 Hbound Havg.
  - simpl. rewrite Z.add_0_r. split; [exact Hk|]. rewrite Havg. ring.
  - simpl recordAll. simpl length in *. simpl map. simpl Qsum.
    destruct (recordQueryStats_average st k t ok total Hk H0 ltac:(lia) Havg)
      as [Hk' Havg'].
    destruct (IH _ _ _ Hk' ltac:(lia) ltac:(lia) Havg') as [Hn Hsum].
    replace (k + Z.of_nat (S (length calls)))
      with (k + 1 + Z.of_nat (length calls)) by lia.
    split; [exact Hn|]. rewrite Hsum. ring.
Qed.

Lemma recordAll_mean calls :
  calls <> [] -> Z.of_nat (length calls) < 2 ^ 63 ->
  (avgQueryTime (recordAll calls emptyStats) == mean (map snd calls))%Q.
Proof.
  intros Hne Hbound.
  destruct (recordAll_average calls emptyStats 0 0%Q eq_refl ltac:(lia) ltac:(lia))
    as [_ Hsum]; [simpl; ring|].
  unfold mean. rewrite length_map.
  assert (Hnz : ~ (inject_Z (Z.of_nat (length calls)) == 0)%Q).
  { destruct calls; [congruence|]. unfold Qeq. simpl. lia. }
  rewrite Z.add_0_l, Qplus_0_l in Hsum. rewrite <- Hsum.
  field. exact Hnz.
Qed.

Lemma Qsum_Permutation ts ts' : Permutation ts ts' -> (Qsum ts == Qsum ts')%Q.
Proof.
  induction 1 as [|t ts ts' _ IH|t u ts|ts ts' ts'' _ IH1 _ IH2]; simpl.
  - reflexivity.
  - rewrite IH. reflexivity.
  - ring.
  - rewrite IH1. exact IH2.
Qed.

(** C9. In exact arithmetic, after [N >= 1] calls of [recordQueryStats]
    since construction or since the last [resetStatistics] (and fewer than
    [2^63] of them, the range of the counter), the stored average is the
    arithmetic mean of the [N] timings, whatever the success flags; so it
    does not depend on the order in which the timings came. *)
Theorem average_is_arithmetic_mean
    (config : DatabaseConfig) (m : Manager) (calls : list (bool * Q)) :
  calls <> [] ->
  Z.of_nat (length calls) < 2 ^ 63 ->
  (avgQueryTime (recordAll calls (m_stats (newManager config)))
   == mean (map snd calls))%Q
  /\ (avgQueryTime (recordAll calls (m_stats (resetStatistics m)))
      == mean (map snd calls))%Q
  /\ (forall calls',
        Permutation (map snd calls') (map snd calls) ->
        (avgQueryTime (recordAll calls' (m_stats (resetStatistics m)))
         == avgQueryTime (recordAll calls (m_stats (resetStatistics m))))%Q).
Proof.
  intros Hne Hbound. simpl m_stats.
  split; [apply recordAll_mean; assumption|].
  split; [apply recordAll_mean; assumption|].
  intros calls' Hperm.
  assert (Hlen : length calls' = length calls).
  { apply Permutation_length in Hperm. rewrite !length_map in Hperm. exact Hperm. }
  assert (Hne' : calls' <> []).
  { destruct calls'; [|discriminate]. destruct calls; [congruence|discriminate]. }
  rewrite (recordAll_mean calls Hne Hbound).
  rewrite (recordAll_mean calls' Hne') by (rewrite Hlen; exact Hbound).
  unfold mean. rewrite (Qsum_Permutation _ _ Hperm), !length_map, Hlen. reflexivity.
Qed.

Lemma average_is_arithmetic_mean_witness :
  [(true, 4%Q); (false, 6%Q); (true, 11%Q)] <> []
  /\ (avgQueryTime
        (recordAll [(true, 4%Q); (false, 6%Q); (true, 11%Q)]
           (m_stats (resetStatistics (newManager sampleConfig))))
      == 7)%Q.
Proof.
  split; [discriminate|].
  destruct (average_is_arithmetic_mean sampleConfig (newManager sampleConfig)
              [(true, 4%Q); (false, 6%Q); (true, 11%Q)]) as (_ & H & _).
  - discriminate.
  - simpl. lia.
  - rewrite H. vm_compute. reflexivity.
Defined.

(** ** The transaction facade *)

Section Facade.

Context (env : Native).

Lemma forallb_app_true {A : Type} (f : A -> bool) l1 l2 :
  forallb f l1 = true -> forallb f l2 = true -> forallb f (l1 ++ l2) = true.
Proof. intros H1 H2. rewrite forallb_app, H1, H2. reflexivity. Qed.

(** Obtaining a connection issues no native commit or rollback. *)
Lemma takeOrCreate_trace tid s :
  exists evs,
    snd (snd (takeOrCreate env tid s)) = snd s ++ evs
    /\ forallb (fun ev => negb (isEndEvent ev)) evs = true.
Proof.
  destruct s as [p w]. unfold takeOrCreate. simpl.
  destruct (queueOf tid _) as [|n rest].
  - case_bool_decide; [exists []; simpl; rewrite app_nil_r; auto|].
    match goal with |- context [createConnectionInCurrentThread env tid ?s0] =>
      assert (Hcreate : exists evs,
                snd (snd (createConnectionInCurrentThread env tid s0)) = snd s0 ++ evs
                /\ forallb (fun ev => negb (isEndEvent ev)) evs = true);
      [|destruct (createConnectionInCurrentThread env tid s0) as [n [p' w']]]
    end.
    { unfold createConnectionInCurrentThread.
      destruct (nat_open env _ _); simpl; eexists [_; _];
        rewrite <- app_assoc; simpl; auto. }
    simpl in Hcreate. case_bool_decide; exact Hcreate.
  - exists []. simpl. rewrite app_nil_r. auto.
Qed.

Lemma beginThreadTransaction_trace tid s :
  exists evs,
    snd (snd (beginThreadTransaction env tid s)) = snd s ++ evs
    /\ forallb (fun ev => negb (isEndEvent ev)) evs = true.
Proof.
  rewrite beginThreadTransaction_unfold.
  destruct (m_activeTxByThread (fst s) !! tid).
  { exists []. simpl. rewrite app_nil_r. auto. }
  destruct (takeOrCreate_trace tid s) as (evs & Hw & Hevs).
  destruct (takeOrCreate env tid s) as [n [p w]]. simpl in Hw. subst w.
  case_bool_decide; [exists evs; auto|].
  unfold nativeBegin. destruct (nat_isOpen env _ n).
  - exists (evs ++ [EvTransaction n]). split.
    + destruct (nat_transaction env _ n); simpl; symmetry; apply app_assoc.
    + apply forallb_app_true; [exact Hevs|reflexivity].
  - exists evs. auto.
Qed.

(** A failed [beginTransaction] has issued no native commit or rollback and
    emitted no commit or rollback signal. *)
Lemma beginTransaction_trace tid s :
  exists evs,
    snd (snd (beginTransaction env tid s)) = snd s ++ evs
    /\ forallb (fun ev => negb (isEndEvent ev)) evs = true.
Proof.
  destruct s as [m w]. unfold beginTransaction.
  destruct (m_connectionPool m) as [p|].
  - destruct (beginThreadTransaction_trace tid (p, w)) as (evs & Hw & Hevs).
    destruct (beginThreadTransaction env tid (p, w)) as [n [p' w']].
    simpl in Hw. subst w'. case_bool_decide; simpl.
    + exists evs. auto.
    + exists (evs ++ [EvEmit transactionBegin]). split; [symmetry; apply app_assoc|].
      apply forallb_app_true; [exact Hevs|reflexivity].
  - destruct (nat_isOpen env w _); simpl.
    + destruct (nat_transaction env w _); simpl.
      * eexists [_; _]. simpl. auto.
      * eexists [_]. simpl. auto.
    + exists []. rewrite app_nil_r. auto.
Qed.

End Facade.

(** *** What the call that ends the transaction does *)

Lemma commitThreadTransaction_bound (env : Native) tid name p w :
  m_activeTxByThread p !! tid = Some name ->
  name <> "" ->
  commitThreadTransaction env tid (p, w)
  = (nat_commit env w name,
     releaseConnection tid name
       (set_activeTx (delete tid (m_activeTxByThread p)) p, w ++ [EvCommit name])).
Proof.
  intros Hb Hname. unfold commitThreadTransaction. rewrite Hb. simpl.
  rewrite bool_decide_eq_false_2 by exact Hname. reflexivity.
Qed.

Lemma rollbackThreadTransaction_bound (env : Native) tid name p w :
  m_activeTxByThread p !! tid = Some name ->
  name <> "" ->
  rollbackThreadTransaction env tid (p, w)
  = (nat_rollback env w name,
     releaseConnection tid name
       (set_activeTx (delete tid (m_activeTxByThread p)) p, w ++ [EvRollback name])).
Proof.
  intros Hb Hname. unfold rollbackThreadTransaction. rewrite Hb. simpl.
  rewrite bool_decide_eq_false_2 by exact Hname. reflexivity.
Qed.

Lemma set_pool_same m p : m_connectionPool m = Some p -> set_pool (Some p) m = m.
Proof. destruct m. simpl. intros ->. reflexivity. Qed.

Lemma commitThreadTransaction_unbinds (env : Native) tid s :
  m_activeTxByThread (fst (snd (commitThreadTransaction env tid s))) !! tid = None.
Proof.
  destruct s as [p w]. unfold commitThreadTransaction.
  case_bool_decide; simpl; [apply lookup_delete_eq|].
  rewrite (proj1 (proj2 (releaseConnection_frame _ _ _))).
  rewrite cleanup_activeTx. simpl. rewrite lookup_delete_eq.
  destruct (m_threadRefs p !! tid) as [[|]|]; reflexivity.
Qed.

Lemma rollbackThreadTransaction_unbinds (env : Native) tid s :
  m_activeTxByThread (fst (snd (rollbackThreadTransaction env tid s))) !! tid = None.
Proof.
  destruct s as [p w]. unfold rollbackThreadTransaction.
  case_bool_decide; simpl; [apply lookup_delete_eq|].
  rewrite (proj1 (proj2 (releaseConnection_frame _ _ _))).
  rewrite cleanup_activeTx. simpl. rewrite lookup_delete_eq.
  destruct (m_threadRefs p !! tid) as [[|]|]; reflexivity.
Qed.

(** Without a binding the facade's commit and rollback fail and change
    nothing. *)
Lemma end_without_binding (env : Native) tid m p w :
  m_connectionPool m = Some p ->
  m_activeTxByThread p !! tid = None ->
  commitTransaction env tid (m, w) = (false, (m, w))
  /\ rollbackTransaction env tid (m, w) = (false, (m, w)).
Proof.
  intros Hpool Hnone. unfold commitTransaction, rollbackTransaction. rewrite Hpool.
  unfold commitThreadTransaction, rollbackThreadTransaction. rewrite Hnone. simpl.
  rewrite set_activeTx_delete_absent by exact Hnone.
  rewrite set_pool_same by exact Hpool. auto.
Qed.

(** A successful [beginTransaction] of a manager with a pool leaves the
    caller bound to a connection with a name. *)
Lemma beginTransaction_binds (env : Native) tid m p w s1 :
  m_connectionPool m = Some p ->
  beginTransaction env tid (m, w) = (true, s1) ->
  exists p1 name,
    m_connectionPool (fst s1) = Some p1
    /\ m_activeTxByThread p1 !! tid = Some name
    /\ name <> "".
Proof.
  intros Hpool. unfold beginTransaction. rewrite Hpool.
  pose proof (beginThreadTransaction_binds env tid) as Hbinds.
  destruct (beginThreadTransaction env tid (p, w)) as [name [p1 w1]] eqn:Hbegin.
  case_bool_decide as Hname; [discriminate|].
  intros [= <-]. exists p1, name. simpl.
  split; [reflexivity|]. split; [|exact Hname].
  apply (Hbinds name (p, w) (p1, w1) Hbegin Hname).
Qed.

Section ExecuteInTransaction.

Context (env : Native).

Lemma releaseConnection_world tid name s :
  snd (releaseConnection tid name s) = snd (cleanupFinishedThreads s).
Proof.
  unfold releaseConnection. destruct (cleanupFinishedThreads s) as [p w].
  repeat case_bool_decide; reflexivity.
Qed.

(** The facade's commit for a thread that is bound: the native commit runs
    on the bound connection, the sweep of the release follows, and the signal
    is emitted when the native commit succeeded. *)
Lemma commitTransaction_bound tid name m p w :
  m_connectionPool m = Some p ->
  m_activeTxByThread p !! tid = Some name ->
  name <> "" ->
  exists p' closed,
    commitTransaction env tid (m, w)
    = (nat_commit env w name,
       (set_pool (Some p') m,
        w ++ [EvCommit name] ++ map EvRemoveDatabase closed
          ++ (if nat_commit env w name then [EvEmit transactionCommitted] else [])))
    /\ m_activeTxByThread p' !! tid = None.
Proof.
  intros Hpool Hbound Hname. unfold commitTransaction. rewrite Hpool.
  pose proof (commitThreadTransaction_unbinds env tid (p, w)) as Hunbound.
  rewrite (commitThreadTransaction_bound env tid name p w Hbound Hname) in Hunbound |- *.
  set (taken := set_activeTx (delete tid (m_activeTxByThread p)) p) in *.
  pose proof (releaseConnection_world tid name (taken, w ++ [EvCommit name])) as Hw.
  destruct (cleanup_world (taken, w ++ [EvCommit name])) as (closed & Hclosed & _).
  rewrite Hclosed in Hw. cbn [snd] in Hw, Hunbound.
  destruct (releaseConnection tid name (taken, w ++ [EvCommit name])) as [p' w'].
  cbn [fst snd] in Hw, Hunbound. subst w'.
  exists p', closed. split; [|exact Hunbound].
  destruct (nat_commit env w name); rewrite <- ?app_assoc; simpl;
    rewrite ?app_nil_r; reflexivity.
Qed.

Lemma rollbackTransaction_bound tid name m p w :
  m_connectionPool m = Some p ->
  m_activeTxByThread p !! tid = Some name ->
  name <> "" ->
  exists p' closed,
    rollbackTransaction env tid (m, w)
    = (nat_rollback env w name,
       (set_pool (Some p') m,
        w ++ [EvRollback name] ++ map EvRemoveDatabase closed
          ++ (if nat_rollback env w name then [EvEmit transactionRolledBack] else [])))
    /\ m_activeTxByThread p' !! tid = None.
Proof.
  intros Hpool Hbound Hname. unfold rollbackTransaction. rewrite Hpool.
  pose proof (rollbackThreadTransaction_unbinds env tid (p, w)) as Hunbound.
  rewrite (rollbackThreadTransaction_bound env tid name p w Hbound Hname) in Hunbound |- *.
  set (taken := set_activeTx (delete tid (m_activeTxByThread p)) p) in *.
  pose proof (releaseConnection_world tid name (taken, w ++ [EvRollback name])) as Hw.
  destruct (cleanup_world (taken, w ++ [EvRollback name])) as (closed & Hclosed & _).
  rewrite Hclosed in Hw. cbn [snd] in Hw, Hunbound.
  destruct (releaseConnection tid name (taken, w ++ [EvRollback name])) as [p' w'].
  cbn [fst snd] in Hw, Hunbound. subst w'.
  exists p', closed. split; [|exact Hunbound].
  destruct (nat_rollback env w name); rewrite <- ?app_assoc; simpl;
    rewrite ?app_nil_r; reflexivity.
Qed.

(** After a successful begin the call returns what the operation gave and
    ends with the facade's commit or rollback on the state the operation
    left. *)
Lemma executeInTransaction_ends {E T : Type} (k : ReturnKind T) tid
    (operation : Manager * World -> Outcome E T * (Manager * World)) s s1 o s2 :
  beginTransaction env tid s = (true, s1) ->
  operation s1 = (o, s2) ->
  executeInTransaction env k tid operation s
  = (o,
     if match o with Returned result => wantsCommit k result | Threw _ => false end
     then snd (commitTransaction env tid s2)
     else snd (rollbackTransaction env tid s2)).
Proof.
  intros Hbegin Hop. unfold executeInTransaction. rewrite Hbegin. simpl.
  rewrite Hop. destruct o as [result|e]; reflexivity.
Qed.

End ExecuteInTransaction.

(** C8, as the code has it.  After a successful [beginTransaction],
    [executeInTransaction] runs the operation on the state the begin left
    and hands back what the operation gave: its result unchanged, or the
    exception it threw.  It ends with [commitTransaction] when the operation
    returned [true], a result whose [success] field is set, or a result of
    any other type, and with [rollbackTransaction] when the operation
    returned [false], a result whose [success] field is not set, or threw.
    What that last call does is decided by the state the operation left.
    On a manager with a pool the begin has bound the thread to a connection.
    If the thread is bound when the operation returns, the native commit
    (or rollback) is issued on the bound connection, right after the
    operation's own calls; the thread is unbound, and the signal is emitted
    when the native call succeeded.  If the thread is no longer bound,
    nothing is committed or rolled back and the state stays as the
    operation left it.  On a manager without a pool the native call goes to
    the main connection when that is open, and nothing happens otherwise. *)
Theorem executeInTransaction_after_begin
    (env : Native) (E T : Type) (k : ReturnKind T) (tid : string)
    (operation : Manager * World -> Outcome E T * (Manager * World))
    (s s1 s2 : Manager * World) (o : Outcome E T) :
  beginTransaction env tid s = (true, s1) ->
  operation s1 = (o, s2) ->
  let commits :=
    match o with Returned result => wantsCommit k result | Threw _ => false end in
  let final := snd (executeInTransaction env k tid operation s) in
  let main := connectionName (mgr_config (fst s2)) in
  fst (executeInTransaction env k tid operation s) = o
  /\ (forall result : bool, wantsCommit BoolResult result = result)
  /\ (forall (U : Type) (success : U -> bool) (dflt result : U),
        wantsCommit (SuccessField success dflt) result = success result)
  /\ (forall (U : Type) (dflt result : U), wantsCommit (PlainResult dflt) result = true)
  /\ (forall p, m_connectionPool (fst s) = Some p ->
        exists p1 name,
          m_connectionPool (fst s1) = Some p1
          /\ m_activeTxByThread p1 !! tid = Some name
          /\ name <> "")
  /\ (forall p2 name,
        m_connectionPool (fst s2) = Some p2 ->
        m_activeTxByThread p2 !! tid = Some name ->
        name <> "" ->
        let ok := if commits then nat_commit env (snd s2) name
                  else nat_rollback env (snd s2) name in
        exists p3 closed,
          final
          = (set_pool (Some p3) (fst s2),
             snd s2
               ++ [if commits then EvCommit name else EvRollback name]
               ++ map EvRemoveDatabase closed
               ++ (if ok
                   then [EvEmit (if commits then transactionCommitted
                                 else transactionRolledBack)]
                   else []))
          /\ m_activeTxByThread p3 !! tid = None)
  /\ (forall p2,
        m_connectionPool (fst s2) = Some p2 ->
        m_activeTxByThread p2 !! tid = None ->
        final = s2)
  /\ (m_connectionPool (fst s2) = None ->
      let ok := if commits then nat_commit env (snd s2) main
                else nat_rollback env (snd s2) main in
      final
      = if nat_isOpen env (snd s2) main
        then (fst s2,
              snd s2
                ++ [if commits then EvCommit main else EvRollback main]
                ++ (if ok
                    then [EvEmit (if commits then transactionCommitted
                                  else transactionRolledBack)]
                    else []))
        else s2).
Proof.
  intros Hbegin Hop. cbv zeta.
  rewrite (executeInTransaction_ends env k tid operation s s1 o s2 Hbegin Hop).
  cbn [fst snd].
  split; [reflexivity|]. split; [reflexivity|]. split; [reflexivity|].
  split; [reflexivity|].
  split.
  { intros p Hpool. destruct s as [m w].
    apply (beginTransaction_binds env tid m p w s1 Hpool Hbegin). }
  destruct s2 as [m2 w2]. cbn [fst snd].
  set (commits := match o with
                  | Returned result => wantsCommit k result
                  | Threw _ => false
                  end).
  split; [|split].
  - intros p2 name Hpool Hbound Hname. destruct commits.
    + destruct (commitTransaction_bound env tid name m2 p2 w2 Hpool Hbound Hname)
        as (p3 & closed & -> & Hunbound).
      exists p3, closed. split; [reflexivity|exact Hunbound].
    + destruct (rollbackTransaction_bound env tid name m2 p2 w2 Hpool Hbound Hname)
        as (p3 & closed & -> & Hunbound).
      exists p3, closed. split; [reflexivity|exact Hunbound].
  - intros p2 Hpool Hnone.
    destruct (end_without_binding env tid m2 p2 w2 Hpool Hnone) as [-> ->].
    destruct commits; reflexivity.
  - intros Hpool. unfold commitTransaction, rollbackTransaction. rewrite Hpool.
    destruct commits; destruct (nat_isOpen env w2 _); reflexivity.
Qed.

Lemma executeInTransaction_after_begin_witness :
  beginTransaction nativeOk "7" (newManager sampleConfig, [])
  = (true, snd (beginTransaction nativeOk "7" (newManager sampleConfig, [])))
  /\ (fun st : Manager * World => (@Returned string bool false, st))
       (snd (beginTransaction nativeOk "7" (newManager sampleConfig, [])))
     = (Returned false, snd (beginTransaction nativeOk "7" (newManager sampleConfig, [])))
  /\ fst (executeInTransaction (E := string) nativeOk BoolResult "7"
            (fun st => (Returned false, st)) (newManager sampleConfig, []))
     = Returned false
  /\ snd (snd (executeInTransaction (E := string) nativeOk BoolResult "7"
                 (fun st => (Returned false, st)) (newManager sampleConfig, [])))
     = [EvAddDatabase "db_7_1"; EvConfigure "db_7_1"; EvTransaction "db_7_1";
        EvEmit transactionBegin; EvRollback "db_7_1"; EvEmit transactionRolledBack].
Proof.
  split; [vm_compute; reflexivity|]. split; [reflexivity|].
  destruct (executeInTransaction_after_begin nativeOk string bool BoolResult "7"
              (fun st => (Returned false, st))
              (newManager sampleConfig, [])
              (snd (beginTransaction nativeOk "7" (newManager sampleConfig, [])))
              (snd (beginTransaction nativeOk "7" (newManager sampleConfig, [])))
              (Returned false))
    as (Hresult & _).
  - vm_compute; reflexivity.
  - reflexivity.
  - split; [exact Hresult|]. vm_compute; reflexivity.
Defined.

(** C8 as stated fails for an operation that ends the transaction itself.
    An operation that calls [rollbackTransaction] and returns [true] leaves
    the thread unbound: [executeInTransaction] returns [true], the trace
    holds the rollback and no commit.  In the same way an operation that
    calls [commitTransaction] and returns [false] has its transaction
    committed, and nothing is rolled back. *)
Lemma executeInTransaction_operation_ends_the_transaction :
  let s := (newManager sampleConfig, @nil Event) in
  let rollsBack := fun st : Manager * World =>
    (@Returned string bool true, snd (rollbackTransaction nativeOk "7" st)) in
  let commitsFirst := fun st : Manager * World =>
    (@Returned string bool false, snd (commitTransaction nativeOk "7" st)) in
  fst (beginTransaction nativeOk "7" s) = true
  /\ fst (executeInTransaction nativeOk BoolResult "7" rollsBack s) = Returned true
  /\ snd (snd (executeInTransaction nativeOk BoolResult "7" rollsBack s))
     = [EvAddDatabase "db_7_1"; EvConfigure "db_7_1"; EvTransaction "db_7_1";
        EvEmit transactionBegin; EvRollback "db_7_1"; EvEmit transactionRolledBack]
  /\ fst (executeInTransaction nativeOk BoolResult "7" commitsFirst s) = Returned false
  /\ snd (snd (executeInTransaction nativeOk BoolResult "7" commitsFirst s))
     = [EvAddDatabase "db_7_1"; EvConfigure "db_7_1"; EvTransaction "db_7_1";
        EvEmit transactionBegin; EvCommit "db_7_1"; EvEmit transactionCommitted].
Proof. cbv zeta. repeat split; vm_compute; reflexivity. Qed.

(** The binding is also gone when the begin was made at the address of a
    destroyed thread whose reference the pool still keeps: the first
    [acquireConnection] of the operation sweeps it.  The operation below
    returns [true] and no commit follows; the connection of the transaction
    stays in use, bound to no thread. *)
Lemma executeInTransaction_at_reused_address :
  let s := (mkManager sampleConfig (Some (fst afterThreadDied)) emptyStats,
            snd afterThreadDied) in
  let acquires := fun st : Manager * World =>
    match m_connectionPool (fst st) with
    | Some p =>
        let '(name, s1) := acquireConnection nativeOk "7" (p, snd st) in
        let '(p2, w2) := releaseConnection "7" name s1 in
        (@Returned string bool true, (set_pool (Some p2) (fst st), w2))
    | None => (Returned true, st)
    end in
  let final := snd (executeInTransaction nativeOk BoolResult "7" acquires s) in
  fst (beginTransaction nativeOk "7" s) = true
  /\ snd (snd (beginTransaction nativeOk "7" s))
     = snd s ++ [EvTransaction "db_7_1"; EvEmit transactionBegin]
  /\ snd final
     = snd s ++ [EvTransaction "db_7_1"; EvEmit transactionBegin;
                 EvAddDatabase "db_7_2"; EvConfigure "db_7_2"]
  /\ (exists p, m_connectionPool (fst final) = Some p
                /\ m_activeTxByThread p !! "7" = None
                /\ m_usedConnections p = {[ "db_7_1" ]}).
Proof.
  cbv zeta. split; [vm_compute; reflexivity|]. split; [vm_compute; reflexivity|].
  split; [vm_compute; reflexivity|].
  eexists. split; [vm_compute; reflexivity|].
  split; [vm_compute; reflexivity|]. vm_compute; reflexivity.
Qed.

(** C10. When [beginTransaction] fails, [executeInTransaction] returns at
    once: whatever the operation is, the result is [false] for a [bool]
    operation and the value-initialised [ReturnType{}] otherwise, and the
    state is the one the failed begin left, in which no commit and no
    rollback has been issued.  The caller cannot tell this from a failure of
    the operation: a run in which the begin succeeds and the operation
    itself returns that value hands back the same result, and for [bool]
    that value is the one that asks for a rollback. *)
Theorem executeInTransaction_begin_failure
    (env : Native) (tid : string) (s s1 : Manager * World) :
  beginTransaction env tid s = (false, s1) ->
  (forall (E T : Type) (k : ReturnKind T)
          (operation : Manager * World -> Outcome E T * (Manager * World)),
     executeInTransaction env k tid operation s = (Returned (valueInit k), s1))
  /\ (forall (E : Type)
             (operation : Manager * World -> Outcome E bool * (Manager * World)),
        fst (executeInTransaction env BoolResult tid operation s) = Returned false)
  /\ (exists evs,
        snd s1 = snd s ++ evs
        /\ forallb (fun ev => negb (isEndEvent ev)) evs = true)
  /\ (forall (E T : Type) (k : ReturnKind T)
             (operation : Manager * World -> Outcome E T * (Manager * World))
             s' s1' s2',
        beginTransaction env tid s' = (true, s1') ->
        operation s1' = (Returned (valueInit k), s2') ->
        fst (executeInTransaction env k tid operation s')
        = fst (executeInTransaction env k tid operation s))
  /\ wantsCommit BoolResult (valueInit BoolResult) = false.
Proof.
  intros Hbegin.
  assert (Hfail : forall (E T : Type) (k : ReturnKind T)
            (operation : Manager * World -> Outcome E T * (Manager * World)),
            executeInTransaction env k tid operation s = (Returned (valueInit k), s1)).
  { intros E T k operation. unfold executeInTransaction. rewrite Hbegin. reflexivity. }
  split; [exact Hfail|].
  split; [intros E operation; rewrite Hfail; reflexivity|].
  split.
  { pose proof (beginTransaction_trace env tid s) as Htrace.
    rewrite Hbegin in Htrace. exact Htrace. }
  split; [|reflexivity].
  intros E T k operation s' s1' s2' Hbegin' Hop.
  rewrite Hfail. unfold executeInTransaction. rewrite Hbegin', Hop. reflexivity.
Qed.

Lemma executeInTransaction_begin_failure_witness :
  beginTransaction nativeNoBegin "7" (newManager sampleConfig, [])
  = (false, snd (beginTransaction nativeNoBegin "7" (newManager sampleConfig, [])))
  /\ executeInTransaction (E := string) nativeNoBegin BoolResult "7"
       (fun st => (Returned true, st)) (newManager sampleConfig, [])
     = (Returned false,
        snd (beginTransaction nativeNoBegin "7" (newManager sampleConfig, []))).
Proof.
  split; [vm_compute; reflexivity|].
  destruct (executeInTransaction_begin_failure nativeNoBegin "7"
              (newManager sampleConfig, [])
              (snd (beginTransaction nativeNoBegin "7" (newManager sampleConfig, []))))
    as (H & _).
  - vm_compute; reflexivity.
  - apply (H string bool BoolResult).
Defined.

(** ** optimizeDatabase *)

Lemma idleNames_spec (a : gmap string (list string)) n :
  n ∈ idleNames a <-> exists t q, a !! t = Some q /\ n ∈ q.
Proof.
  unfold idleNames. rewrite list_elem_of_In, in_concat. split.
  - intros (q & Hq & Hn). apply in_map_iff in Hq as ([t q'] & <- & Htq).
    exists t, q'. split.
    + apply elem_of_map_to_list, list_elem_of_In, Htq.
    + apply list_elem_of_In, Hn.
  - intros (t & q & Htq & Hn). exists q. split; [|apply list_elem_of_In, Hn].
    apply in_map_iff. exists (t, q). split; [reflexivity|].
    apply list_elem_of_In, elem_of_map_to_list, Htq.
Qed.

(** C6, as the code has it.  [optimizeDatabase] returns [false] at once,
    touching nothing, when the main connection is not open.  When it is
    open (and the manager owns its pool), every idle pooled connection is
    closed first and every idle queue left empty.  If a pooled connection is
    then still in use the call returns [false] and nothing else has been
    executed.  Otherwise the WAL checkpoint (only with [enableWAL]), then
    VACUUM, then ANALYZE are executed on the main connection, each once and
    in this order, each followed by its [recordQueryStats]; the call returns
    [true] exactly when VACUUM and ANALYZE both succeeded, whatever the
    checkpoint did. *)
Theorem optimizeDatabase_effect
    (env : Native) (m : Manager) (p : Pool) (w : World) :
  m_connectionPool m = Some p ->
  let main := connectionName (mgr_config m) in
  let closing := idleNames (m_availableByThread p) in
  let w1 := w ++ map EvRemoveDatabase closing in
  let p1 := set_available ((fun _ => []) <$> m_availableByThread p) p in
  (nat_isOpen env w main = false ->
     optimizeDatabase env (m, w) = (false, (m, w)))
  /\ (nat_isOpen env w main = true ->
      (forall n, n ∈ closing <->
         exists t q, m_availableByThread p !! t = Some q /\ n ∈ q)
      /\ availableCount p1 = 0
      /\ (m_usedConnections p <> ∅ ->
          optimizeDatabase env (m, w) = (false, (set_pool (Some p1) m, w1)))
      /\ (m_usedConnections p = ∅ ->
          let checkpoint := "PRAGMA wal_checkpoint(TRUNCATE)" in
          let w2 := if enableWAL (mgr_config m)
                    then w1 ++ [EvExec main checkpoint] else w1 in
          let stats2 :=
            if enableWAL (mgr_config m)
            then recordQueryStats (nat_exec env w1 main checkpoint)
                   (inject_Z (nat_elapsed env w2)) (m_stats m)
            else m_stats m in
          let w3 := w2 ++ [EvExec main "VACUUM"] in
          let vacuumOk := nat_exec env w2 main "VACUUM" in
          let w4 := w3 ++ [EvExec main "ANALYZE"] in
          let analyzeOk := nat_exec env w3 main "ANALYZE" in
          optimizeDatabase env (m, w)
          = (vacuumOk && analyzeOk,
             (set_stats
                (recordQueryStats analyzeOk (inject_Z (nat_elapsed env w4))
                   (recordQueryStats vacuumOk (inject_Z (nat_elapsed env w3)) stats2))
                (set_pool (Some p1) m),
              w4)))).
Proof.
  intros Hpool. cbv zeta. split.
  { intros Hclosed. unfold optimizeDatabase. rewrite Hclosed. reflexivity. }
  intros Hopen. split; [apply idleNames_spec|].
  split; [apply queueSum_clear|].
  assert (Hactive : bool_decide (0 < usedCount
            (set_available ((fun _ : list string => @nil string) <$> m_availableByThread p) p))
          = bool_decide (m_usedConnections p <> ∅)).
  { apply bool_decide_ext. unfold usedCount. simpl. split.
    - intros Hpos Hempty. rewrite Hempty, size_empty in Hpos. lia.
    - intros Hne. destruct (size (m_usedConnections p)) eqn:Hsize; [|lia].
      exfalso. apply Hne, leibniz_equiv, size_empty_inv, Hsize. }
  split.
  - intros Hused. unfold optimizeDatabase. rewrite Hopen, Hpool. simpl.
    rewrite Hactive, bool_decide_eq_true_2 by exact Hused. reflexivity.
  - intros Hnone. unfold optimizeDatabase. rewrite Hopen, Hpool. simpl.
    rewrite Hactive, bool_decide_eq_false_2 by (intros H; apply H, Hnone).
    destruct (enableWAL (mgr_config m)); reflexivity.
Qed.

(** A manager without a pool (between [close()] and [initialize()]) has no
    pooled connection to close or to wait for: with the main connection
    open the maintenance statements run at once. *)
Lemma optimizeDatabase_without_pool (env : Native) (m : Manager) (w : World) :
  m_connectionPool m = None ->
  nat_isOpen env w (connectionName (mgr_config m)) = true ->
  snd (snd (optimizeDatabase env (m, w)))
  = w ++ (if enableWAL (mgr_config m)
          then [EvExec (connectionName (mgr_config m)) "PRAGMA wal_checkpoint(TRUNCATE)"]
          else [])
      ++ [EvExec (connectionName (mgr_config m)) "VACUUM";
          EvExec (connectionName (mgr_config m)) "ANALYZE"].
Proof.
  intros Hpool Hopen. unfold optimizeDatabase. rewrite Hopen, Hpool. simpl.
  destruct (enableWAL (mgr_config m)); simpl.
  - rewrite <- !app_assoc. reflexivity.
  - rewrite <- !app_assoc. reflexivity.
Qed.

Lemma optimizeDatabase_effect_witness :
  let s := run nativeOk [OpAcquire "7"; OpRelease "7" "db_7_1"] freshPool in
  nat_isOpen nativeOk (snd s) "db" = true
  /\ m_usedConnections (fst s) = ∅
  /\ fst (optimizeDatabase nativeOk
            (mkManager sampleConfig (Some (fst s)) emptyStats, snd s)) = true
  /\ snd (snd (optimizeDatabase nativeOk
                 (mkManager sampleConfig (Some (fst s)) emptyStats, snd s)))
     = snd s ++ [EvRemoveDatabase "db_7_1";
                 EvExec "db" "PRAGMA wal_checkpoint(TRUNCATE)";
                 EvExec "db" "VACUUM"; EvExec "db" "ANALYZE"].
Proof.
  cbv zeta. split; [reflexivity|]. split; [vm_compute; reflexivity|].
  destruct (optimizeDatabase_effect nativeOk
              (mkManager sampleConfig
                 (Some (fst (run nativeOk [OpAcquire "7"; OpRelease "7" "db_7_1"] freshPool)))
                 emptyStats)
              (fst (run nativeOk [OpAcquire "7"; OpRelease "7" "db_7_1"] freshPool))
              (snd (run nativeOk [OpAcquire "7"; OpRelease "7" "db_7_1"] freshPool))
              eq_refl) as (_ & H).
  destruct (H eq_refl) as (_ & _ & _ & Hrun).
  rewrite Hrun by (vm_compute; reflexivity).
  split; vm_compute; reflexivity.
Defined.

(** C6 as stated fails: with the main connection not open, the idle pooled
    connection is not closed and, although no pooled connection is in use,
    neither VACUUM nor ANALYZE is executed: the call returns [false] and
    leaves everything as it was. *)
Lemma optimizeDatabase_on_closed_database :
  let s := run nativeMainClosed [OpAcquire "7"; OpRelease "7" "db_7_1"] freshPool in
  let m := mkManager sampleConfig (Some (fst s)) emptyStats in
  m_availableByThread (fst s) !! "7" = Some ["db_7_1"]
  /\ m_usedConnections (fst s) = ∅
  /\ nat_exec nativeMainClosed (snd s) "db" "VACUUM" = true
  /\ nat_exec nativeMainClosed (snd s) "db" "ANALYZE" = true
  /\ optimizeDatabase nativeMainClosed (m, snd s) = (false, (m, snd s)).
Proof. cbv zeta. repeat split; vm_compute; reflexivity. Qed.

(** * Further properties *)

(** ** What takeOrCreate does, case by case *)

Lemma connectionNameOf_nonempty config tid c : connectionNameOf config tid c <> "".
Proof.
  unfold connectionNameOf. destruct (connectionName config); discriminate.
Qed.

Lemma takeOrCreate_unfold (env : Native) tid p w :
  takeOrCreate env tid (p, w)
  = let p1 := set_available (subscript tid (m_availableByThread p)) p in
    match queueOf tid (m_availableByThread p) with
    | name :: rest =>
        (name,
         (set_used ({[name]} ∪ m_usedConnections p)
            (set_available (<[tid := rest]> (subscript tid (m_availableByThread p))) p1),
          w))
    | [] =>
        if bool_decide (maxConnections (m_config p) <= usedCount p + availableCount p)
        then ("", (p1, w))
        else
          let counter := wrap32 (m_connectionCounter p + 1) in
          let fresh := connectionNameOf (m_config p) tid counter in
          let p2 := set_counter counter p1 in
          if nat_open env (w ++ [EvAddDatabase fresh]) fresh
          then (fresh,
                (set_used ({[fresh]} ∪ m_usedConnections p)
                   (set_owner (<[fresh := tid]> (m_connOwner p)) p2),
                 (w ++ [EvAddDatabase fresh]) ++ [EvConfigure fresh]))
          else ("", (p2, (w ++ [EvAddDatabase fresh]) ++ [EvRemoveDatabase fresh]))
    end.
Proof.
  unfold takeOrCreate. simpl. rewrite queueOf_subscript.
  destruct (queueOf tid (m_availableByThread p)) as [|name rest]; [|reflexivity].
  assert (Htotal : totalConnectionsUnsafe
                     (set_available (subscript tid (m_availableByThread p)) p)
                   = usedCount p + availableCount p).
  { rewrite total_split. unfold usedCount, availableCount. simpl.
    rewrite queueSum_subscript. reflexivity. }
  rewrite Htotal.
  case_bool_decide; [reflexivity|].
  unfold createConnectionInCurrentThread. simpl.
  destruct (nat_open env _ _); cbn iota beta.
  - rewrite bool_decide_eq_false_2 by apply connectionNameOf_nonempty. reflexivity.
  - rewrite bool_decide_eq_true_2 by reflexivity. reflexivity.
Qed.

Lemma acquireConnection_unfold (env : Native) tid s :
  acquireConnection env tid s
  = let swept := cleanupFinishedThreads s in
    let p := set_threadRefs (<[tid := RefLive]> (m_threadRefs (fst swept))) (fst swept) in
    match m_activeTxByThread (fst swept) !! tid with
    | Some name => (name, (p, snd swept))
    | None => takeOrCreate env tid (p, snd swept)
    end.
Proof.
  unfold acquireConnection. destruct (cleanupFinishedThreads s) as [p w]. reflexivity.
Qed.

Lemma queueOf_cons tid (a : gmap string (list string)) n rest :
  queueOf tid a = n :: rest -> a !! tid = Some (n :: rest).
Proof.
  unfold queueOf. destruct (a !! tid) as [q|]; simpl; [congruence|discriminate].
Qed.

(** ** Thread affinity of the connections handed out *)

Lemma acquireConnection_owned (env : Native) tid s :
  consistent (fst s) ->
  fst (acquireConnection env tid s) <> "" ->
  m_connOwner (fst (snd (acquireConnection env tid s))) !! fst (acquireConnection env tid s)
  = Some tid
  /\ (fst (acquireConnection env tid s)
       ∈ m_usedConnections (fst (snd (acquireConnection env tid s))))
  /\ (exists c, fst (acquireConnection env tid s)
                 = connectionNameOf (m_config (fst s)) tid c)
  /\ m_threadRefs (fst (snd (acquireConnection env tid s))) !! tid = Some RefLive.
Proof.
  intros Hcons.
  pose proof (cleanup_consistent s Hcons) as (_ & Ho & _ & Hq & Htx).
  destruct (cleanup_frame s) as (Hcfg & _).
  rewrite acquireConnection_unfold. cbv zeta.
  destruct (cleanupFinishedThreads s) as [p w]. simpl in *. rewrite <- Hcfg.
  destruct (m_activeTxByThread p !! tid) as [name|] eqn:Hb.
  - simpl. intros _. destruct (Htx tid name Hb) as [Hown Hin].
    split; [exact Hown|]. split; [exact Hin|]. split; [|apply lookup_insert_eq].
    destruct (Ho name tid Hown) as (c & Hc & _). eauto.
  - rewrite takeOrCreate_unfold. cbv zeta. simpl.
    destruct (queueOf tid (m_availableByThread p)) as [|name rest] eqn:Hqueue.
    + case_bool_decide; [simpl; congruence|].
      destruct (nat_open env _ _); simpl; [intros _|congruence].
      split; [apply lookup_insert_eq|].
      split; [apply elem_of_union_l, elem_of_singleton; reflexivity|].
      split; [eauto|apply lookup_insert_eq].
    + simpl. intros _. apply queueOf_cons in Hqueue.
      destruct (Hq tid _ Hqueue) as [_ Hmem].
      destruct (Hmem name ltac:(left)) as [Hown _].
      split; [exact Hown|].
      split; [apply elem_of_union_l, elem_of_singleton; reflexivity|].
      split; [|apply lookup_insert_eq].
      destruct (Ho name tid Hown) as (c & Hc & _). eauto.
Qed.

(** X1 ([ConnectionPool::acquireConnection], [createConnectionInCurrentThread]).
    In a state the pool can reach, a connection that [acquireConnection]
    hands to a thread is recorded as owned by that thread and is in the
    in-use set, and the thread is left with a live reference. *)
Theorem acquireConnection_thread_affinity
    (env : Native) (tid : string) (s : Pool * World) :
  reachable env s ->
  fst (acquireConnection env tid s) <> "" ->
  let name := fst (acquireConnection env tid s) in
  let p' := fst (snd (acquireConnection env tid s)) in
  m_connOwner p' !! name = Some tid
  /\ (name ∈ m_usedConnections p')
  /\ m_threadRefs p' !! tid = Some RefLive.
Proof.
  intros Hreach Hname. cbv zeta.
  destruct (acquireConnection_owned env tid s
              (reachable_consistent env s Hreach) Hname)
    as (Hown & Hin & _ & Hlive).
  auto.
Qed.

Lemma acquireConnection_thread_affinity_witness :
  let s := run nativeOk [OpAcquire "7"; OpRelease "7" "db_7_1"; OpAcquire "8"] freshPool in
  reachable nativeOk s
  /\ fst (acquireConnection nativeOk "7" s) = "db_7_1"
  /\ m_connOwner (fst (snd (acquireConnection nativeOk "7" s))) !! "db_7_1" = Some "7".
Proof.
  cbv zeta.
  assert (Hreach : reachable nativeOk
            (run nativeOk [OpAcquire "7"; OpRelease "7" "db_7_1"; OpAcquire "8"] freshPool)).
  { exists sampleConfig, [OpAcquire "7"; OpRelease "7" "db_7_1"; OpAcquire "8"].
    split; [simpl; lia|reflexivity]. }
  split; [exact Hreach|].
  assert (Hname : fst (acquireConnection nativeOk "7"
            (run nativeOk [OpAcquire "7"; OpRelease "7" "db_7_1"; OpAcquire "8"] freshPool))
            = "db_7_1") by (vm_compute; reflexivity).
  split; [exact Hname|].
  pose proof (acquireConnection_thread_affinity nativeOk "7" _ Hreach) as H.
  cbv zeta in H. rewrite Hname in H. apply H. discriminate.
Defined.

(** ** No connection is handed out twice *)

(** The name the next [createConnectionInCurrentThread] will use is unknown
    to the pool. *)
Lemma fresh_name_unknown p tid :
  consistent p ->
  m_connectionCounter p + 1 < 2 ^ 31 ->
  m_connOwner p !! connectionNameOf (m_config p) tid (wrap32 (m_connectionCounter p + 1))
  = None.
Proof.
  intros (Hc & Ho & _) Hbound.
  destruct (m_connOwner p !! _) as [t|] eqn:Hl; [|reflexivity].
  destruct (Ho _ t Hl) as (c & Hn & Hk).
  apply connectionNameOf_counter in Hn.
  rewrite wrap32_small in Hn by lia. lia.
Qed.

(** In a consistent pool every tracked name has an owner. *)
Lemma consistent_idle_owner p t q n :
  consistent p -> m_availableByThread p !! t = Some q -> n ∈ q ->
  m_connOwner p !! n = Some t /\ n ∉ m_usedConnections p.
Proof. intros (_ & _ & _ & Hq & _) Hl Hin. apply (Hq t q Hl), Hin. Qed.

Lemma acquireConnection_consistent (env : Native) tid s :
  consistent (fst s) ->
  m_connectionCounter (fst s) + 1 < 2 ^ 31 ->
  consistent (fst (snd (acquireConnection env tid s))).
Proof.
  intros Hcons Hbound.
  apply (step_consistent env (OpAcquire tid) s Hcons Hbound).
Qed.

(** X2 ([ConnectionPool::acquireConnection]).  In a state the pool can reach
    and with the counter below [INT_MAX], when the calling thread holds no
    transaction once the sweep is done, the connection [acquireConnection]
    returns was not in use before the call and, after it, is bound to no
    thread's transaction and waits in no idle queue: nobody else can be
    given it until it is released. *)
Theorem acquireConnection_exclusive
    (env : Native) (tid : string) (s : Pool * World) :
  reachable env s ->
  m_connectionCounter (fst s) + 1 < 2 ^ 31 ->
  m_activeTxByThread (fst (cleanupFinishedThreads s)) !! tid = None ->
  fst (acquireConnection env tid s) <> "" ->
  let name := fst (acquireConnection env tid s) in
  let p' := fst (snd (acquireConnection env tid s)) in
  (name ∉ m_usedConnections (fst s))
  /\ (forall t, m_activeTxByThread p' !! t <> Some name)
  /\ (forall t q, m_availableByThread p' !! t = Some q -> name ∉ q).
Proof.
  intros Hreach Hbound Hfree Hname. cbv zeta.
  pose proof (reachable_consistent env s Hreach) as Hcons.
  pose proof (acquireConnection_consistent env tid s Hcons Hbound) as Hafter.
  pose proof (acquireConnection_owned env tid s Hcons Hname) as (_ & Hused & _).
  assert (Hbefore : (fst (acquireConnection env tid s) ∉ m_usedConnections (fst s))
                    /\ m_activeTxByThread (fst (snd (acquireConnection env tid s)))
                       = m_activeTxByThread (fst (cleanupFinishedThreads s))).
  { pose proof (cleanup_consistent s Hcons) as Hsw.
    destruct (cleanup_frame s) as (Hcfg & Hu & Hcnt & _).
    revert Hname. rewrite acquireConnection_unfold. cbv zeta.
    destruct (cleanupFinishedThreads s) as [p w]. simpl in *.
    rewrite Hfree, takeOrCreate_unfold. cbv zeta. simpl. rewrite <- Hu.
    destruct (queueOf tid (m_availableByThread p)) as [|name rest] eqn:Hqueue.
    - case_bool_decide; [simpl; congruence|].
      destruct (nat_open env _ _); simpl; [intros _|congruence].
      split; [|reflexivity]. intros Hin.
      destruct (proj1 (proj2 (proj2 Hsw)) _ Hin) as [t Hown].
      rewrite (fresh_name_unknown p tid Hsw) in Hown; [discriminate|lia].
    - simpl. intros _. split; [|reflexivity]. apply queueOf_cons in Hqueue.
      apply (consistent_idle_owner p tid _ name Hsw Hqueue). left. }
  destruct Hbefore as [Hout Htx]. split; [exact Hout|]. split.
  - intros t Hb. destruct Hafter as (_ & _ & _ & _ & Hbind).
    destruct (Hbind t _ Hb) as [_ Hin].
    rewrite Htx in Hb.
    pose proof (cleanup_consistent s Hcons) as (_ & _ & _ & _ & Hbind').
    destruct (Hbind' t _ Hb) as [_ Hin'].
    rewrite (proj1 (proj2 (cleanup_frame s))) in Hin'. contradiction.
  - intros t q Hl Hin.
    destruct (consistent_idle_owner _ t q _ Hafter Hl Hin) as [_ Hnot].
    contradiction.
Qed.

Lemma acquireConnection_exclusive_witness :
  let s := run nativeOk [OpAcquire "7"] freshPool in
  reachable nativeOk s
  /\ fst (acquireConnection nativeOk "7" s) = "db_7_2"
  /\ ("db_7_1" ∈ m_usedConnections (fst s))
  /\ (fst (acquireConnection nativeOk "7" s) ∉ m_usedConnections (fst s)).
Proof.
  cbv zeta.
  assert (Hreach : reachable nativeOk (run nativeOk [OpAcquire "7"] freshPool)).
  { exists sampleConfig, [OpAcquire "7"]. split; [simpl; lia|reflexivity]. }
  split; [exact Hreach|]. split; [vm_compute; reflexivity|].
  split; [vm_compute; reflexivity|].
  apply (acquireConnection_exclusive nativeOk "7" _ Hreach).
  - vm_compute; reflexivity.
  - vm_compute; reflexivity.
  - vm_compute; discriminate.
Defined.

(** ** When acquireConnection fails *)

(** X3 ([ConnectionPool::acquireConnection], [totalConnectionsUnsafe]).
    [acquireConnection] returns the empty name exactly when, after the
    sweep, the thread has no transaction bound, its idle queue is empty, and
    either the pool is at its cap or the native layer does not open the new
    connection.  When it fails at the cap, nothing is asked of the native
    layer beyond the sweep, and the in-use set and the counter are as they
    were. *)
Theorem acquireConnection_fails_iff
    (env : Native) (tid : string) (s : Pool * World) :
  reachable env s ->
  let swept := cleanupFinishedThreads s in
  let fresh := connectionNameOf (m_config (fst s)) tid
                 (wrap32 (m_connectionCounter (fst s) + 1)) in
  let atCap := maxConnections (m_config (fst s))
               <= usedCount (fst swept) + availableCount (fst swept) in
  (fst (acquireConnection env tid s) = ""
   <-> m_activeTxByThread (fst swept) !! tid = None
       /\ queueOf tid (m_availableByThread (fst swept)) = []
       /\ (atCap \/ nat_open env (snd swept ++ [EvAddDatabase fresh]) fresh = false))
  /\ (m_activeTxByThread (fst swept) !! tid = None ->
      queueOf tid (m_availableByThread (fst swept)) = [] ->
      atCap ->
      snd (snd (acquireConnection env tid s)) = snd swept
      /\ m_usedConnections (fst (snd (acquireConnection env tid s)))
         = m_usedConnections (fst s)
      /\ m_connectionCounter (fst (snd (acquireConnection env tid s)))
         = m_connectionCounter (fst s)).
Proof.
  intros Hreach. cbv zeta.
  pose proof (cleanup_namesNonEmpty s (reachable_namesNonEmpty env s Hreach))
    as (Hbn & _ & Hqn).
  destruct (cleanup_frame s) as (Hcfg & Hu & Hcnt & _).
  rewrite acquireConnection_unfold. cbv zeta.
  destruct (cleanupFinishedThreads s) as [p w]. simpl in *.
  rewrite <- Hcfg, <- Hu, <- Hcnt.
  destruct (m_activeTxByThread p !! tid) as [name|] eqn:Hb.
  { split; [|discriminate]. simpl. split.
    - intros ->. exfalso. apply (Hbn tid "" Hb). reflexivity.
    - intros [Hnone _]. discriminate. }
  rewrite takeOrCreate_unfold. cbv zeta. simpl.
  unfold usedCount, availableCount. simpl.
  destruct (queueOf tid (m_availableByThread p)) as [|name rest] eqn:Hqueue.
  - case_bool_decide as Hcap.
    + simpl. split; [|auto]. split; [auto|]. reflexivity.
    + destruct (nat_open env _ _) eqn:Hopen; simpl.
      * split; [|intros _ _ Hcap'; contradiction]. split.
        -- intros Hempty. exfalso. exact (connectionNameOf_nonempty _ _ _ Hempty).
        -- intros (_ & _ & [Hcap'|Hclosed]); [contradiction|discriminate].
      * split; [|intros _ _ Hcap'; contradiction]. split; [auto|reflexivity].
  - split; [|discriminate]. simpl. split.
    + intros ->. exfalso. apply queueOf_cons in Hqueue.
      apply (Hqn tid _ "" Hqueue); [left|reflexivity].
    + intros (_ & Hnil & _). discriminate.
Qed.

Lemma acquireConnection_fails_iff_witness :
  let s := run nativeOk [OpAcquire "7"; OpAcquire "8"; OpRelease "8" "db_8_2"] freshPool in
  reachable nativeOk s
  /\ m_availableByThread (fst s) !! "8" = Some ["db_8_2"]
  /\ fst (acquireConnection nativeOk "9" s) = "".
Proof.
  cbv zeta.
  assert (Hreach : reachable nativeOk
            (run nativeOk [OpAcquire "7"; OpAcquire "8"; OpRelease "8" "db_8_2"] freshPool)).
  { exists sampleConfig, [OpAcquire "7"; OpAcquire "8"; OpRelease "8" "db_8_2"].
    split; [simpl; lia|reflexivity]. }
  split; [exact Hreach|]. split; [vm_compute; reflexivity|].
  destruct (acquireConnection_fails_iff nativeOk "9" _ Hreach) as [Hiff _].
  cbv zeta in Hiff. apply Hiff.
  split; [vm_compute; reflexivity|]. split; [vm_compute; reflexivity|].
  left. vm_compute. discriminate.
Defined.

(** ** Releasing and acquiring again *)

Lemma queueOf_insert tid (a : gmap string (list string)) q :
  queueOf tid (<[tid := q]> a) = q.
Proof. unfold queueOf. rewrite lookup_insert_eq. reflexivity. Qed.

(** X4 ([ConnectionPool::releaseConnection], [acquireConnection]).  A
    connection released by the thread that acquired it leaves the in-use
    set and joins the back of that thread's idle queue, with no native
    call.  The thread's next [acquireConnection] opens nothing: it returns
    the connection at the front of that queue, which is the released one
    when nothing else was waiting. *)
Theorem release_then_acquire_reuses
    (env : Native) (tid name : string) (s s1 : Pool * World) :
  reachable env s ->
  acquireConnection env tid s = (name, s1) ->
  name <> "" ->
  m_activeTxByThread (fst s1) !! tid = None ->
  let waiting := queueOf tid (m_availableByThread (fst s1)) in
  let s2 := releaseConnection tid name s1 in
  m_usedConnections (fst s2) = m_usedConnections (fst s1) ∖ {[name]}
  /\ m_availableByThread (fst s2) !! tid = Some (waiting ++ [name])
  /\ snd s2 = snd s1
  /\ fst (acquireConnection env tid s2) = hd name waiting
  /\ snd (snd (acquireConnection env tid s2)) = snd s1.
Proof.
  intros Hreach Hacq Hname Hfree. cbv zeta.
  pose proof (acquireConnection_owned env tid s (reachable_consistent env s Hreach))
    as Haff.
  pose proof (proj2 (acquireConnection_sweepsFirst env tid s)) as Hno.
  rewrite Hacq in Haff, Hno. simpl in Haff, Hno.
  destruct (Haff Hname) as (Hown & Hin & _ & Hlive).
  assert (Hrel : releaseConnection tid name s1
                 = (set_available
                      (<[tid := queueOf tid (m_availableByThread (fst s1)) ++ [name]]>
                         (m_availableByThread (fst s1)))
                      (set_used (m_usedConnections (fst s1) ∖ {[name]}) (fst s1)),
                    snd s1)).
  { rewrite releaseConnection_requeues.
    - rewrite (cleanup_id s1 Hno), Hown. reflexivity.
    - exact Hin.
    - rewrite (cleanup_id s1 Hno), Hown. simpl. rewrite Hfree. simpl. congruence. }
  rewrite Hrel. simpl.
  split; [reflexivity|]. split; [apply lookup_insert_eq|]. split; [reflexivity|].
  rewrite acquireConnection_unfold. cbv zeta.
  rewrite cleanup_id by exact Hno. simpl. rewrite Hfree.
  rewrite takeOrCreate_unfold. cbv zeta. simpl.
  rewrite queueOf_insert.
  destruct (queueOf tid (m_availableByThread (fst s1))) as [|n rest]; simpl; auto.
Qed.

Lemma release_then_acquire_reuses_witness :
  let s := run nativeOk [OpAcquire "8"] freshPool in
  reachable nativeOk s
  /\ fst (acquireConnection nativeOk "7" s) = "db_7_2"
  /\ fst (acquireConnection nativeOk "7"
            (releaseConnection "7" "db_7_2" (snd (acquireConnection nativeOk "7" s))))
     = "db_7_2".
Proof.
  cbv zeta.
  assert (Hreach : reachable nativeOk (run nativeOk [OpAcquire "8"] freshPool)).
  { exists sampleConfig, [OpAcquire "8"]. split; [simpl; lia|reflexivity]. }
  split; [exact Hreach|]. split; [vm_compute; reflexivity|].
  destruct (release_then_acquire_reuses nativeOk "7" "db_7_2"
              (run nativeOk [OpAcquire "8"] freshPool)
              (snd (acquireConnection nativeOk "7" (run nativeOk [OpAcquire "8"] freshPool)))
              Hreach) as (_ & _ & _ & H & _).
  - vm_compute; reflexivity.
  - discriminate.
  - vm_compute; reflexivity.
  - rewrite H. vm_compute; reflexivity.
Defined.

(** ** Idle connections, counted and closed *)

Lemma queueSum_idleNames (a : gmap string (list string)) :
  queueSum a = Z.of_nat (length (idleNames a)).
Proof.
  unfold queueSum, idleNames. rewrite map_fold_foldr.
  induction (map_to_list a) as [|[k q] l IH]; [reflexivity|].
  simpl. rewrite IH, length_app. lia.
Qed.

Lemma NoDup_concat_queues (l : list (string * list string)) :
  NoDup l.*1 ->
  (forall k q, (k, q) ∈ l -> NoDup q) ->
  (forall k q k' q' n, (k, q) ∈ l -> (k', q') ∈ l -> n ∈ q -> n ∈ q' -> k = k') ->
  NoDup (concat (map snd l)).
Proof.
  induction l as [|[k q] l IH]; intros Hkeys Hq Hdisj; [constructor|].
  simpl in *. apply NoDup_cons in Hkeys as [Hk Hkeys].
  apply NoDup_app. split; [apply (Hq k q); left|]. split.
  - intros n Hn Hn'. apply list_elem_of_In, in_concat in Hn' as (q' & Hq' & Hn').
    apply in_map_iff in Hq' as ([k' q''] & <- & Hkq).
    apply list_elem_of_In in Hkq, Hn'. simpl in Hn'.
    assert (k = k').
    { apply (Hdisj k q k' q'' n); [left|right; exact Hkq|exact Hn|exact Hn']. }
    subst k'. apply Hk. apply list_elem_of_fmap. exists (k, q''). auto.
  - apply IH; [exact Hkeys| |].
    + intros k' q' Hin. apply (Hq k' q'). right. exact Hin.
    + intros k1 q1 k2 q2 n H1 H2. apply (Hdisj k1 q1 k2 q2 n); right; assumption.
Qed.

(** In a consistent pool no name is idle twice. *)
Lemma consistent_idle_NoDup p :
  consistent p -> NoDup (idleNames (m_availableByThread p)).
Proof.
  intros Hcons. unfold idleNames. apply NoDup_concat_queues.
  - apply NoDup_fst_map_to_list.
  - intros k q Hin. apply elem_of_map_to_list in Hin.
    destruct Hcons as (_ & _ & _ & Hq & _). apply (Hq k q Hin).
  - intros k q k' q' n Hin Hin' Hn Hn'.
    apply elem_of_map_to_list in Hin, Hin'.
    destruct (consistent_idle_owner p k q n Hcons Hin Hn) as [Hown _].
    destruct (consistent_idle_owner p k' q' n Hcons Hin' Hn') as [Hown' _].
    congruence.
Qed.

Lemma consistent_idle_not_used p n :
  consistent p -> n ∈ idleNames (m_availableByThread p) -> n ∉ m_usedConnections p.
Proof.
  intros Hcons Hin. apply idleNames_spec in Hin as (t & q & Hl & Hin).
  apply (consistent_idle_owner p t q n Hcons Hl Hin).
Qed.

(** X5 ([ConnectionPool::forceCloseIdleConnections], [availableCount]).  In a
    state the pool can reach, [forceCloseIdleConnections] returns the number
    of idle connections, removes each idle connection from the native layer
    exactly once and nothing else, touches no connection in use, and leaves
    every thread's queue in place but empty. *)
Theorem forceCloseIdleConnections_closes_each_idle_once
    (env : Native) (s : Pool * World) :
  reachable env s ->
  let closed := idleNames (m_availableByThread (fst s)) in
  let r := forceCloseIdleConnections s in
  fst r = availableCount (fst s)
  /\ snd (snd r) = snd s ++ map EvRemoveDatabase closed
  /\ NoDup closed
  /\ (forall n, n ∈ closed <->
        exists t q, m_availableByThread (fst s) !! t = Some q /\ n ∈ q)
  /\ (forall n, n ∈ closed -> n ∉ m_usedConnections (fst s))
  /\ availableCount (fst (snd r)) = 0
  /\ m_usedConnections (fst (snd r)) = m_usedConnections (fst s)
  /\ (forall t, m_availableByThread (fst (snd r)) !! t
                = (fun _ => []) <$> m_availableByThread (fst s) !! t).
Proof.
  intros Hreach. pose proof (reachable_consistent env s Hreach) as Hcons.
  destruct s as [p w]. cbv zeta. simpl.
  split; [symmetry; apply queueSum_idleNames|]. split; [reflexivity|].
  split; [apply consistent_idle_NoDup, Hcons|].
  split; [apply idleNames_spec|].
  split; [intros n; apply consistent_idle_not_used, Hcons|].
  split; [apply queueSum_clear|]. split; [reflexivity|].
  intros t. apply lookup_fmap.
Qed.

Lemma forceCloseIdleConnections_closes_each_idle_once_witness :
  let s := run nativeOk [OpAcquire "7"; OpAcquire "8"; OpRelease "8" "db_8_2"] freshPool in
  reachable nativeOk s
  /\ fst (forceCloseIdleConnections s) = 1
  /\ snd (snd (forceCloseIdleConnections s)) = snd s ++ [EvRemoveDatabase "db_8_2"].
Proof.
  cbv zeta.
  assert (Hreach : reachable nativeOk
            (run nativeOk [OpAcquire "7"; OpAcquire "8"; OpRelease "8" "db_8_2"] freshPool)).
  { exists sampleConfig, [OpAcquire "7"; OpAcquire "8"; OpRelease "8" "db_8_2"].
    split; [simpl; lia|reflexivity]. }
  split; [exact Hreach|].
  destruct (forceCloseIdleConnections_closes_each_idle_once nativeOk _ Hreach)
    as (Hn & Hw & _).
  cbv zeta in Hn, Hw. split.
  - rewrite Hn. vm_compute; reflexivity.
  - rewrite Hw. vm_compute; reflexivity.
Defined.

(** ** The native layer and the pool's books agree *)

Lemma openConnections_app w evs :
  openConnections (w ++ evs) = fold_left openAfter evs (openConnections w).
Proof. apply fold_left_app. Qed.

Lemma openAfter_removals l o :
  fold_left openAfter (map EvRemoveDatabase l) o = o ∖ list_to_set l.
Proof.
  revert o. induction l as [|a l IH]; intros o; simpl.
  - apply set_eq. intros x. rewrite elem_of_difference, elem_of_empty. tauto.
  - rewrite IH. apply set_eq. intros x.
    rewrite !elem_of_difference, elem_of_union, elem_of_singleton. tauto.
Qed.

Lemma elem_of_tracked p n :
  n ∈ tracked p
  <-> n ∈ m_usedConnections p
      \/ exists t q, m_availableByThread p !! t = Some q /\ n ∈ q.
Proof.
  unfold tracked. rewrite elem_of_union, elem_of_list_to_set, idleNames_spec.
  reflexivity.
Qed.

Lemma tracked_has_owner p n :
  consistent p -> n ∈ tracked p -> is_Some (m_connOwner p !! n).
Proof.
  intros Hcons Hin. apply elem_of_tracked in Hin as [Hin|(t & q & Hl & Hin)].
  - destruct Hcons as (_ & _ & Hu & _). apply Hu, Hin.
  - destruct (consistent_idle_owner p t q n Hcons Hl Hin) as [Hown _]. eauto.
Qed.

(** The sweep closes what it stops tracking, and nothing else. *)
Lemma cleanup_tracksOpen s :
  consistent (fst s) ->
  openConnections (snd s) = tracked (fst s) ->
  openConnections (snd (cleanupFinishedThreads s))
  = tracked (fst (cleanupFinishedThreads s)).
Proof.
  intros Hcons Hopen.
  destruct (cleanup_world s) as (closed & Hw & Hclosed).
  rewrite Hw, openConnections_app, openAfter_removals, Hopen.
  apply set_eq. intros n.
  rewrite elem_of_difference, !elem_of_tracked, elem_of_list_to_set, Hclosed.
  rewrite (proj1 (proj2 (cleanup_frame s))).
  split.
  - intros [[Hin|(t & q & Hl & Hin)] Hkept]; [left; exact Hin|].
    right. exists t, q. split; [|exact Hin]. rewrite cleanup_available.
    destruct (m_threadRefs (fst s) !! t) as [[|]|] eqn:Href; try exact Hl.
    exfalso. apply Hkept. exists t, q. auto.
  - intros [Hin|(t & q & Hl & Hin)].
    + split; [left; exact Hin|]. intros (t & q & _ & Hl & Hn).
      apply (consistent_idle_owner _ t q n Hcons Hl Hn), Hin.
    + rewrite cleanup_available in Hl.
      assert (Hl' : m_availableByThread (fst s) !! t = Some q
                    /\ m_threadRefs (fst s) !! t <> Some RefNull).
      { destruct (m_threadRefs (fst s) !! t) as [[|]|]; try discriminate;
          split; congruence. }
      destruct Hl' as [Hl' Hlive]. split; [right; eauto|].
      intros (t' & q' & Hstale & Hl'' & Hn).
      destruct (consistent_idle_owner _ t q n Hcons Hl' Hin) as [Hown _].
      destruct (consistent_idle_owner _ t' q' n Hcons Hl'' Hn) as [Hown' _].
      assert (t = t') by congruence. subst t'. contradiction.
Qed.

(** The idle names as a set, split at one queue. *)
Lemma idle_split (a : gmap string (list string)) k n :
  (exists t q, a !! t = Some q /\ n ∈ q)
  <-> n ∈ queueOf k a \/ exists t q, t <> k /\ a !! t = Some q /\ n ∈ q.
Proof.
  split.
  - intros (t & q & Hl & Hin). destruct (decide (t = k)) as [->|Hne].
    + left. unfold queueOf. rewrite Hl. exact Hin.
    + right. eauto.
  - intros [Hin|(t & q & _ & Hl & Hin)]; [|eauto].
    apply queueOf_elem in Hin as (q & Hl & Hin). eauto.
Qed.

Lemma idle_insert (a : gmap string (list string)) k q0 n :
  (exists t q, <[k := q0]> a !! t = Some q /\ n ∈ q)
  <-> n ∈ q0 \/ exists t q, t <> k /\ a !! t = Some q /\ n ∈ q.
Proof.
  rewrite (idle_split _ k). rewrite queueOf_insert. split.
  - intros [Hin|(t & q & Hne & Hl & Hin)]; [left; exact Hin|].
    rewrite lookup_insert_ne in Hl by congruence. right. eauto.
  - intros [Hin|(t & q & Hne & Hl & Hin)]; [left; exact Hin|].
    right. exists t, q. rewrite lookup_insert_ne by congruence. auto.
Qed.

Lemma tracked_subscript p tid :
  tracked (set_available (subscript tid (m_availableByThread p)) p) = tracked p.
Proof.
  apply set_eq. intros n. rewrite !elem_of_tracked. simpl.
  unfold subscript. rewrite idle_insert, (idle_split (m_availableByThread p) tid).
  reflexivity.
Qed.

(** Moving a name between the in-use set and a queue changes nothing in
    what is tracked. *)
Lemma tracked_pop p tid name rest :
  queueOf tid (m_availableByThread p) = name :: rest ->
  tracked (set_used ({[name]} ∪ m_usedConnections p)
             (set_available (<[tid := rest]> (m_availableByThread p)) p))
  = tracked p.
Proof.
  intros Hq. apply set_eq. intros n. rewrite !elem_of_tracked. simpl.
  rewrite idle_insert, (idle_split (m_availableByThread p) tid), Hq.
  rewrite elem_of_union, elem_of_singleton, elem_of_cons. tauto.
Qed.

Lemma tracked_requeue p k name :
  name ∈ m_usedConnections p ->
  tracked (set_available
             (<[k := queueOf k (m_availableByThread p) ++ [name]]> (m_availableByThread p))
             (set_used (m_usedConnections p ∖ {[name]}) p))
  = tracked p.
Proof.
  intros Hin. apply set_eq. intros n. rewrite !elem_of_tracked. simpl.
  rewrite idle_insert, (idle_split (m_availableByThread p) k).
  rewrite elem_of_difference, elem_of_singleton, elem_of_app, list_elem_of_singleton.
  destruct (decide (n = name)) as [->|Hne]; tauto.
Qed.

Section TracksOpen.

Context (env : Native).

Lemma takeOrCreate_tracksOpen tid s :
  consistent (fst s) ->
  m_connectionCounter (fst s) + 1 < 2 ^ 31 ->
  openConnections (snd s) = tracked (fst s) ->
  openConnections (snd (snd (takeOrCreate env tid s)))
  = tracked (fst (snd (takeOrCreate env tid s))).
Proof.
  destruct s as [p w]. simpl fst. simpl snd. intros Hcons Hbound Hopen.
  rewrite takeOrCreate_unfold. cbv zeta.
  destruct (queueOf tid (m_availableByThread p)) as [|name rest] eqn:Hqueue.
  - case_bool_decide; [simpl; rewrite tracked_subscript; exact Hopen|].
    destruct (nat_open env _ _); simpl.
    + rewrite !openConnections_app. simpl. rewrite Hopen.
      apply set_eq. intros n. rewrite elem_of_union, !elem_of_tracked. simpl.
      unfold subscript. rewrite idle_insert, (idle_split (m_availableByThread p) tid).
      rewrite elem_of_union. tauto.
    + rewrite !openConnections_app. simpl. rewrite Hopen.
      transitivity (tracked p).
      * apply set_eq. intros n.
        rewrite elem_of_difference, elem_of_union, elem_of_singleton.
        split; [tauto|]. intros Hin. split; [right; exact Hin|]. intros ->.
        apply (tracked_has_owner p _ Hcons) in Hin as [t Hown].
        rewrite (fresh_name_unknown p tid Hcons Hbound) in Hown. discriminate.
      * symmetry. apply (tracked_subscript p tid).
  - simpl. rewrite Hopen. symmetry.
    transitivity (tracked (set_available (subscript tid (m_availableByThread p)) p));
      [|apply tracked_subscript].
    apply (tracked_pop (set_available (subscript tid (m_availableByThread p)) p)
             tid name rest).
    simpl. rewrite queueOf_subscript. exact Hqueue.
Qed.

Lemma acquireConnection_tracksOpen tid s :
  consistent (fst s) ->
  m_connectionCounter (fst s) + 1 < 2 ^ 31 ->
  openConnections (snd s) = tracked (fst s) ->
  openConnections (snd (snd (acquireConnection env tid s)))
  = tracked (fst (snd (acquireConnection env tid s))).
Proof.
  intros Hcons Hbound Hopen.
  pose proof (cleanup_tracksOpen s Hcons Hopen) as Hopen'.
  pose proof (cleanup_consistent s Hcons) as Hcons'.
  destruct (cleanup_frame s) as (_ & _ & Hcnt & _).
  rewrite acquireConnection_unfold. cbv zeta.
  destruct (cleanupFinishedThreads s) as [p w]. simpl in *.
  destruct (m_activeTxByThread p !! tid); [exact Hopen'|].
  apply takeOrCreate_tracksOpen; [exact Hcons'|simpl; lia|exact Hopen'].
Qed.

Lemma releaseConnection_tracksOpen tid name s :
  consistent (fst s) ->
  openConnections (snd s) = tracked (fst s) ->
  openConnections (snd (releaseConnection tid name s))
  = tracked (fst (releaseConnection tid name s)).
Proof.
  intros Hcons Hopen.
  pose proof (cleanup_tracksOpen s Hcons Hopen) as Hopen'.
  unfold releaseConnection.
  destruct (cleanupFinishedThreads s) as [p w]. simpl in *.
  case_bool_decide as Hin; [|exact Hopen'].
  case_bool_decide; [exact Hopen'|].
  simpl. rewrite tracked_requeue by exact Hin. exact Hopen'.
Qed.

Lemma nativeBegin_open name w :
  openConnections (snd (nativeBegin env name w)) = openConnections w.
Proof.
  unfold nativeBegin. destruct (nat_isOpen env w name); [|reflexivity].
  simpl. rewrite openConnections_app. reflexivity.
Qed.

Lemma step_tracksOpen o s :
  consistent (fst s) ->
  m_connectionCounter (fst s) + 1 < 2 ^ 31 ->
  openConnections (snd s) = tracked (fst s) ->
  openConnections (snd (step env s o)) = tracked (fst (step env s o)).
Proof.
  intros Hcons Hbound Hopen.
  destruct o as [tid|tid name|tid|tid|tid| |tid]; simpl.
  - apply acquireConnection_tracksOpen; assumption.
  - apply releaseConnection_tracksOpen; assumption.
  - rewrite beginThreadTransaction_unfold.
    destruct (m_activeTxByThread (fst s) !! tid); [exact Hopen|].
    pose proof (takeOrCreate_tracksOpen tid s Hcons Hbound Hopen) as Hopen'.
    pose proof (takeOrCreate_used env tid s) as Hused.
    destruct (takeOrCreate env tid s) as [name [p w]]. simpl in *.
    case_bool_decide as Hname; [exact Hopen'|].
    pose proof (nativeBegin_open name w) as Hnative.
    destruct (nativeBegin env name w) as [[|] w']; simpl in *.
    + rewrite Hnative. exact Hopen'.
    + rewrite Hnative, tracked_requeue by (apply Hused, Hname). exact Hopen'.
  - destruct s as [p w]. unfold commitThreadTransaction.
    case_bool_decide; [exact Hopen|]. simpl snd.
    apply releaseConnection_tracksOpen.
    + apply unbind_consistent, Hcons.
    + simpl. rewrite openConnections_app. exact Hopen.
  - destruct s as [p w]. unfold rollbackThreadTransaction.
    case_bool_decide; [exact Hopen|]. simpl snd.
    apply releaseConnection_tracksOpen.
    + apply unbind_consistent, Hcons.
    + simpl. rewrite openConnections_app. exact Hopen.
  - destruct s as [p w]. simpl in *.
    rewrite openConnections_app, openAfter_removals, Hopen.
    apply set_eq. intros n.
    rewrite elem_of_difference, elem_of_list_to_set, !elem_of_tracked. simpl.
    split.
    + intros [[Hin|Hidle] Hnot]; [left; exact Hin|].
      exfalso. apply Hnot, idleNames_spec, Hidle.
    + intros [Hin|(t & q & Hl & Hn)].
      * split; [left; exact Hin|]. intros Hidle.
        apply (consistent_idle_not_used p n Hcons Hidle), Hin.
      * rewrite lookup_fmap in Hl.
        destruct (m_availableByThread p !! t); [|discriminate].
        simpl in Hl. injection Hl as <-. inversion Hn.
  - unfold threadFinished.
    destruct (m_threadRefs (fst s) !! tid) as [[|]|]; exact Hopen.
Qed.

Lemma run_tracksOpen ops s :
  consistent (fst s) ->
  m_connectionCounter (fst s) + Z.of_nat (length ops) < 2 ^ 31 ->
  openConnections (snd s) = tracked (fst s) ->
  openConnections (snd (run env ops s)) = tracked (fst (run env ops s)).
Proof.
  revert s. induction ops as [|o ops IH]; intros s Hcons Hbound Hopen; [exact Hopen|].
  simpl length in Hbound.
  destruct (step_consistent env o s Hcons ltac:(lia)) as [Hcons' Hcount].
  simpl. apply IH; [exact Hcons'|lia|].
  apply step_tracksOpen; [exact Hcons|lia|exact Hopen].
Qed.

Lemma reachable_tracksOpen s :
  reachable env s -> openConnections (snd s) = tracked (fst s).
Proof.
  intros (config & ops & Hlen & ->).
  apply run_tracksOpen.
  - apply (reachable_consistent env). exists config, []. split; [simpl; lia|reflexivity].
  - cbn [fst newPool m_connectionCounter]. lia.
  - apply set_eq. intros n. rewrite elem_of_tracked.
    cbn [fst snd newPool m_usedConnections m_availableByThread openConnections fold_left].
    split.
    + intros Hin. apply not_elem_of_empty in Hin. contradiction.
    + intros [Hin|(t & q & Hl & _)].
      * apply not_elem_of_empty in Hin. contradiction.
      * rewrite lookup_empty in Hl. discriminate.
Qed.

End TracksOpen.





(** X7 ([ConnectionPool::acquireConnection], [beginThreadTransaction]).  In a
    state the pool can reach and with the counter below [INT_MAX], a
    non-empty name returned by [acquireConnection] or by
    [beginThreadTransaction] is the name of a connection that is open in the
    native layer when the call returns. *)
Theorem handed_out_connection_is_open
    (env : Native) (tid : string) (s : Pool * World) :
  reachable env s ->
  m_connectionCounter (fst s) + 1 < 2 ^ 31 ->
  (fst (acquireConnection env tid s) <> "" ->
   fst (acquireConnection env tid s)
     ∈ openConnections (snd (snd (acquireConnection env tid s))))
  /\ (fst (beginThreadTransaction env tid s) <> "" ->
      fst (beginThreadTransaction env tid s)
        ∈ openConnections (snd (snd (beginThreadTransaction env tid s)))).
Proof.
  intros Hreach Hbound.
  pose proof (reachable_consistent env s Hreach) as Hcons.
  pose proof (reachable_tracksOpen env s Hreach) as Hopen.
  split; intros Hname.
  - pose proof (step_tracksOpen env (OpAcquire tid) s Hcons Hbound Hopen) as Hafter.
    change (step env s (OpAcquire tid)) with (snd (acquireConnection env tid s)) in Hafter.
    rewrite Hafter. apply elem_of_tracked. left.
    apply (acquireConnection_owned env tid s Hcons Hname).
  - pose proof (step_tracksOpen env (OpBegin tid) s Hcons Hbound Hopen) as Hafter.
    destruct (step_consistent env (OpBegin tid) s Hcons Hbound)
      as [(_ & _ & _ & _ & Hbind) _].
    change (step env s (OpBegin tid)) with (snd (beginThreadTransaction env tid s))
      in Hafter, Hbind.
    rewrite Hafter. apply elem_of_tracked. left.
    apply (Hbind tid).
    apply (beginThreadTransaction_binds env tid _ s); [|exact Hname].
    destruct (beginThreadTransaction env tid s); reflexivity.
Qed.

Lemma handed_out_connection_is_open_witness :
  let s := run nativeOk [OpAcquire "7"; OpRelease "7" "db_7_1"; OpForceClose] freshPool in
  reachable nativeOk s
  /\ fst (acquireConnection nativeOk "7" s) = "db_7_2"
  /\ ("db_7_1" ∉ openConnections (snd (snd (acquireConnection nativeOk "7" s))))
  /\ (fst (acquireConnection nativeOk "7" s)
        ∈ openConnections (snd (snd (acquireConnection nativeOk "7" s)))).
Proof.
  cbv zeta.
  assert (Hreach : reachable nativeOk
            (run nativeOk [OpAcquire "7"; OpRelease "7" "db_7_1"; OpForceClose] freshPool)).
  { eexists sampleConfig, _. split; [|reflexivity]. simpl; lia. }
  split; [exact Hreach|]. split; [vm_compute; reflexivity|].
  split; [apply (bool_decide_eq_false_1 _); vm_compute; reflexivity|].
  apply (handed_out_connection_is_open nativeOk "7" _ Hreach).
  - vm_compute; reflexivity.
  - vm_compute; discriminate.
Defined.

(** ** Destroying the pool *)



(** ** A transaction from begin to end *)

Lemma takeOrCreate_not_in_use (env : Native) tid s :
  consistent (fst s) ->
  m_connectionCounter (fst s) + 1 < 2 ^ 31 ->
  fst (takeOrCreate env tid s) <> "" ->
  fst (takeOrCreate env tid s) ∉ m_usedConnections (fst s).
Proof.
  destruct s as [p w]. simpl fst. intros Hcons Hbound.
  rewrite takeOrCreate_unfold. cbv zeta.
  destruct (queueOf tid (m_availableByThread p)) as [|name rest] eqn:Hqueue.
  - case_bool_decide; [simpl; congruence|].
    destruct (nat_open env _ _); simpl; [intros _|congruence].
    intros Hin. destruct (proj1 (proj2 (proj2 Hcons)) _ Hin) as [t Hown].
    rewrite (fresh_name_unknown p tid Hcons Hbound) in Hown. discriminate.
  - simpl. intros _. apply queueOf_cons in Hqueue.
    apply (consistent_idle_owner p tid _ name Hcons Hqueue). left.
Qed.

(** What a successful [beginThreadTransaction] of a thread without a
    binding has done. *)
Lemma beginThreadTransaction_success (env : Native) tid name s s1 :
  m_activeTxByThread (fst s) !! tid = None ->
  beginThreadTransaction env tid s = (name, s1) ->
  name <> "" ->
  fst (takeOrCreate env tid s) = name
  /\ m_usedConnections (fst s1) = {[name]} ∪ m_usedConnections (fst s)
  /\ m_activeTxByThread (fst s1) = <[tid := name]> (m_activeTxByThread (fst s))
  /\ m_connOwner (fst s1) = m_connOwner (fst (snd (takeOrCreate env tid s)))
  /\ snd s1 = snd (snd (takeOrCreate env tid s)) ++ [EvTransaction name].
Proof.
  intros Hfree. rewrite beginThreadTransaction_unfold, Hfree.
  pose proof (takeOrCreate_effect env tid s) as Heff.
  pose proof (takeOrCreate_frame env tid s) as [Htx _].
  destruct (takeOrCreate env tid s) as [n [p w]]. simpl in *.
  case_bool_decide as Hn; [intros [= <- _]; congruence|].
  destruct (Heff n p w eq_refl Hn) as (Hu & _).
  unfold nativeBegin. destruct (nat_isOpen env w n); [|intros [= <- _]; congruence].
  destruct (nat_transaction env w n); [|intros [= <- _]; congruence].
  intros [= -> <-] _. simpl. rewrite Htx. auto.
Qed.

(** Releasing the connection a thread was bound to, once the binding has
    been taken. *)
Lemma release_after_take_used tid name p w :
  name <> "" ->
  name ∈ m_usedConnections p ->
  m_connOwner p !! name = Some tid ->
  let released :=
    releaseConnection tid name (set_activeTx (delete tid (m_activeTxByThread p)) p, w) in
  m_usedConnections (fst released) = m_usedConnections p ∖ {[name]}
  /\ m_activeTxByThread (fst released) !! tid = None
  /\ (exists q, m_availableByThread (fst released) !! tid = Some (q ++ [name]))
  /\ exists closed, snd released = w ++ map EvRemoveDatabase closed.
Proof.
  intros Hname Hin Hown. cbv zeta.
  destruct (cleanup_world (set_activeTx (delete tid (m_activeTxByThread p)) p, w))
    as (closed & Hw & _).
  split; [|split; [|split]].
  - rewrite releaseConnection_requeues; [reflexivity|exact Hin|].
    simpl. rewrite Hown. simpl. rewrite cleanup_activeTx. simpl.
    rewrite lookup_delete_eq.
    destruct (m_threadRefs p !! tid) as [[|]|]; simpl; congruence.
  - rewrite (proj1 (proj2 (releaseConnection_frame _ _ _))).
    rewrite cleanup_activeTx. simpl. rewrite lookup_delete_eq.
    destruct (m_threadRefs p !! tid) as [[|]|]; reflexivity.
  - eexists. apply (release_after_take tid name p w Hname Hin Hown).
  - exists closed. simpl in Hw. rewrite <- Hw.
    rewrite releaseConnection_requeues; [reflexivity|exact Hin|].
    simpl. rewrite Hown. simpl. rewrite cleanup_activeTx. simpl.
    rewrite lookup_delete_eq.
    destruct (m_threadRefs p !! tid) as [[|]|]; simpl; congruence.
Qed.

(** X9 ([ConnectionPool::beginThreadTransaction], [commitThreadTransaction],
    [rollbackThreadTransaction]).  When a thread with no transaction begins
    one and gets a connection, that connection was not in use before and is
    in use while the transaction lasts.  Ending the transaction, by commit
    or by rollback and whatever the native layer answers, returns that
    answer, puts the in-use set back to what it was before the begin, leaves
    the thread with no transaction, puts the connection at the back of the
    thread's idle queue, and shows in the trace one native begin followed by
    one native commit or rollback on that connection. *)
Theorem begin_then_end_restores_the_in_use_set
    (env : Native) (tid name : string) (s s1 : Pool * World) :
  reachable env s ->
  m_connectionCounter (fst s) + 1 < 2 ^ 31 ->
  m_activeTxByThread (fst s) !! tid = None ->
  beginThreadTransaction env tid s = (name, s1) ->
  name <> "" ->
  let ended := fun (commit : bool) =>
    if commit then commitThreadTransaction env tid s1
    else rollbackThreadTransaction env tid s1 in
  (name ∉ m_usedConnections (fst s))
  /\ (name ∈ m_usedConnections (fst s1))
  /\ fst (ended true) = nat_commit env (snd s1) name
  /\ fst (ended false) = nat_rollback env (snd s1) name
  /\ forall commit,
       m_usedConnections (fst (snd (ended commit))) = m_usedConnections (fst s)
       /\ m_activeTxByThread (fst (snd (ended commit))) !! tid = None
       /\ (exists q, m_availableByThread (fst (snd (ended commit))) !! tid
                     = Some (q ++ [name]))
       /\ exists acquiring closed,
            snd (snd (ended commit))
            = snd s ++ acquiring
                ++ [EvTransaction name;
                    if commit then EvCommit name else EvRollback name]
                ++ map EvRemoveDatabase closed
            /\ forallb (fun ev => negb (isEndEvent ev)) acquiring = true.
Proof.
  intros Hreach Hbound Hfree Hbegin Hname. cbv zeta.
  pose proof (reachable_consistent env s Hreach) as Hcons.
  destruct (beginThreadTransaction_success env tid name s s1 Hfree Hbegin Hname)
    as (Htake & Hused & Htx & Howner & Hworld).
  pose proof (takeOrCreate_not_in_use env tid s Hcons Hbound) as Hfresh.
  destruct (takeOrCreate_consistent env tid s Hcons Hbound) as (_ & _ & Hown).
  destruct (takeOrCreate_trace env tid s) as (acquiring & Hacq & Hquiet).
  rewrite Htake in Hfresh, Hown. specialize (Hfresh Hname).
  destruct (Hown Hname) as [Hown' _]. rewrite <- Howner in Hown'.
  assert (Hin : name ∈ m_usedConnections (fst s1)).
  { rewrite Hused. apply elem_of_union_l, elem_of_singleton. reflexivity. }
  assert (Hb : m_activeTxByThread (fst s1) !! tid = Some name).
  { rewrite Htx. apply lookup_insert_eq. }
  assert (Hback : m_usedConnections (fst s1) ∖ {[name]} = m_usedConnections (fst s)).
  { rewrite Hused. apply set_eq. intros n.
    rewrite elem_of_difference, elem_of_union, elem_of_singleton.
    split; [tauto|]. intros Hn. split; [right; exact Hn|]. intros ->. contradiction. }
  destruct s1 as [p1 w1]. simpl in *.
  rewrite (commitThreadTransaction_bound env tid name p1 w1 Hb Hname).
  rewrite (rollbackThreadTransaction_bound env tid name p1 w1 Hb Hname).
  split; [exact Hfresh|]. split; [exact Hin|]. split; [reflexivity|].
  split; [reflexivity|].
  intros commit.
  assert (Hend : forall ev,
            let released :=
              releaseConnection tid name
                (set_activeTx (delete tid (m_activeTxByThread p1)) p1, w1 ++ [ev]) in
            m_usedConnections (fst released) = m_usedConnections (fst s)
            /\ m_activeTxByThread (fst released) !! tid = None
            /\ (exists q, m_availableByThread (fst released) !! tid = Some (q ++ [name]))
            /\ exists acquiring closed,
                 snd released
                 = snd s ++ acquiring ++ [EvTransaction name; ev]
                     ++ map EvRemoveDatabase closed
                 /\ forallb (fun ev => negb (isEndEvent ev)) acquiring = true).
  { intros ev. cbv zeta.
    destruct (release_after_take_used tid name p1 (w1 ++ [ev]) Hname Hin Hown')
      as (Hu & Hnone & Hq & closed & Hw).
    cbv zeta in Hu, Hnone, Hq, Hw.
    split; [rewrite Hu; exact Hback|]. split; [exact Hnone|]. split; [exact Hq|].
    exists acquiring, closed. split; [|exact Hquiet].
    rewrite Hw, Hworld, Hacq. rewrite <- !app_assoc. reflexivity. }
  destruct commit; simpl; apply Hend.
Qed.

Lemma begin_then_end_restores_the_in_use_set_witness :
  let s := run nativeOk [OpAcquire "8"] freshPool in
  reachable nativeOk s
  /\ fst (beginThreadTransaction nativeOk "7" s) = "db_7_2"
  /\ m_usedConnections
       (fst (snd (rollbackThreadTransaction nativeOk "7"
                    (snd (beginThreadTransaction nativeOk "7" s)))))
     = m_usedConnections (fst s).
Proof.
  cbv zeta.
  assert (Hreach : reachable nativeOk (run nativeOk [OpAcquire "8"] freshPool)).
  { eexists sampleConfig, _. split; [|reflexivity]. simpl; lia. }
  split; [exact Hreach|]. split; [vm_compute; reflexivity|].
  destruct (begin_then_end_restores_the_in_use_set nativeOk "7" "db_7_2"
              (run nativeOk [OpAcquire "8"] freshPool)
              (snd (beginThreadTransaction nativeOk "7"
                      (run nativeOk [OpAcquire "8"] freshPool)))
              Hreach) as (_ & _ & _ & _ & H).
  - vm_compute; reflexivity.
  - vm_compute; reflexivity.
  - vm_compute; reflexivity.
  - discriminate.
  - apply (H false).
Defined.

(** ** Nested begins *)

(** X10 ([BaseDatabaseManager::beginTransaction], [commitTransaction],
    [rollbackTransaction]).  A second [beginTransaction] on a thread whose
    first one succeeded succeeds as well, changes nothing in the manager and
    only emits [transactionBegin] again: begins do not nest.  After one
    [commitTransaction] or [rollbackTransaction], a further commit or
    rollback on that thread returns [false] and changes nothing. *)
Theorem nested_begin_is_ended_by_one_commit
    (env : Native) (tid : string) (m : Manager) (p : Pool) (w : World)
    (s1 : Manager * World) :
  m_connectionPool m = Some p ->
  beginTransaction env tid (m, w) = (true, s1) ->
  let s2 := (fst s1, snd s1 ++ [EvEmit transactionBegin]) in
  beginTransaction env tid s1 = (true, s2)
  /\ (forall s3,
        s3 = snd (commitTransaction env tid s2)
        \/ s3 = snd (rollbackTransaction env tid s2) ->
        commitTransaction env tid s3 = (false, s3)
        /\ rollbackTransaction env tid s3 = (false, s3)).
Proof.
  intros Hpool Hbegin. cbv zeta.
  destruct (beginTransaction_binds env tid m p w s1 Hpool Hbegin)
    as (p1 & name & Hpool1 & Hb & Hname).
  destruct s1 as [m1 w1]. simpl in *. split.
  - unfold beginTransaction. rewrite Hpool1, beginThreadTransaction_unfold. simpl.
    rewrite Hb, bool_decide_eq_false_2 by exact Hname.
    rewrite set_pool_same by exact Hpool1. reflexivity.
  - intros s3 Hs3.
    assert (Hended : exists p3,
              m_connectionPool (fst s3) = Some p3
              /\ m_activeTxByThread p3 !! tid = None).
    { destruct Hs3 as [-> | ->].
      - unfold commitTransaction. rewrite Hpool1.
        pose proof (commitThreadTransaction_unbinds env tid
                      (p1, w1 ++ [EvEmit transactionBegin])) as Hgone.
        destruct (commitThreadTransaction env tid _) as [ok [p3 w3]].
        exists p3. destruct ok; simpl; auto.
      - unfold rollbackTransaction. rewrite Hpool1.
        pose proof (rollbackThreadTransaction_unbinds env tid
                      (p1, w1 ++ [EvEmit transactionBegin])) as Hgone.
        destruct (rollbackThreadTransaction env tid _) as [ok [p3 w3]].
        exists p3. destruct ok; simpl; auto. }
    destruct Hended as (p3 & Hpool3 & Hnone). destruct s3 as [m3 w3].
    apply (end_without_binding env tid m3 p3 w3 Hpool3 Hnone).
Qed.

Lemma nested_begin_is_ended_by_one_commit_witness :
  let s1 := snd (beginTransaction nativeOk "7" (newManager sampleConfig, [])) in
  let s2 := snd (beginTransaction nativeOk "7" s1) in
  let s3 := snd (commitTransaction nativeOk "7" s2) in
  snd s3
  = [EvAddDatabase "db_7_1"; EvConfigure "db_7_1"; EvTransaction "db_7_1";
     EvEmit transactionBegin; EvEmit transactionBegin;
     EvCommit "db_7_1"; EvEmit transactionCommitted]
  /\ commitTransaction nativeOk "7" s3 = (false, s3).
Proof.
  cbv zeta. split; [vm_compute; reflexivity|].
  destruct (nested_begin_is_ended_by_one_commit nativeOk "7"
              (newManager sampleConfig) (newPool sampleConfig) []
              (snd (beginTransaction nativeOk "7" (newManager sampleConfig, []))))
    as [Hsecond Hend].
  - reflexivity.
  - vm_compute; reflexivity.
  - cbv zeta in Hsecond, Hend. rewrite Hsecond. simpl snd.
    apply (Hend _ (or_introl eq_refl)).
Defined.

(** ** The counters of the statistics *)

Lemma recordQueryStats_counters ok t st :
  countersAddUp st ->
  totalQueries st + 1 < 2 ^ 63 ->
  countersAddUp (recordQueryStats ok t st)
  /\ totalQueries (recordQueryStats ok t st) = totalQueries st + 1
  /\ successfulQueries (recordQueryStats ok t st)
     = successfulQueries st + (if ok then 1 else 0)
  /\ failedQueries (recordQueryStats ok t st)
     = failedQueries st + (if ok then 0 else 1).
Proof.
  intros (Hsum & Hok & Hfail) Hbound. unfold countersAddUp, recordQueryStats. simpl.
  rewrite (wrap64_small (totalQueries st + 1)) by lia.
  destruct ok.
  - rewrite (wrap64_small (successfulQueries st + 1)) by lia. lia.
  - rewrite (wrap64_small (failedQueries st + 1)) by lia. lia.
Qed.

Lemma recordAll_counters calls : forall st,
  countersAddUp st ->
  totalQueries st + Z.of_nat (length calls) < 2 ^ 63 ->
  countersAddUp (recordAll calls st)
  /\ totalQueries (recordAll calls st) = totalQueries st + Z.of_nat (length calls)
  /\ successfulQueries (recordAll calls st)
     = successfulQueries st + Z.of_nat (length (filter (fun c => fst c = true) calls))
  /\ failedQueries (recordAll calls st)
     = failedQueries st + Z.of_nat (length (filter (fun c => fst c = false) calls)).
Proof.
  induction calls as [|[ok t] calls IH]; intros st Hst Hbound.
  - simpl. rewrite !Z.add_0_r. auto.
  - simpl length in Hbound.
    destruct (recordQueryStats_counters ok t st Hst ltac:(lia)) as (Hst' & Ht & Hs & Hf).
    destruct (IH (recordQueryStats ok t st) Hst' ltac:(lia)) as (H1 & H2 & H3 & H4).
    change (recordAll ((ok, t) :: calls) st)
      with (recordAll calls (recordQueryStats ok t st)).
    split; [exact H1|]. rewrite H2, H3, H4, Ht, Hs, Hf.
    rewrite !filter_cons. simpl fst. simpl length.
    destruct ok.
    + rewrite decide_True by reflexivity. rewrite decide_False by discriminate.
      simpl length. lia.
    + rewrite decide_False by discriminate. rewrite decide_True by reflexivity.
      simpl length. lia.
Qed.

(** X11 ([BaseDatabaseManager::recordQueryStats], [resetStatistics]).  After
    [resetStatistics], as long as fewer than 2^63 calls are recorded, the
    total counter is the number of recorded calls, the success counter the
    number of successful ones and the failure counter the number of failed
    ones; the total is the sum of the other two. *)
Theorem statistics_count_every_call
    (m : Manager) (calls : list (bool * Q)) :
  Z.of_nat (length calls) < 2 ^ 63 ->
  let st := recordAll calls (m_stats (resetStatistics m)) in
  totalQueries st = Z.of_nat (length calls)
  /\ successfulQueries st = Z.of_nat (length (filter (fun c => fst c = true) calls))
  /\ failedQueries st = Z.of_nat (length (filter (fun c => fst c = false) calls))
  /\ totalQueries st = successfulQueries st + failedQueries st.
Proof.
  intros Hbound. cbv zeta. simpl m_stats.
  destruct (recordAll_counters calls emptyStats) as ((Hsum & _) & Ht & Hs & Hf).
  - unfold countersAddUp. simpl. lia.
  - simpl. lia.
  - simpl in Ht, Hs, Hf. auto.
Qed.

Lemma statistics_count_every_call_witness :
  let st := recordAll [(true, 4%Q); (false, 6%Q); (true, 11%Q)]
              (m_stats (resetStatistics (newManager sampleConfig))) in
  totalQueries st = 3 /\ successfulQueries st = 2 /\ failedQueries st = 1.
Proof.
  cbv zeta.
  destruct (statistics_count_every_call (newManager sampleConfig)
              [(true, 4%Q); (false, 6%Q); (true, 11%Q)]) as (Ht & Hs & Hf & _).
  - simpl. lia.
  - cbv zeta in Ht, Hs, Hf. rewrite Ht, Hs, Hf. repeat split.
Defined.

(** ** The counters over any use of the manager *)

Section ManagerStatistics.

Context (env : Native).

Lemma timedExec_counters sql s :
  countersAddUp (m_stats (fst s)) ->
  totalQueries (m_stats (fst s)) + 1 < 2 ^ 63 ->
  countersAddUp (m_stats (fst (snd (timedExec env sql s))))
  /\ totalQueries (m_stats (fst (snd (timedExec env sql s))))
     = totalQueries (m_stats (fst s)) + 1.
Proof.
  destruct s as [m w]. simpl. intros Hst Hbound.
  destruct (recordQueryStats_counters
              (nat_exec env w (connectionName (mgr_config m)) sql)
              (inject_Z (nat_elapsed env (w ++ [EvExec (connectionName (mgr_config m)) sql])))
              (m_stats m) Hst Hbound) as (H1 & H2 & _).
  auto.
Qed.

Lemma timedExec_config sql s :
  mgr_config (fst (snd (timedExec env sql s))) = mgr_config (fst s).
Proof. destruct s as [m w]. reflexivity. Qed.

Lemma healthCheck_counters s :
  countersAddUp (m_stats (fst s)) ->
  totalQueries (m_stats (fst s)) + 1 < 2 ^ 63 ->
  countersAddUp (m_stats (fst (snd (healthCheck env s))))
  /\ totalQueries (m_stats (fst s))
     <= totalQueries (m_stats (fst (snd (healthCheck env s))))
     <= totalQueries (m_stats (fst s)) + 1.
Proof.
  intros Hst Hbound. destruct s as [m w]. simpl in Hst, Hbound. unfold healthCheck.
  destruct (nat_isOpen env w _); cbn [negb].
  - destruct (timedExec_counters "SELECT 1" (m, w) Hst Hbound) as [H1 H2].
    split; [exact H1|]. rewrite H2. simpl. lia.
  - simpl. split; [exact Hst|lia].
Qed.

Lemma optimizeDatabase_counters s :
  countersAddUp (m_stats (fst s)) ->
  totalQueries (m_stats (fst s)) + 3 < 2 ^ 63 ->
  countersAddUp (m_stats (fst (snd (optimizeDatabase env s))))
  /\ totalQueries (m_stats (fst s))
     <= totalQueries (m_stats (fst (snd (optimizeDatabase env s))))
     <= totalQueries (m_stats (fst s)) + 3.
Proof.
  intros Hst Hbound. destruct s as [m w]. simpl in Hst, Hbound. unfold optimizeDatabase.
  destruct (nat_isOpen env w _); cbn [negb]; [|simpl; split; [exact Hst|lia]].
  set (closed := match m_connectionPool m with
                 | Some p =>
                     let '(_, (p0, w0)) := forceCloseIdleConnections (p, w) in
                     (bool_decide (0 < usedCount p0), (set_pool (Some p0) m, w0))
                 | None => (false, (m, w))
                 end).
  assert (Hclosed : m_stats (fst (snd closed)) = m_stats m
                    /\ mgr_config (fst (snd closed)) = mgr_config m).
  { unfold closed. destruct (m_connectionPool m); simpl; auto. }
  destruct closed as [active [m1 w1]]. simpl in Hclosed. destruct Hclosed as [Hs1 Hc1].
  destruct active; [simpl; rewrite Hs1; split; [exact Hst|lia]|].
  rewrite <- Hs1 in Hst, Hbound.
  set (s2 := if enableWAL (mgr_config m1)
             then snd (timedExec env "PRAGMA wal_checkpoint(TRUNCATE)" (m1, w1))
             else (m1, w1)).
  assert (H2 : countersAddUp (m_stats (fst s2))
               /\ totalQueries (m_stats m1) <= totalQueries (m_stats (fst s2))
                  <= totalQueries (m_stats m1) + 1).
  { unfold s2. destruct (enableWAL (mgr_config m1)).
    - destruct (timedExec_counters "PRAGMA wal_checkpoint(TRUNCATE)" (m1, w1) Hst
                  ltac:(simpl; lia)) as [H1 H2].
      split; [exact H1|]. rewrite H2. simpl. lia.
    - simpl. split; [exact Hst|lia]. }
  destruct H2 as [Hst2 Hcount2].
  destruct (timedExec_counters "VACUUM" s2 Hst2 ltac:(lia)) as [Hst3 Hcount3].
  destruct (timedExec env "VACUUM" s2) as [vacuumOk s3]. simpl in Hst3, Hcount3.
  destruct (timedExec_counters "ANALYZE" s3 Hst3 ltac:(lia)) as [Hst4 Hcount4].
  destruct (timedExec env "ANALYZE" s3) as [analyzeOk s4]. simpl in *.
  split; [exact Hst4|]. rewrite <- Hs1. lia.
Qed.

Lemma facade_stats tid s :
  m_stats (fst (snd (beginTransaction env tid s))) = m_stats (fst s)
  /\ m_stats (fst (snd (commitTransaction env tid s))) = m_stats (fst s)
  /\ m_stats (fst (snd (rollbackTransaction env tid s))) = m_stats (fst s).
Proof.
  destruct s as [m w]. unfold beginTransaction, commitTransaction, rollbackTransaction.
  destruct (m_connectionPool m) as [p|].
  - destruct (beginThreadTransaction env tid (p, w)) as [n [p1 w1]].
    destruct (commitThreadTransaction env tid (p, w)) as [c [p2 w2]].
    destruct (rollbackThreadTransaction env tid (p, w)) as [r [p3 w3]].
    case_bool_decide; destruct c, r; simpl; auto.
  - destruct (nat_isOpen env w _); simpl; auto.
Qed.

Lemma managerStep_counters o s :
  countersAddUp (m_stats (fst s)) ->
  totalQueries (m_stats (fst s)) + 3 < 2 ^ 63 ->
  countersAddUp (m_stats (fst (managerStep env s o)))
  /\ 0 <= totalQueries (m_stats (fst (managerStep env s o)))
     <= totalQueries (m_stats (fst s)) + 3.
Proof.
  intros Hst Hbound.
  assert (Hpos : 0 <= totalQueries (m_stats (fst s))).
  { destruct Hst as (Hsum & Hok & Hfail). lia. }
  destruct o as [tid|tid|tid| | |]; simpl.
  - rewrite (proj1 (facade_stats tid s)). split; [exact Hst|lia].
  - rewrite (proj1 (proj2 (facade_stats tid s))). split; [exact Hst|lia].
  - rewrite (proj2 (proj2 (facade_stats tid s))). split; [exact Hst|lia].
  - destruct (healthCheck_counters s Hst ltac:(lia)) as [H1 H2]. split; [exact H1|lia].
  - destruct (optimizeDatabase_counters s Hst Hbound) as [H1 H2]. split; [exact H1|lia].
  - unfold countersAddUp. simpl. lia.
Qed.

Lemma managerRun_counters ops : forall s,
  countersAddUp (m_stats (fst s)) ->
  totalQueries (m_stats (fst s)) + 3 * Z.of_nat (length ops) < 2 ^ 63 ->
  countersAddUp (m_stats (fst (managerRun env ops s)))
  /\ totalQueries (m_stats (fst (managerRun env ops s)))
     <= totalQueries (m_stats (fst s)) + 3 * Z.of_nat (length ops).
Proof.
  induction ops as [|o ops IH]; intros s Hst Hbound.
  - simpl. split; [exact Hst|lia].
  - simpl length in Hbound.
    destruct (managerStep_counters o s Hst ltac:(lia)) as [Hst' Hcount].
    destruct (IH (managerStep env s o) Hst' ltac:(lia)) as [H1 H2].
    simpl. split; [exact H1|]. simpl length. lia.
Qed.

End ManagerStatistics.

(** X12 ([BaseDatabaseManager::healthCheck], [optimizeDatabase],
    [getStatistics], [recordQueryStats], [resetStatistics]).  Whatever
    begins, commits, rollbacks, health checks, optimisations and resets are
    called on a new manager, and whatever the native layer answers, the
    statistics [getStatistics] returns add up: the total is the number of
    successes plus the number of failures, neither is negative, and at most
    three statements are counted for each call. *)
Theorem manager_statistics_add_up
    (env : Native) (config : DatabaseConfig) (ops : list ManagerOp) :
  3 * Z.of_nat (length ops) < 2 ^ 63 ->
  let st := getStatistics (fst (managerRun env ops (newManager config, []))) in
  totalQueries st = successfulQueries st + failedQueries st
  /\ 0 <= successfulQueries st
  /\ 0 <= failedQueries st
  /\ totalQueries st <= 3 * Z.of_nat (length ops).
Proof.
  intros Hbound. cbv zeta. unfold getStatistics.
  destruct (managerRun_counters env ops (newManager config, [])) as [(H1 & H2 & H3) H4].
  - unfold countersAddUp. simpl. lia.
  - simpl. lia.
  - simpl in H4. auto.
Qed.

Lemma manager_statistics_add_up_witness :
  let st := getStatistics
              (fst (managerRun nativeOk
                      [MgrHealthCheck; MgrBegin "7"; MgrOptimize; MgrCommit "7";
                       MgrOptimize; MgrHealthCheck]
                      (newManager sampleConfig, []))) in
  totalQueries st = 5
  /\ totalQueries st = successfulQueries st + failedQueries st.
Proof.
  cbv zeta. split; [vm_compute; reflexivity|].
  apply (manager_statistics_add_up nativeOk sampleConfig
           [MgrHealthCheck; MgrBegin "7"; MgrOptimize; MgrCommit "7";
            MgrOptimize; MgrHealthCheck]).
  simpl. lia.
Defined.

(** ** Connections held for the length of a table operation *)

Lemma takeOrCreate_empty_used (env : Native) tid s :
  namesNonEmpty (fst s) ->
  fst (takeOrCreate env tid s) = "" ->
  m_usedConnections (fst (snd (takeOrCreate env tid s))) = m_usedConnections (fst s).
Proof.
  destruct s as [p w]. intros (_ & _ & Hq). rewrite takeOrCreate_unfold. cbv zeta.
  destruct (queueOf tid (m_availableByThread p)) as [|name rest] eqn:Hqueue.
  - case_bool_decide; [reflexivity|].
    destruct (nat_open env _ _); simpl; [|reflexivity].
    intros Hempty. exfalso. exact (connectionNameOf_nonempty _ _ _ Hempty).
  - simpl. intros ->. exfalso. apply queueOf_cons in Hqueue.
    apply (Hq tid _ "" Hqueue); [left|reflexivity].
Qed.

(** A connection obtained by [acquireConnection] and handed back by
    [releaseConnection], with only native calls in between, leaves the
    in-use set and the bindings as the acquisition's sweep found them. *)
Lemma acquire_release_restores (env : Native) tid s evs :
  consistent (fst s) ->
  namesNonEmpty (fst s) ->
  m_connectionCounter (fst s) + 1 < 2 ^ 31 ->
  let acquired := acquireConnection env tid s in
  let name := fst acquired in
  let held := (fst (snd acquired), snd (snd acquired) ++ evs) in
  let after := if bool_decide (name = "") then held
               else releaseConnection tid name held in
  m_usedConnections (fst after) = m_usedConnections (fst s)
  /\ m_activeTxByThread (fst after)
     = m_activeTxByThread (fst (cleanupFinishedThreads s))
  /\ snd after = snd held
  /\ (name <> "" ->
      m_activeTxByThread (fst (cleanupFinishedThreads s)) !! tid = None ->
      exists q, m_availableByThread (fst after) !! tid = Some (q ++ [name])).
Proof.
  intros Hcons Hnames Hbound. cbv zeta.
  pose proof (proj2 (acquireConnection_sweepsFirst env tid s)) as Hno.
  pose proof (acquireConnection_owned env tid s Hcons) as Howned.
  pose proof (acquireConnection_consistent env tid s Hcons Hbound) as Hafter.
  assert (Hshape :
    m_activeTxByThread (fst (snd (acquireConnection env tid s)))
    = m_activeTxByThread (fst (cleanupFinishedThreads s))
    /\ match m_activeTxByThread (fst (cleanupFinishedThreads s)) !! tid with
       | Some bound =>
           fst (acquireConnection env tid s) = bound
           /\ m_usedConnections (fst (snd (acquireConnection env tid s)))
              = m_usedConnections (fst s)
       | None =>
           (fst (acquireConnection env tid s) = "" ->
            m_usedConnections (fst (snd (acquireConnection env tid s)))
            = m_usedConnections (fst s))
           /\ (fst (acquireConnection env tid s) <> "" ->
               m_usedConnections (fst (snd (acquireConnection env tid s)))
               = {[fst (acquireConnection env tid s)]} ∪ m_usedConnections (fst s)
               /\ fst (acquireConnection env tid s) ∉ m_usedConnections (fst s))
       end).
  { pose proof (cleanup_consistent s Hcons) as Hsw.
    pose proof (cleanup_namesNonEmpty s Hnames) as Hswn.
    destruct (cleanup_frame s) as (_ & Hu & Hcnt & _).
    rewrite acquireConnection_unfold. cbv zeta.
    destruct (cleanupFinishedThreads s) as [p w]. simpl in *.
    destruct (m_activeTxByThread p !! tid) as [bound|] eqn:Hb; [simpl; auto|].
    set (s0 := (set_threadRefs (<[tid := RefLive]> (m_threadRefs p)) p, w)).
    pose proof (takeOrCreate_frame env tid s0) as [Htx _].
    pose proof (takeOrCreate_empty_used env tid s0 Hswn) as Hempty.
    pose proof (takeOrCreate_not_in_use env tid s0 Hsw ltac:(simpl; lia)) as Hfresh.
    pose proof (takeOrCreate_effect env tid s0) as Heff.
    destruct (takeOrCreate env tid s0) as [name [p1 w1]]. simpl in *.
    rewrite <- Hu. split; [exact Htx|]. split; [exact Hempty|].
    intros Hname. destruct (Heff name p1 w1 eq_refl Hname) as (Hused & _).
    auto. }
  destruct Hshape as [Htx Hshape].
  destruct (acquireConnection env tid s) as [name [p1 w1]]. simpl in *.
  assert (Hno' : noStaleThread (fst (p1, w1 ++ evs))) by exact Hno.
  case_bool_decide as Hname.
  { simpl. split; [|split; [exact Htx|split; [reflexivity|congruence]]].
    destruct (m_activeTxByThread (fst (cleanupFinishedThreads s)) !! tid);
      [exact (proj2 Hshape)|exact (proj1 Hshape Hname)]. }
  destruct (Howned Hname) as (Hown & Hin & _).
  destruct (m_activeTxByThread (fst (cleanupFinishedThreads s)) !! tid)
    as [bound|] eqn:Hb.
  - destruct Hshape as [-> Hused].
    rewrite releaseConnection_noop.
    + rewrite (cleanup_id _ Hno'). simpl. split; [exact Hused|]. split; [exact Htx|].
      split; [reflexivity|]. discriminate.
    + right. rewrite (cleanup_id _ Hno'). simpl. rewrite Hown. simpl.
      rewrite Htx, Hb. reflexivity.
  - destruct (proj2 Hshape Hname) as [Hused Hfresh].
    rewrite releaseConnection_requeues.
    + rewrite (cleanup_id _ Hno'). simpl. split.
      * rewrite Hused. apply set_eq. intros n.
        rewrite elem_of_difference, elem_of_union, elem_of_singleton.
        split; [tauto|]. intros Hn. split; [right; exact Hn|]. intros ->. contradiction.
      * split; [exact Htx|]. split; [reflexivity|]. intros _ _.
        rewrite Hown. simpl. eexists. apply lookup_insert_eq.
    + exact Hin.
    + rewrite (cleanup_id _ Hno'). simpl. rewrite Hown. simpl.
      rewrite Htx, Hb. simpl. congruence.
Qed.

Section ScopedConnections.

Context (env : Native).

(** The same for any method built on [acquireDb]: its body cannot reach the
    pool. *)
Lemma scoped_restores {A : Type} t tid (body : ScopedDb -> World -> A * World) p w :
  consistent p ->
  namesNonEmpty p ->
  m_connectionCounter p + 1 < 2 ^ 31 ->
  exists p',
    fst (snd (scoped env t tid body (Some p, w))) = Some p'
    /\ m_usedConnections p' = m_usedConnections p
    /\ m_activeTxByThread p'
       = m_activeTxByThread (fst (cleanupFinishedThreads (p, w)))
    /\ (fst (acquireConnection env tid (p, w)) <> "" ->
        m_activeTxByThread (fst (cleanupFinishedThreads (p, w))) !! tid = None ->
        exists q, m_availableByThread p' !! tid
                  = Some (q ++ [fst (acquireConnection env tid (p, w))])).
Proof.
  intros Hcons Hnames Hbound. unfold scoped, acquireDb. simpl.
  destruct (acquireConnection env tid (p, w)) as [name [p1 w1]] eqn:Hacq.
  destruct (body (mkScopedDb name name true) w1) as [result w2] eqn:Hbody.
  unfold releaseDb. cbn [fst snd sd_pool sd_name andb].
  pose proof (acquire_release_restores env tid (p, w) [] Hcons Hnames Hbound) as Hrestore.
  cbv zeta in Hrestore. rewrite Hacq in Hrestore. simpl in Hrestore.
  case_bool_decide as Hname; cbn [negb].
  - exists p1. simpl. destruct Hrestore as (Hu & Htx & _ & Hq).
    split; [reflexivity|]. split; [exact Hu|]. split; [exact Htx|]. exact Hq.
  - assert (Hsame : fst (releaseConnection tid name (p1, w2))
                    = fst (releaseConnection tid name (p1, w1 ++ []))).
    { pose proof (proj2 (acquireConnection_sweepsFirst env tid (p, w))) as Hno.
      rewrite Hacq in Hno. simpl in Hno.
      unfold releaseConnection.
      rewrite (cleanup_id (p1, w2)) by exact Hno.
      rewrite (cleanup_id (p1, w1 ++ [])) by exact Hno.
      repeat case_bool_decide; reflexivity. }
    destruct (releaseConnection tid name (p1, w2)) as [p2 w3]. simpl in Hsame.
    exists p2. simpl. rewrite Hsame. destruct Hrestore as (Hu & Htx & _ & Hq).
    split; [reflexivity|]. split; [exact Hu|]. split; [exact Htx|]. exact Hq.
Qed.

End ScopedConnections.

(** X13 ([BaseTableOperations::acquireDb], [ScopedDb::~ScopedDb], [dropTable],
    [truncateTable], [CameraInfoTableOperations::createTable]).  A table
    object working on a pool in a state the pool can reach hands back the
    connection it took: after [dropTable], [truncateTable] or [createTable],
    on whichever path they return, the in-use set is what it was before the
    call and no transaction binding has changed beyond the sweep; the
    connection obtained, when the thread holds no transaction, waits at the
    back of the calling thread's idle queue. *)
Theorem table_operations_hand_their_connection_back
    (env : Native) (t : BaseTableOperations) (tid : string)
    (p : Pool) (w0 w : World) :
  reachable env (p, w0) ->
  m_connectionCounter p + 1 < 2 ^ 31 ->
  let handedBack := fun (r : bool * (option Pool * World)) =>
    exists p',
      fst (snd r) = Some p'
      /\ m_usedConnections p' = m_usedConnections p
      /\ m_activeTxByThread p'
         = m_activeTxByThread (fst (cleanupFinishedThreads (p, w)))
      /\ (fst (acquireConnection env tid (p, w)) <> "" ->
          m_activeTxByThread (fst (cleanupFinishedThreads (p, w))) !! tid = None ->
          exists q, m_availableByThread p' !! tid
                    = Some (q ++ [fst (acquireConnection env tid (p, w))])) in
  handedBack (dropTable env t tid (Some p, w))
  /\ handedBack (truncateTable env t tid (Some p, w))
  /\ handedBack (createTable env t tid (Some p, w)).
Proof.
  intros Hreach Hbound. cbv zeta.
  pose proof (reachable_consistent env _ Hreach) as Hcons.
  pose proof (reachable_namesNonEmpty env _ Hreach) as Hnames.
  simpl in Hcons, Hnames.
  unfold dropTable, truncateTable, createTable.
  split; [|split]; apply scoped_restores; assumption.
Qed.

Lemma table_operations_hand_their_connection_back_witness :
  let s := run nativeOk [OpAcquire "8"] freshPool in
  let r := dropTable nativeOk (CameraInfoTableOperations "db") "7" (Some (fst s), snd s) in
  reachable nativeOk (fst s, snd s)
  /\ fst r = true
  /\ snd (snd r) = snd s ++ [EvAddDatabase "db_7_2"; EvConfigure "db_7_2";
                             EvExec "db_7_2" "DROP TABLE IF EXISTS camera_info"]
  /\ exists p', fst (snd r) = Some p'
                /\ m_usedConnections p' = m_usedConnections (fst s).
Proof.
  cbv zeta.
  assert (Hreach : reachable nativeOk
            (fst (run nativeOk [OpAcquire "8"] freshPool),
             snd (run nativeOk [OpAcquire "8"] freshPool))).
  { exists sampleConfig, [OpAcquire "8"]. split; [simpl; lia|].
    vm_compute. reflexivity. }
  split; [exact Hreach|]. split; [vm_compute; reflexivity|].
  split; [vm_compute; reflexivity|].
  destruct (table_operations_hand_their_connection_back nativeOk
              (CameraInfoTableOperations "db") "7" _ _
              (snd (run nativeOk [OpAcquire "8"] freshPool)) Hreach)
    as [(p' & Hp' & Hu & _) _].
  - vm_compute; reflexivity.
  - exists p'. auto.
Defined.

(** ** Table operations inside a transaction *)

Section TableInTransaction.

Context (env : Native).

Lemma scoped_in_transaction t tid name sql p w :
  consistent p ->
  namesNonEmpty p ->
  m_activeTxByThread p !! tid = Some name ->
  m_threadRefs p !! tid <> Some RefNull ->
  let swept := cleanupFinishedThreads (p, w) in
  let isOpen := nat_isOpen env (snd swept) name in
  scoped env t tid (execIfOpen env sql) (Some p, w)
  = (isOpen && nat_exec env (snd swept) name sql,
     (Some (set_threadRefs (<[tid := RefLive]> (m_threadRefs (fst swept))) (fst swept)),
      if isOpen then snd swept ++ [EvExec name sql] else snd swept)).
Proof.
  intros Hcons Hnames Hb Hlive. cbv zeta.
  pose proof (cleanup_consistent (p, w) Hcons) as Hcons'.
  pose proof (cleanup_noStale (p, w)) as Hno.
  assert (Hb' : m_activeTxByThread (fst (cleanupFinishedThreads (p, w))) !! tid
                = Some name).
  { rewrite cleanup_activeTx. simpl.
    destruct (m_threadRefs p !! tid) as [[|]|]; congruence. }
  assert (Hname : name <> "") by apply (proj1 Hnames tid name Hb).
  unfold scoped, acquireDb. cbn [fst snd].
  rewrite acquireConnection_unfold. cbv zeta. rewrite Hb'.
  destruct (cleanupFinishedThreads (p, w)) as [p1 w1]. simpl in *.
  set (p2 := set_threadRefs (<[tid := RefLive]> (m_threadRefs p1)) p1).
  assert (Hrelease : forall w2, releaseConnection tid name (p2, w2) = (p2, w2)).
  { intros w2.
    assert (Hno2 : noStaleThread (fst (p2, w2))).
    { intros k. simpl. destruct (decide (tid = k)) as [->|Hne].
      - rewrite lookup_insert_eq. discriminate.
      - rewrite lookup_insert_ne by exact Hne. apply Hno. }
    rewrite releaseConnection_noop; [apply cleanup_id, Hno2|].
    right. rewrite (cleanup_id _ Hno2). simpl.
    destruct Hcons' as (_ & _ & _ & _ & Hbind).
    destruct (Hbind tid name Hb') as [-> _]. simpl. rewrite Hb'. reflexivity. }
  unfold execIfOpen. simpl sd_db.
  destruct (nat_isOpen env w1 name); cbn [negb andb];
    unfold releaseDb; cbn [fst snd sd_pool sd_name andb];
    rewrite bool_decide_eq_false_2 by exact Hname; cbn [negb];
    rewrite Hrelease; reflexivity.
Qed.

End TableInTransaction.

(** X14 ([BaseTableOperations::acquireDb], [ScopedDb::~ScopedDb], [dropTable],
    [truncateTable]).  On a thread that holds a transaction and whose
    thread reference in the pool has not expired (the reference is absent or
    live: the thread object is the one the pool has seen), [dropTable] and
    [truncateTable] run their statement on the transaction's connection and
    on no other, and return what the native layer answers there ([false],
    without executing, when that connection is not open).  They leave the
    transaction binding and the in-use set as they were: the release that
    the destructor of the scoped handle asks for is ignored while the
    transaction lasts. *)
Theorem table_operation_runs_on_the_transaction_connection
    (env : Native) (t : BaseTableOperations) (tid name : string)
    (p : Pool) (w0 w : World) :
  reachable env (p, w0) ->
  m_activeTxByThread p !! tid = Some name ->
  m_threadRefs p !! tid <> Some RefNull ->
  let swept := cleanupFinishedThreads (p, w) in
  let isOpen := nat_isOpen env (snd swept) name in
  let after := fun sql =>
    (Some (set_threadRefs (<[tid := RefLive]> (m_threadRefs (fst swept))) (fst swept)),
     if isOpen then snd swept ++ [EvExec name sql] else snd swept) in
  let drop := "DROP TABLE IF EXISTS " +:+ m_tableName t in
  let truncate := "DELETE FROM " +:+ m_tableName t in
  dropTable env t tid (Some p, w)
  = (isOpen && nat_exec env (snd swept) name drop, after drop)
  /\ truncateTable env t tid (Some p, w)
     = (isOpen && nat_exec env (snd swept) name truncate, after truncate)
  /\ m_activeTxByThread (fst swept) !! tid = Some name
  /\ m_usedConnections (fst swept) = m_usedConnections p.
Proof.
  intros Hreach Hb Hlive. cbv zeta.
  pose proof (reachable_consistent env _ Hreach) as Hcons.
  pose proof (reachable_namesNonEmpty env _ Hreach) as Hnames.
  simpl in Hcons, Hnames. unfold dropTable, truncateTable.
  split; [apply scoped_in_transaction; assumption|].
  split; [apply scoped_in_transaction; assumption|].
  split; [|apply (cleanup_frame (p, w))].
  rewrite cleanup_activeTx. simpl.
  destruct (m_threadRefs p !! tid) as [[|]|]; congruence.
Qed.

Lemma table_operation_runs_on_the_transaction_connection_witness :
  let s := run nativeOk [OpBegin "7"] freshPool in
  reachable nativeOk (fst s, snd s)
  /\ m_activeTxByThread (fst s) !! "7" = Some "db_7_1"
  /\ snd (snd (truncateTable nativeOk (CameraInfoTableOperations "db") "7"
                 (Some (fst s), snd s)))
     = snd s ++ [EvExec "db_7_1" "DELETE FROM camera_info"].
Proof.
  cbv zeta.
  assert (Hreach : reachable nativeOk
            (fst (run nativeOk [OpBegin "7"] freshPool),
             snd (run nativeOk [OpBegin "7"] freshPool))).
  { exists sampleConfig, [OpBegin "7"]. split; [simpl; lia|].
    vm_compute. reflexivity. }
  split; [exact Hreach|]. split; [vm_compute; reflexivity|].
  destruct (table_operation_runs_on_the_transaction_connection nativeOk
              (CameraInfoTableOperations "db") "7" "db_7_1" _ _
              (snd (run nativeOk [OpBegin "7"] freshPool)) Hreach)
    as (_ & Htruncate & _).
  - vm_compute; reflexivity.
  - vm_compute; discriminate.
  - cbv zeta in Htruncate. rewrite Htruncate. vm_compute. reflexivity.
Defined.

(** ** Pages *)

Lemma newPageResult_pages {T : Type} (list : list T) total params :
  0 < PageParams.pageSize params ->
  0 <= total ->
  total + PageParams.pageSize params < 2 ^ 31 ->
  newPageResult list total params
  = Some (PageResult.mk list total
            ((total + PageParams.pageSize params - 1) / PageParams.pageSize params)
            (PageParams.pageIndex params) (PageParams.pageSize params)).
Proof.
  intros Hsize Htotal Hbound. unfold newPageResult, div32. cbv zeta.
  rewrite (wrap32_small (total + _)) by lia.
  rewrite wrap32_small by lia.
  rewrite bool_decide_eq_false_2 by lia.
  rewrite bool_decide_eq_false_2 by lia.
  rewrite Z.quot_div_nonneg by lia. reflexivity.
Qed.

Lemma ceiling_bounds total size :
  0 < size -> 0 <= total ->
  ((total + size - 1) / size - 1) * size < total <= (total + size - 1) / size * size.
Proof.
  intros Hsize Htotal.
  pose proof (Z.div_mod (total + size - 1) size ltac:(lia)) as Hdm.
  pose proof (Z.mod_pos_bound (total + size - 1) size Hsize) as Hmod.
  nia.
Qed.

(** X15 (constructor [PageResult(list, total, params)]).  For a positive page
    size and a total that is not negative, with their sum below 2^31, the
    constructor keeps the list, the total, the page index and the page size,
    and [totalPages] is the total divided by the page size and rounded up:
    the pages hold the total and one page less would not; there are no
    pages exactly when there are no rows. *)
Theorem totalPages_is_the_ceiling
    (T : Type) (list : list T) (total : Z) (params : PageParams.t) :
  0 < PageParams.pageSize params ->
  0 <= total ->
  total + PageParams.pageSize params < 2 ^ 31 ->
  exists r,
    newPageResult list total params = Some r
    /\ PageResult.data r = list
    /\ PageResult.totalCount r = total
    /\ PageResult.currentPage r = PageParams.pageIndex params
    /\ PageResult.pageSize r = PageParams.pageSize params
    /\ (PageResult.totalPages r - 1) * PageParams.pageSize params < total
       <= PageResult.totalPages r * PageParams.pageSize params
    /\ (PageResult.totalPages r = 0 <-> total = 0).
Proof.
  intros Hsize Htotal Hbound. eexists.
  split; [apply newPageResult_pages; assumption|]. simpl.
  pose proof (ceiling_bounds total _ Hsize Htotal) as Hceil.
  repeat split; try apply Hceil; nia.
Qed.

Lemma totalPages_is_the_ceiling_witness :
  exists r,
    newPageResult ["a"; "b"; "c"] 41 (PageParams.mk 3 20 "" true) = Some r
    /\ PageResult.totalPages r = 3.
Proof.
  destruct (totalPages_is_the_ceiling string ["a"; "b"; "c"] 41
              (PageParams.mk 3 20 "" true)) as (r & Hr & _ & _ & _ & _ & Hceil & _);
    [simpl; lia ..|].
  exists r. split; [exact Hr|]. simpl in Hceil. lia.
Defined.

(** X16 ([PageParams::offset], constructor [PageResult]).  With a positive page
    size and the total plus the page size below 2^31, the first page starts
    at offset 0, and each row number below the total lies in the window of
    [pageSize] rows that starts at [offset()] for exactly one page index
    between 1 and [totalPages]. *)
Theorem every_row_is_on_exactly_one_page
    (T : Type) (list : list T) (total size row : Z) (orderBy : string) (ascending : bool) :
  0 < size ->
  total + size < 2 ^ 31 ->
  0 <= row < total ->
  let page := fun index => PageParams.mk index size orderBy ascending in
  exists r,
    newPageResult list total (page 1) = Some r
    /\ PageParams.offset (page 1) = 0
    /\ exists index,
         1 <= index <= PageResult.totalPages r
         /\ PageParams.offset (page index) <= row < PageParams.offset (page index) + size
         /\ forall other,
              1 <= other <= PageResult.totalPages r ->
              PageParams.offset (page other) <= row
                < PageParams.offset (page other) + size ->
              other = index.
Proof.
  intros Hsize Hbound Hrow. cbv zeta.
  assert (Hoffset : forall index,
            1 <= index -> (index - 1) * size < 2 ^ 31 ->
            PageParams.offset (PageParams.mk index size orderBy ascending)
            = (index - 1) * size).
  { intros index Hindex Hfit. unfold PageParams.offset. simpl.
    rewrite (wrap32_small (index - 1)) by nia. apply wrap32_small. nia. }
  pose proof (ceiling_bounds total size Hsize ltac:(lia)) as Hceil.
  eexists. split; [apply newPageResult_pages; simpl; lia|]. simpl.
  split; [apply (Hoffset 1); lia|].
  pose proof (Z.div_mod row size ltac:(lia)) as Hdm.
  pose proof (Z.mod_pos_bound row size Hsize) as Hmod.
  pose proof (Z.div_pos row size ltac:(lia) Hsize) as Hq.
  exists (row / size + 1). split; [nia|].
  rewrite Hoffset by nia. split; [nia|].
  intros other Hother. rewrite Hoffset by nia. nia.
Qed.

Lemma every_row_is_on_exactly_one_page_witness :
  PageParams.offset (PageParams.mk 3 20 "" true) = 40
  /\ exists r index,
       newPageResult ["a"] 41 (PageParams.mk 1 20 "" true) = Some r
       /\ 1 <= index <= PageResult.totalPages r
       /\ PageParams.offset (PageParams.mk index 20 "" true) <= 40
          < PageParams.offset (PageParams.mk index 20 "" true) + 20.
Proof.
  split; [reflexivity|].
  destruct (every_row_is_on_exactly_one_page string ["a"] 41 20 40 "" true)
    as (r & Hr & _ & index & Hindex & Hon & _); [lia ..|].
  exists r, index. auto.
Defined.

(** ** The ORDER BY column *)

Lemma name_is_a_column : "name" ∈ orderByColumns.
Proof. apply (bool_decide_eq_true_1 _). vm_compute. reflexivity. Qed.

Lemma sanitizeOrderBy_column col : sanitizeOrderBy col ∈ orderByColumns.
Proof. unfold sanitizeOrderBy. case_bool_decide; [assumption|apply name_is_a_column]. Qed.

(** X17 ([CameraInfoTable::sanitizeOrderBy], [CameraInfoTable::selectByPage]).
    [sanitizeOrderBy] always returns one of the eight column names of its
    list: the column itself when it is in the list, and name otherwise.
    So the statement [selectByPage] builds orders by a column of that list,
    the requested one when it is listed, whatever text the caller puts into
    [orderBy]. *)
Theorem selectByPage_orders_by_a_known_column (params : PageParams.t) :
  (forall col, sanitizeOrderBy col ∈ orderByColumns)
  /\ (forall col, col ∈ orderByColumns -> sanitizeOrderBy col = col)
  /\ (forall col, col ∉ orderByColumns -> sanitizeOrderBy col = "name")
  /\ exists column,
       column ∈ orderByColumns
       /\ (PageParams.orderBy params ∈ orderByColumns ->
           column = PageParams.orderBy params)
       /\ selectByPage_sql params
          = "SELECT id,name,version,connection_type,serial_number,manufacturer,created_at,updated_at FROM camera_info ORDER BY "
            +:+ column +:+ " "
            +:+ (if PageParams.ascending params then "ASC" else "DESC")
            +:+ " LIMIT " +:+ pretty (PageParams.pageSize params)
            +:+ " OFFSET " +:+ pretty (PageParams.offset params).
Proof.
  split; [apply sanitizeOrderBy_column|].
  split; [intros col Hin; unfold sanitizeOrderBy;
          rewrite bool_decide_eq_true_2 by exact Hin; reflexivity|].
  split; [intros col Hout; unfold sanitizeOrderBy;
          rewrite bool_decide_eq_false_2 by exact Hout; reflexivity|].
  unfold selectByPage_sql. cbv zeta.
  case_bool_decide as Hempty.
  - exists "name". split; [apply name_is_a_column|]. split; [|reflexivity].
    rewrite Hempty. intros Hin. exfalso. revert Hin.
    apply (bool_decide_eq_false_1 _). vm_compute. reflexivity.
  - exists (sanitizeOrderBy (PageParams.orderBy params)).
    split; [apply sanitizeOrderBy_column|]. split; [|reflexivity].
    intros Hin. unfold sanitizeOrderBy.
    rewrite bool_decide_eq_true_2 by exact Hin. reflexivity.
Qed.

(** ** Validation of a camera *)

Lemma utf16_ascii bytes :
  Forall (fun b => b < 128) bytes -> utf16_decode 0 0 bytes = bytes.
Proof.
  induction 1 as [|b bytes Hb _ IH]; [reflexivity|].
  simpl. rewrite (proj2 (Z.ltb_lt b 128) Hb), IH. reflexivity.
Qed.

(** For text in ASCII the length is the number of bytes. *)
Lemma qlength_ascii s :
  Forall (fun a => (N_of_ascii a < 128)%N) (String.list_ascii_of_string s) ->
  qlength s = Z.of_nat (String.length s).
Proof.
  intros Hascii. unfold qlength, utf16. rewrite utf16_ascii.
  - rewrite length_map. f_equal. clear Hascii.
    induction s as [|a s IH]; simpl; [reflexivity|]. rewrite IH. reflexivity.
  - apply Forall_map. eapply Forall_impl; [exact Hascii|].
    intros a Ha. cbv beta in Ha. lia.
Qed.

(** Beyond ASCII a character counts once when it lies below 2^16, whatever
    the number of its bytes, and twice above. *)
Lemma qlength_counts_code_units :
  qlength "camera-01" = 9
  /\ qlength "相机名称" = 4
  /\ Z.of_nat (String.length "相机名称") = 12
  /\ utf16 "é" = [233]
  /\ utf16 "相" = [30456]
  /\ utf16 "😀" = [55357; 56832].
Proof. repeat split; vm_compute; reflexivity. Qed.

Section CameraValidation.

Context (isPrint isSpace : Z -> bool).

Lemma qlength_nonneg s : 0 <= qlength s.
Proof. unfold qlength. lia. Qed.

Lemma qlength_empty s : s = "" -> qlength s = 0.
Proof. intros ->. reflexivity. Qed.

Lemma validateCameraInfo_success camera isUpdate :
  DbResult.success (validateCameraInfo isPrint isSpace camera isUpdate) = true
  <-> CameraInfo.name camera <> ""
      /\ CameraInfo.serialNumber camera <> ""
      /\ qlength (CameraInfo.name camera) <= 255
      /\ qlength (CameraInfo.serialNumber camera) <= 100
      /\ qlength (CameraInfo.version camera) <= 50
      /\ qlength (CameraInfo.connectionType camera) <= 50
      /\ qlength (CameraInfo.manufacturer camera) <= 255
      /\ Forall (fun ch => isPrint ch = true /\ isSpace ch = false)
           (utf16 (CameraInfo.serialNumber camera)).
Proof.
  assert (Hchars : forall l,
            existsb (fun ch => negb (isPrint ch) || isSpace ch) l = false
            <-> Forall (fun ch => isPrint ch = true /\ isSpace ch = false) l).
  { induction l as [|ch l IH]; simpl.
    - split; [constructor|reflexivity].
    - rewrite Forall_cons, <- IH.
      destruct (isPrint ch), (isSpace ch); simpl; intuition congruence. }
  unfold validateCameraInfo.
  repeat (case_bool_decide; cbn [negb andb]);
    try (simpl; split; [discriminate|]; intros (? & ? & ? & ? & ? & ? & ? & ?);
         first [contradiction | lia]);
    try (destruct (existsb _ _) eqn:Hbad; simpl;
         [ split; [discriminate|]; intros (? & ? & ? & ? & ? & ? & ? & Hall);
           apply Hchars in Hall; congruence
         | split; [intros _|reflexivity];
           repeat match goal with
                  | H : _ = "" |- _ => apply qlength_empty in H
                  end;
           repeat split; try assumption; try lia; apply Hchars, Hbad ]).
Qed.

End CameraValidation.

(** X18 ([CameraInfoTable::validateCameraInfo], [CameraInfo::isValid]).
    [validateCameraInfo] succeeds exactly when the name and the serial
    number are not empty, the name and the manufacturer have a
    [QString::length()] of at most 255 (lengths count UTF-16 code units, not
    bytes), the serial number of at most 100, the version and the
    connection type of at most 50, and every [QChar] of the serial number
    is printable and is no space; [isUpdate] plays no part.  A camera it
    accepts satisfies [isValid]; a refusal carries a message that is not
    empty and the payload [false]. *)
Theorem validateCameraInfo_accepts
    (isPrint isSpace : Z -> bool) (camera : CameraInfo.t) (isUpdate : bool) :
  let result := validateCameraInfo isPrint isSpace camera isUpdate in
  (DbResult.success result = true
   <-> CameraInfo.name camera <> ""
       /\ CameraInfo.serialNumber camera <> ""
       /\ qlength (CameraInfo.name camera) <= 255
       /\ qlength (CameraInfo.serialNumber camera) <= 100
       /\ qlength (CameraInfo.version camera) <= 50
       /\ qlength (CameraInfo.connectionType camera) <= 50
       /\ qlength (CameraInfo.manufacturer camera) <= 255
       /\ Forall (fun ch => isPrint ch = true /\ isSpace ch = false)
            (utf16 (CameraInfo.serialNumber camera)))
  /\ (DbResult.success result = true ->
      CameraInfo.isValid camera = true /\ result = DbResult.Success true)
  /\ (DbResult.success result = false ->
      DbResult.errorMessage result <> "" /\ DbResult.data result = false).
Proof.
  cbv zeta. split; [apply validateCameraInfo_success|]. split.
  - intros Hok. split.
    + apply validateCameraInfo_success in Hok as (Hname & Hserial & _).
      unfold CameraInfo.isValid.
      rewrite !bool_decide_eq_false_2 by assumption. reflexivity.
    + revert Hok. unfold validateCameraInfo.
      repeat case_match; simpl; intros Hok; try discriminate Hok; reflexivity.
  - unfold validateCameraInfo.
    repeat case_match; simpl; intros Hfail; try discriminate Hfail;
      (split; [discriminate|reflexivity]).
Qed.

(** ** The first pass of batchInsert *)

Section BatchScan.

Context (isPrint isSpace : Z -> bool).

Lemma batchScan_snoc cameras cam :
  batchScan isPrint isSpace (cameras ++ [cam])
  = batchScanStep isPrint isSpace (batchScan isPrint isSpace cameras) cam.
Proof. unfold batchScan. rewrite fold_left_app. reflexivity. Qed.

Lemma batchScan_invariant cameras :
  let scan := batchScan isPrint isSpace cameras in
  deduped scan `sublist_of` cameras
  /\ NoDup (CameraInfo.serialNumber <$> deduped scan)
  /\ (forall sn, sn ∈ seenSerials scan
                 <-> sn ∈ (CameraInfo.serialNumber <$> deduped scan))
  /\ Forall (passesValidation isPrint isSpace) (deduped scan)
  /\ (length (deduped scan) + length (errors scan) = length cameras)%nat
  /\ (forall cam, cam ∈ cameras -> passesValidation isPrint isSpace cam ->
        CameraInfo.serialNumber cam ∈ seenSerials scan)
  /\ (forall before cam after,
        cameras = before ++ cam :: after ->
        passesValidation isPrint isSpace cam ->
        (forall b, b ∈ before -> passesValidation isPrint isSpace b ->
           CameraInfo.serialNumber b <> CameraInfo.serialNumber cam) ->
        cam ∈ deduped scan).
Proof.
  cbv zeta. induction cameras as [|cam cameras IH] using rev_ind.
  - unfold batchScan. simpl.
    split; [constructor|]. split; [constructor|].
    split; [intros sn; rewrite elem_of_empty, elem_of_nil; reflexivity|].
    split; [constructor|]. split; [reflexivity|].
    split; [intros cam Hin; inversion Hin|].
    intros [|b before] cam after Heq; discriminate.
  - destruct IH as (Hsub & Hnd & Hseen & Hvalid & Hlen & Hall & Hfirst).
    rewrite batchScan_snoc. unfold batchScanStep.
    set (scan := batchScan isPrint isSpace cameras) in *.
    assert (Hsplit : forall before c after,
              cameras ++ [cam] = before ++ c :: after ->
              (after = [] /\ c = cam /\ before = cameras)
              \/ exists after', after = after' ++ [cam]
                                /\ cameras = before ++ c :: after').
    { intros before c after Heq.
      destruct after as [|a after _] using rev_ind.
      - left. apply app_inj_tail in Heq as [-> ->]. auto.
      - right. exists after.
        rewrite app_comm_cons, app_assoc in Heq.
        apply app_inj_tail in Heq as [-> ->]. auto. }
    destruct (DbResult.success (validateCameraInfo isPrint isSpace cam false))
      eqn:Hcam; cbn [negb].
    + case_bool_decide as Hdup; simpl.
      * split; [apply sublist_inserts_r, Hsub|]. split; [exact Hnd|].
        split; [exact Hseen|]. split; [exact Hvalid|].
        split; [rewrite !length_app; simpl; lia|].
        split.
        -- intros c Hin Hc. apply elem_of_app in Hin as [Hin|Hin]; [auto|].
           apply list_elem_of_singleton in Hin. subst c. exact Hdup.
        -- intros before c after Heq Hc Hnone.
           destruct (Hsplit before c after Heq) as [(-> & -> & ->)|(after' & -> & Hcams)].
           ++ exfalso. apply Hseen in Hdup.
              apply list_elem_of_fmap in Hdup as (d & Hsn & Hd).
              apply (Hnone d); [|apply (proj1 (Forall_forall _ _) Hvalid d Hd)|congruence].
              apply (elem_of_sublist _ _ _ Hd Hsub).
           ++ apply (Hfirst before c after' Hcams Hc Hnone).
      * split; [apply sublist_app; [exact Hsub|reflexivity]|].
        split.
        { rewrite fmap_app. apply NoDup_app. split; [exact Hnd|].
          split; [|apply NoDup_singleton].
          intros sn Hsn Hsn'. simpl in Hsn'. apply list_elem_of_singleton in Hsn'.
          subst sn. apply Hdup, Hseen, Hsn. }
        split.
        { intros sn. rewrite fmap_app, elem_of_app, elem_of_union, elem_of_singleton.
          simpl. rewrite list_elem_of_singleton, Hseen. tauto. }
        split; [apply Forall_app; split; [exact Hvalid|constructor; [exact Hcam|constructor]]|].
        split; [rewrite !length_app; simpl; lia|].
        split.
        -- intros c Hin Hc. apply elem_of_union.
           apply elem_of_app in Hin as [Hin|Hin]; [right; auto|].
           apply list_elem_of_singleton in Hin. subst c.
           left. apply elem_of_singleton. reflexivity.
        -- intros before c after Heq Hc Hnone. apply elem_of_app.
           destruct (Hsplit before c after Heq) as [(-> & -> & ->)|(after' & -> & Hcams)].
           ++ right. apply list_elem_of_singleton. reflexivity.
           ++ left. apply (Hfirst before c after' Hcams Hc Hnone).
    + simpl.
      split; [apply sublist_inserts_r, Hsub|]. split; [exact Hnd|].
      split; [exact Hseen|]. split; [exact Hvalid|].
      split; [rewrite !length_app; simpl; lia|].
      split.
      * intros c Hin Hc. apply elem_of_app in Hin as [Hin|Hin]; [auto|].
        apply list_elem_of_singleton in Hin. subst c. unfold passesValidation in Hc. congruence.
      * intros before c after Heq Hc Hnone.
        destruct (Hsplit before c after Heq) as [(-> & -> & ->)|(after' & -> & Hcams)].
        -- unfold passesValidation in Hc. congruence.
        -- apply (Hfirst before c after' Hcams Hc Hnone).
Qed.

End BatchScan.

(** X19 (first loop of [CameraInfoTable::batchInsert], [validateCameraInfo]).
    The cameras the first loop of [batchInsert] keeps for insertion are
    cameras of the batch in their order, all of them pass the validation
    and no two have the same serial number; each camera left out adds one
    message.  Every serial number of a valid camera of the batch is kept,
    and the camera kept for it is the first valid one that carries it. *)
Theorem batchInsert_keeps_the_first_of_each_serial_number
    (isPrint isSpace : Z -> bool) (cameras : list CameraInfo.t) :
  let valid := fun cam =>
    DbResult.success (validateCameraInfo isPrint isSpace cam false) = true in
  let scan := batchScan isPrint isSpace cameras in
  deduped scan `sublist_of` cameras
  /\ NoDup (CameraInfo.serialNumber <$> deduped scan)
  /\ Forall valid (deduped scan)
  /\ (length (deduped scan) + length (errors scan) = length cameras)%nat
  /\ (forall cam, cam ∈ cameras -> valid cam ->
        exists kept, kept ∈ deduped scan
                     /\ CameraInfo.serialNumber kept = CameraInfo.serialNumber cam)
  /\ (forall before cam after,
        cameras = before ++ cam :: after ->
        valid cam ->
        (forall b, b ∈ before -> valid b ->
           CameraInfo.serialNumber b <> CameraInfo.serialNumber cam) ->
        cam ∈ deduped scan).
Proof.
  cbv zeta.
  destruct (batchScan_invariant isPrint isSpace cameras)
    as (Hsub & Hnd & Hseen & Hvalid & Hlen & Hall & Hfirst).
  split; [exact Hsub|]. split; [exact Hnd|]. split; [exact Hvalid|].
  split; [exact Hlen|]. split; [|exact Hfirst].
  intros cam Hin Hcam. specialize (Hall cam Hin Hcam).
  apply Hseen, list_elem_of_fmap in Hall as (kept & Hsn & Hkept). eauto.
Qed.

(** ** Cameras per manufacturer *)

Lemma countByManufacturer_snoc cameras camera :
  countByManufacturer (cameras ++ [camera])
  = <[statisticsKey camera :=
        wrap32 (default 0 (countByManufacturer cameras !! statisticsKey camera) + 1)]>
      (countByManufacturer cameras).
Proof. unfold countByManufacturer. rewrite fold_left_app. reflexivity. Qed.

Lemma countByManufacturer_lookup cameras key :
  Z.of_nat (length cameras) < 2 ^ 31 ->
  countByManufacturer cameras !! key
  = let n := length (filter (fun camera => statisticsKey camera = key) cameras) in
    if decide (n = 0%nat) then None else Some (Z.of_nat n).
Proof.
  cbv zeta. induction cameras as [|camera cameras IH] using rev_ind; intros Hlen.
  - unfold countByManufacturer. simpl. apply lookup_empty.
  - rewrite length_app in Hlen. simpl in Hlen.
    rewrite countByManufacturer_snoc, filter_app, length_app.
    pose proof (length_filter (fun camera => statisticsKey camera = key) cameras) as Hle.
    destruct (decide (statisticsKey camera = key)) as [Hkey|Hkey].
    + rewrite filter_cons_True by exact Hkey. rewrite filter_nil. simpl length.
      rewrite Hkey, lookup_insert_eq, IH by lia.
      rewrite (decide_False (P := (_ + 1)%nat = 0%nat)) by lia.
      destruct (decide (length (filter _ cameras) = 0%nat)) as [Hnone|Hsome]; simpl.
      * rewrite Hnone. reflexivity.
      * rewrite wrap32_small by lia. f_equal. lia.
    + rewrite filter_cons_False by exact Hkey. rewrite filter_nil. simpl length.
      rewrite lookup_insert_ne by exact Hkey. rewrite IH by lia.
      rewrite Nat.add_0_r. reflexivity.
Qed.

(** X20 ([DeviceDatabaseManager::getCameraStatistics]).  For fewer than 2^31
    cameras, the tally gives under each key the number of cameras counted
    under it, a camera being counted under its manufacturer, or under one
    fixed word when the manufacturer is empty: every camera is counted once,
    no entry is below 1, and the empty string is never a key. *)
Theorem statistics_count_each_camera_once (cameras : list CameraInfo.t) :
  Z.of_nat (length cameras) < 2 ^ 31 ->
  (forall key,
     default 0 (countByManufacturer cameras !! key)
     = Z.of_nat (length (filter (fun camera => statisticsKey camera = key) cameras)))
  /\ (forall key n, countByManufacturer cameras !! key = Some n -> 1 <= n /\ key <> "")
  /\ (forall camera, camera ∈ cameras ->
        is_Some (countByManufacturer cameras !! statisticsKey camera)).
Proof.
  intros Hlen.
  assert (Hkey : forall camera, statisticsKey camera <> "").
  { intros camera. unfold statisticsKey. case_bool_decide; [discriminate|assumption]. }
  split; [|split].
  - intros key. rewrite countByManufacturer_lookup by exact Hlen. cbv zeta.
    destruct (decide _) as [->|]; reflexivity.
  - intros key n. rewrite countByManufacturer_lookup by exact Hlen. cbv zeta.
    destruct (decide _) as [|Hsome]; [discriminate|]. intros [= <-]. split; [lia|].
    intros ->. destruct (filter _ cameras) as [|camera l] eqn:Hfilter; [contradiction|].
    assert (Hin : camera ∈ filter (fun camera => statisticsKey camera = "") cameras)
      by (rewrite Hfilter; left).
    apply list_elem_of_filter in Hin as [Hempty _]. apply (Hkey camera Hempty).
  - intros camera Hin. rewrite countByManufacturer_lookup by exact Hlen. cbv zeta.
    destruct (decide _) as [Hnone|]; [|eauto]. exfalso.
    apply length_zero_iff_nil in Hnone.
    assert (Hin' : camera ∈ filter (fun c => statisticsKey c = statisticsKey camera) cameras).
    { apply list_elem_of_filter. auto. }
    rewrite Hnone in Hin'. inversion Hin'.
Qed.

Lemma statistics_count_each_camera_once_witness :
  let cameras :=
    [CameraInfo.mk 1 "a" "" "USB" "SN1" "Acme" 0 0;
     CameraInfo.mk 2 "b" "" "USB" "SN2" "" 0 0;
     CameraInfo.mk 3 "c" "" "GigE" "SN3" "Acme" 0 0] in
  default 0 (countByManufacturer cameras !! "Acme") = 2
  /\ default 0 (countByManufacturer cameras !! "") = 0.
Proof.
  cbv zeta.
  destruct (statistics_count_each_camera_once
              [CameraInfo.mk 1 "a" "" "USB" "SN1" "Acme" 0 0;
               CameraInfo.mk 2 "b" "" "USB" "SN2" "" 0 0;
               CameraInfo.mk 3 "c" "" "GigE" "SN3" "Acme" 0 0]) as (Hcount & _).
  - simpl. lia.
  - rewrite !Hcount. split; vm_compute; reflexivity.
Defined.

(** ** The pool behind the manager *)

Section ManagerPool.

Context (env : Native).

Lemma timedExec_pool sql s :
  m_connectionPool (fst (snd (timedExec env sql s))) = m_connectionPool (fst s).
Proof. destruct s as [m w]. reflexivity. Qed.

Lemma managerStep_poolKept config o s :
  poolKept config (fst s) -> poolKept config (fst (managerStep env s o)).
Proof.
  destruct s as [m w]. intros (p & Hpool & Hcfg & Hcap). simpl in Hpool.
  destruct o as [tid|tid|tid| | |]; cbn [managerStep].
  - unfold beginTransaction. rewrite Hpool.
    pose proof (beginThreadTransaction_withinCap env tid (p, w) Hcap) as Hcap'.
    pose proof (step_config env (OpBegin tid) (p, w)) as Hcfg'.
    simpl in Hcap', Hcfg'.
    destruct (beginThreadTransaction env tid (p, w)) as [name [p1 w1]].
    exists p1. case_bool_decide; simpl in *; (split; [reflexivity|]); split;
      congruence || assumption.
  - unfold commitTransaction. rewrite Hpool.
    pose proof (commitThreadTransaction_withinCap env tid (p, w) Hcap) as Hcap'.
    pose proof (step_config env (OpCommit tid) (p, w)) as Hcfg'.
    simpl in Hcap', Hcfg'.
    destruct (commitThreadTransaction env tid (p, w)) as [ok [p1 w1]].
    exists p1. destruct ok; simpl in *; (split; [reflexivity|]); split;
      congruence || assumption.
  - unfold rollbackTransaction. rewrite Hpool.
    pose proof (rollbackThreadTransaction_withinCap env tid (p, w) Hcap) as Hcap'.
    pose proof (step_config env (OpRollback tid) (p, w)) as Hcfg'.
    simpl in Hcap', Hcfg'.
    destruct (rollbackThreadTransaction env tid (p, w)) as [ok [p1 w1]].
    exists p1. destruct ok; simpl in *; (split; [reflexivity|]); split;
      congruence || assumption.
  - unfold healthCheck. destruct (nat_isOpen env w _); cbn [negb].
    + exists p. rewrite timedExec_pool. auto.
    + exists p. auto.
  - unfold optimizeDatabase. destruct (nat_isOpen env w _); cbn [negb];
      [|exists p; auto].
    rewrite Hpool.
    pose proof (forceCloseIdleConnections_withinCap (p, w) Hcap) as Hcap'.
    pose proof (step_config env OpForceClose (p, w)) as Hcfg'.
    change (step env (p, w) OpForceClose)
      with (snd (forceCloseIdleConnections (p, w))) in Hcfg'.
    destruct (forceCloseIdleConnections (p, w)) as [closed [p1 w1]].
    simpl in Hcap', Hcfg'.
    case_bool_decide.
    { exists p1. simpl. split; [reflexivity|]. split; [congruence|].
      exact Hcap'. }
    set (s2 := if enableWAL (mgr_config (set_pool (Some p1) m))
               then snd (timedExec env "PRAGMA wal_checkpoint(TRUNCATE)"
                           (set_pool (Some p1) m, w1))
               else (set_pool (Some p1) m, w1)).
    assert (H2 : m_connectionPool (fst s2) = Some p1).
    { unfold s2. destruct (enableWAL _); [rewrite timedExec_pool|]; reflexivity. }
    pose proof (timedExec_pool "VACUUM" s2) as H3.
    destruct (timedExec env "VACUUM" s2) as [vacuumOk s3].
    pose proof (timedExec_pool "ANALYZE" s3) as H4.
    destruct (timedExec env "ANALYZE" s3) as [analyzeOk s4].
    simpl in *. exists p1. split; [congruence|]. split; congruence || assumption.
  - exists p. auto.
Qed.

Lemma managerRun_poolKept config ops : forall s,
  poolKept config (fst s) -> poolKept config (fst (managerRun env ops s)).
Proof.
  induction ops as [|o ops IH]; intros s Hs; [exact Hs|].
  simpl. apply IH, managerStep_poolKept, Hs.
Qed.

Lemma manager_pool_within_cap config ops :
  0 <= maxConnections config ->
  exists p,
    m_connectionPool (fst (managerRun env ops (newManager config, []))) = Some p
    /\ m_config p = config
    /\ withinCap p.
Proof.
  intros Hmax. apply managerRun_poolKept. exists (newPool config).
  split; [reflexivity|]. split; [reflexivity|].
  unfold withinCap, usedCount, availableCount.
  cbn [newPool m_usedConnections m_availableByThread m_config].
  rewrite queueSum_empty, size_empty. simpl. lia.
Qed.

End ManagerPool.

(** X21 ([BaseDatabaseManager::beginTransaction], [commitTransaction],
    [rollbackTransaction], [healthCheck], [optimizeDatabase],
    [resetStatistics]).  Whatever sequence of these calls runs on a new
    manager whose [maxConnections] is not negative, and whatever the native
    layer answers, the manager keeps its pool, and the pool's connections,
    in use and idle together, never exceed [maxConnections]. *)
Theorem manager_keeps_its_pool_within_the_cap
    (env : Native) (config : DatabaseConfig) (ops : list ManagerOp) :
  0 <= maxConnections config ->
  exists p,
    m_connectionPool (fst (managerRun env ops (newManager config, []))) = Some p
    /\ usedCount p + availableCount p <= maxConnections config.
Proof.
  intros Hmax.
  destruct (manager_pool_within_cap env config ops Hmax) as (p & Hpool & Hcfg & Hcap).
  exists p. split; [exact Hpool|]. unfold withinCap in Hcap. rewrite Hcfg in Hcap.
  exact Hcap.
Qed.

Lemma manager_keeps_its_pool_within_the_cap_witness :
  exists p,
    m_connectionPool
      (fst (managerRun nativeOk
              [MgrBegin "7"; MgrBegin "8"; MgrBegin "9"; MgrOptimize; MgrCommit "7";
               MgrOptimize]
              (newManager sampleConfig, []))) = Some p
    /\ usedCount p + availableCount p <= 2.
Proof.
  apply (manager_keeps_its_pool_within_the_cap nativeOk sampleConfig
           [MgrBegin "7"; MgrBegin "8"; MgrBegin "9"; MgrOptimize; MgrCommit "7";
            MgrOptimize]).
  simpl. lia.
Defined.
